(** * EnergyFlow multigraph generator: a shallow embedding of
      [energyflow/multigraphs/gen.py] and the properties of its catalog.

    The Python class [Generator] is modelled by explicit state passing: the
    attributes that [__init__] and [_generate_simple]/[_generate_weights]
    mutate live in the record [Self], the attributes that
    [_generate_disconnected] creates live in the record [Catalog].  Python
    exceptions are modelled by the error monad [result].  Python integers
    are [Z], lists, tuples and numpy arrays are [list], dictionaries are
    [gmap].  The printing under [verbose] is left out. *)

From stdpp Require Import gmap list sorting numbers.

Local Open Scope Z_scope.

(** ** Exceptions *)

Inductive exn := KeyError | ValueError | IndexError.

Inductive result (A : Type) : Type :=
  | Ok (a : A)
  | Raise (e : exn).
Arguments Ok {A} a.
Arguments Raise {A} e.

#[global] Instance result_ret : MRet result := λ A a, Ok a.
#[global] Instance result_bind : MBind result := λ A B f m,
  match m with Ok a => f a | Raise e => Raise e end.

(** [for x in l: s = f s x], where the body may raise. *)
Fixpoint foldM {A S : Type} (f : S → A → result S) (l : list A) (s : S) : result S :=
  match l with
  | [] => Ok s
  | x :: l' => s' ← f s x; foldM f l' s'
  end.

(** A list comprehension whose element expression may raise. *)
Fixpoint mapM_r {A B : Type} (f : A → result B) (l : list A) : result (list B) :=
  match l with
  | [] => Ok []
  | x :: l' => y ← f x; ys ← mapM_r f l'; Ok (y :: ys)
  end.

(** ** Python built-ins used by the generator *)

(** [range(a, b)] *)
Definition range (a b : Z) : list Z := seqZ a (b - a).

(** [sum(l)] *)
Definition sum (l : list Z) : Z := foldr Z.add 0 l.

(** [max(l)]: raises [ValueError] on the empty sequence. *)
Definition py_max (l : list Z) : result Z :=
  match l with
  | [] => Raise ValueError
  | x :: l' => Ok (foldl Z.max x l')
  end.

(** [d[k]] on a dictionary. *)
Definition getitem `{Countable K} {V : Type} (d : gmap K V) (k : K) : result V :=
  match d !! k with
  | Some v => Ok v
  | None => Raise KeyError
  end.

(** [k in d] *)
Definition contains `{Countable K} {V : Type} (d : gmap K V) (k : K) : bool :=
  bool_decide (is_Some (d !! k)).

(** [d[k].append(v)] *)
Definition dict_append `{Countable K} {V : Type} (d : gmap K (list V)) (k : K) (v : V)
  : result (gmap K (list V)) :=
  l ← getitem d k; Ok (<[k := l ++ [v]]> d).

(** [a[i]] on a list (non-negative index). *)
Definition index {A : Type} (l : list A) (i : Z) : result A :=
  if bool_decide (0 ≤ i) then
    match l !! Z.to_nat i with
    | Some x => Ok x
    | None => Raise IndexError
    end
  else Raise IndexError.

(** [x in l] *)
Definition mem `{EqDecision A} (x : A) (l : list A) : bool := bool_decide (x ∈ l).

(** [itertools.combinations(l, 2)] *)
Fixpoint combinations2 {A : Type} (l : list A) : list (A * A) :=
  match l with
  | [] => []
  | x :: l' => (pair x <$> l') ++ combinations2 l'
  end.

(** [itertools.product] of the lists [ls], given as separate arguments *)
Fixpoint product {A : Type} (ls : list (list A)) : list (list A) :=
  match ls with
  | [] => [[]]
  | l :: ls' => x ← l; (cons x) <$> product ls'
  end.

(** A stable sort, as Python's [sorted] and [list.sort] are: [x] is
    inserted after the elements that are not greater. *)
Fixpoint sort_insert {A : Type} (le : A → A → bool) (x : A) (l : list A) : list A :=
  match l with
  | [] => [x]
  | y :: l' => if le y x then y :: sort_insert le x l' else x :: y :: l'
  end.

Definition sorted_by {A : Type} (le : A → A → bool) (l : list A) : list A :=
  foldl (λ acc x, sort_insert le x acc) [] l.

(** Order of integers and lexicographic order of pairs (tuple comparison). *)
Definition pair_leb (a b : Z * Z) : bool :=
  (a.1 <? b.1) || ((a.1 =? b.1) && (a.2 <=? b.2)).

Definition sorted_Z : list Z → list Z := sorted_by Z.leb.
Definition sorted_pairs : list (Z * Z) → list (Z * Z) := sorted_by pair_leb.
(** [l.sort(key=len)] *)
Definition sort_key_len {A : Type} : list (list A) → list (list A) :=
  sorted_by (λ a b, (length a <=? length b)%nat).

(** ** igraph graphs

    An undirected [igraph.Graph] is its vertex count and its edge list in
    insertion order; [get_edgelist] returns that list.  Every edge the
    generator adds has its smaller endpoint first, which is also how igraph
    reports an undirected edge. *)

Record Graph := { vcount : Z; get_edgelist : list (Z * Z) }.

#[global] Instance Graph_eq_dec : EqDecision Graph.
Proof. solve_decision. Defined.

(** [igraph.Graph.Full(2, directed=False)] *)
Definition Full2 : Graph := {| vcount := 2; get_edgelist := [(0, 1)] |}.

Definition add_vertices (g : Graph) (k : Z) : Graph :=
  {| vcount := vcount g + k; get_edgelist := get_edgelist g |}.

Definition add_edges (g : Graph) (es : list (Z * Z)) : Graph :=
  {| vcount := vcount g; get_edgelist := get_edgelist g ++ es |}.

(** ** Collaborators

    The isomorphism tests belong to igraph, the complexity score and the
    contraction plan to the base class [VariableElimination], the two
    partition generators to [energyflow.algorithms]; none of them is part
    of the file modelled here.  The iteration order of a Python [set] is
    unspecified: [set_order] maps the sequence of insertions to the order
    in which the set is iterated. *)

Record Collaborators := {
  EinStr : Type;
  EinPath : Type;
  (** [g1.isomorphic(g2)] *)
  isomorphic : Graph → Graph → bool;
  (** [g.isomorphic_vf2(other=g, edge_color1=c1, edge_color2=c2)] *)
  isomorphic_vf2 : Graph → list Z → list Z → bool;
  (** [self.ve(edges, n)], then [self.chi] *)
  ve : list (Z * Z) → Z → Z;
  (** [self.ve(edges, n)], then [self.einspecs()] *)
  einspecs : list (Z * Z) → Z → EinStr * EinPath;
  int_partition_ordered : Z → Z → list (list Z);
  int_partition_unordered : Z → list (list Z);
  set_order_perms : list (list Z) → list (list Z);
  set_order_specs : list (list (Z * Z)) → list (list (Z * Z));
  (** [a[mask]] when [mask] is [np.asarray([])], an array of floats and not
      of booleans: numpy from 1.12 on raises [IndexError], older versions
      select nothing. *)
  index_by_empty_mask : result ();
}.

(** [itertools.permutations(l)]: index-lexicographic order, equal elements
    at different positions are told apart. *)
Fixpoint selections {A : Type} (l : list A) : list (A * list A) :=
  match l with
  | [] => []
  | x :: l' => (x, l') :: ((λ yr : A * list A, (yr.1, x :: yr.2)) <$> selections l')
  end.

Fixpoint permutations_upto {A : Type} (len : nat) (l : list A) : list (list A) :=
  match len with
  | O => [[]]
  | S len' => xr ← selections l; (cons xr.1) <$> permutations_upto len' xr.2
  end.

Definition itertools_permutations {A : Type} (l : list A) : list (list A) :=
  permutations_upto (length l) l.

(** A list comprehension with a condition that may raise. *)
Fixpoint filterM_r {A : Type} (f : A → result bool) (l : list A) : result (list A) :=
  match l with
  | [] => Ok []
  | x :: l' =>
      b ← f x; ys ← filterM_r f l';
      Ok (if b : bool then x :: ys else ys)
  end.

(** ** Rows of the catalog: the columns ['n','e','d','k','g','w','c','p'] *)

Record Row := {
  col_n : Z; col_e : Z; col_d : Z; col_k : Z;
  col_g : Z; col_w : Z; col_c : Z; col_p : Z
}.

#[global] Instance Row_eq_dec : EqDecision Row.
Proof. solve_decision. Defined.

(** The arguments of [Generator.__init__] once the defaults are filled in. *)
Record Params := { p_dmax : Z; p_nmax : Z; p_emax : Z; p_cmax : Z }.

(** [nmax], [emax] and [cmax] default to [dmax+1], [dmax] and [nmax]. *)
Definition params (dmax : Z) (nmax emax cmax : option Z) : Params :=
  let nmax' := default (dmax + 1) nmax in
  {| p_dmax := dmax; p_nmax := nmax';
     p_emax := default dmax emax; p_cmax := default nmax' cmax |}.

Section Generator.

Context (X : Collaborators).

Abbreviation edge := (Z * Z)%type.

(** The attributes of [self] that exist when [_generate_disconnected] starts. *)
Record Self := {
  dmax : Z; nmax : Z; emax : Z; cmax : Z;
  ns : list Z;
  emaxs : gmap Z Z;
  esbyn : gmap Z (list Z);
  dmaxs : gmap (Z * Z) Z;
  simple_graphs_d : gmap (Z * Z) (list Graph);
  edges_d : gmap (Z * Z) (list (list edge));
  chis_d : gmap (Z * Z) (list Z);
  einpaths_d : gmap (Z * Z) (list (EinPath X));
  einstrs_d : gmap (Z * Z) (list (EinStr X));
  weights_d : gmap (Z * Z) (list (list (list Z)));
  base_edges : gmap Z (list edge)
}.

Definition set_base_edges (self : Self) (be : gmap Z (list edge)) : Self :=
  {| dmax := dmax self; nmax := nmax self; emax := emax self; cmax := cmax self;
     ns := ns self; emaxs := emaxs self; esbyn := esbyn self; dmaxs := dmaxs self;
     simple_graphs_d := simple_graphs_d self; edges_d := edges_d self;
     chis_d := chis_d self; einpaths_d := einpaths_d self;
     einstrs_d := einstrs_d self; weights_d := weights_d self;
     base_edges := be |}.

Definition set_weights_d (self : Self) (wd : gmap (Z * Z) (list (list (list Z)))) : Self :=
  {| dmax := dmax self; nmax := nmax self; emax := emax self; cmax := cmax self;
     ns := ns self; emaxs := emaxs self; esbyn := esbyn self; dmaxs := dmaxs self;
     simple_graphs_d := simple_graphs_d self; edges_d := edges_d self;
     chis_d := chis_d self; einpaths_d := einpaths_d self;
     einstrs_d := einstrs_d self; weights_d := wd;
     base_edges := base_edges self |}.

Definition set_graph_containers (self : Self)
    (sg : gmap (Z * Z) (list Graph)) (ed : gmap (Z * Z) (list (list edge)))
    (ch : gmap (Z * Z) (list Z)) (es : gmap (Z * Z) (list (EinStr X)))
    (ep : gmap (Z * Z) (list (EinPath X))) : Self :=
  {| dmax := dmax self; nmax := nmax self; emax := emax self; cmax := cmax self;
     ns := ns self; emaxs := emaxs self; esbyn := esbyn self; dmaxs := dmaxs self;
     simple_graphs_d := sg; edges_d := ed; chis_d := ch; einpaths_d := ep;
     einstrs_d := es; weights_d := weights_d self;
     base_edges := base_edges self |}.

(** [{(n,e): [] for n in self.ns for e in self.esbyn[n]}] *)
Definition container {V : Type} (keys : list (Z * Z)) : gmap (Z * Z) (list V) :=
  list_to_map ((λ ne, (ne, [])) <$> keys).

(** The part of [__init__] before the three generation phases: parameters,
    the tables [ns], [emaxs], [esbyn], [dmaxs] and the six empty containers.
    [int(n/2*(n-1))] is a float product truncated; it is [n*(n-1)/2] exactly
    (the product is even and far below 2^53). *)
Definition init_tables (p : Params) : result Self :=
  let ns := range 2 (p_nmax p + 1) in
  let emaxs : gmap Z Z :=
    (list_to_map ((λ n, (n, Z.min (p_emax p) (Z.quot (n * (n - 1)) 2))) <$> ns)
       : gmap Z Z) in
  esl ← mapM_r (λ n, em ← getitem emaxs n; Ok (n, range (n - 1) (em + 1))) ns;
  let esbyn : gmap Z (list Z) := (list_to_map esl : gmap Z (list Z)) in
  keys ← mapM_r (λ n, es ← getitem esbyn n; Ok ((λ e : Z, (n, e)) <$> (es : list Z))) ns;
  let keys : list (Z * Z) := concat keys in
  Ok {| dmax := p_dmax p; nmax := p_nmax p; emax := p_emax p; cmax := p_cmax p;
        ns := ns; emaxs := emaxs; esbyn := esbyn;
        dmaxs := list_to_map ((λ ne, (ne, p_dmax p)) <$> keys);
        simple_graphs_d := container keys; edges_d := container keys;
        chis_d := container keys; einpaths_d := container keys;
        einstrs_d := container keys; weights_d := container keys;
        base_edges := ∅ |}.

(** [_add_if_new]: adds a simple graph if it is non-isomorphic to the
    graphs of its bucket and its complexity is at most [cmax]. *)
Definition _add_if_new (self : Self) (new_graph : Graph) (ne : Z * Z) : result Self :=
  graphs ← getitem (simple_graphs_d self) ne;
  if existsb (λ graph, isomorphic X new_graph graph) graphs then Ok self else
  let new_edges := get_edgelist new_graph in
  let chi := ve X new_edges ne.1 in
  if bool_decide (chi > cmax self) then Ok self else
  sg ← dict_append (simple_graphs_d self) ne new_graph;
  ed ← dict_append (edges_d self) ne new_edges;
  ch ← dict_append (chis_d self) ne chi;
  let einstr_einpath := einspecs X new_edges ne.1 in
  es ← dict_append (einstrs_d self) ne einstr_einpath.1;
  ep ← dict_append (einpaths_d self) ne einstr_einpath.2;
  Ok (set_graph_containers self sg ed ch es ep).

(** [_edge_filter]: the edges of [base_edges[n]] that are not in [edges]. *)
Definition _edge_filter (self : Self) (n : Z) (edges : list edge) : result (list edge) :=
  be ← getitem (base_edges self) n;
  Ok (filter (λ edge, edge ∉ edges) be).

(** The candidates grown from one seed by attaching a new vertex. *)
Definition add_vertex_step (n e : Z) (seed_graph : Graph) (self : Self) : result Self :=
  foldM (λ self v,
    let new_graph := seed_graph in
    let new_graph := add_vertices new_graph 1 in
    let new_graph := add_edges new_graph [(v, n - 1)] in
    _add_if_new self new_graph (n, e)) (range 0 (n - 1)) self.

(** The candidates grown from one seed by adding a missing edge. *)
Definition add_edge_step (n e : Z) (seed : Graph * list edge) (self : Self) : result Self :=
  new_edges ← _edge_filter self n seed.2;
  foldM (λ self new_edge,
    let new_graph := seed.1 in
    let new_graph := add_edges new_graph [new_edge] in
    _add_if_new self new_graph (n, e)) new_edges self.

(** The body of the loop over [e] in [_generate_simple]. *)
Definition simple_step (n : Z) (self : Self) (e : Z) : result Self :=
  esn1 ← getitem (esbyn self) (n - 1);
  self ← (if mem (e - 1) esn1 then
            seeds ← getitem (simple_graphs_d self) (n - 1, e - 1);
            foldM (λ self seed_graph, add_vertex_step n e seed_graph self) seeds self
          else Ok self);
  esn ← getitem (esbyn self) n;
  if mem (e - 1) esn then
    seeds ← getitem (simple_graphs_d self) (n, e - 1);
    seed_edges ← getitem (edges_d self) (n, e - 1);
    foldM (λ self seed, add_edge_step n e seed self) (zip seeds seed_edges) self
  else Ok self.

Definition _generate_simple (self : Self) : result Self :=
  let self := set_base_edges self
    (list_to_map ((λ n, (n, combinations2 (range 0 n))) <$> ns self)) in
  self ← _add_if_new self Full2 (2, 1);
  foldM (λ self n,
    es ← getitem (esbyn self) n;
    foldM (simple_step n) es self) (tail (ns self)) self.

(** The weightings kept for one graph with [e] edges: for each [d] and each
    ordered partition of [d], the partition is appended unless the graph
    with an earlier weighting is edge-colour isomorphic to it. *)
Definition add_weighting (graph : Graph) (weightings : list (list Z)) (part : list Z)
  : list (list Z) :=
  if existsb (λ weighting, isomorphic_vf2 X graph weighting part) weightings
  then weightings else weightings ++ [part].

Definition graph_weightings (parts : gmap (Z * Z) (list (list Z))) (e dm : Z)
    (graph : Graph) : result (list (list Z)) :=
  foldM (λ weightings d,
    ps ← getitem parts (d, e);
    Ok (foldl (add_weighting graph) weightings ps)) (range e (dm + 1)) [].

(** The table [parts] of ordered partitions of [d] of length [e]. *)
Definition build_parts (self : Self) : result (gmap (Z * Z) (list (list Z))) :=
  foldM (λ parts n,
    es ← getitem (esbyn self) n;
    foldM (λ parts e,
      dm ← getitem (dmaxs self) (n, e);
      Ok (foldl (λ parts d,
            if contains parts (d, e) then parts
            else <[(d, e) := int_partition_ordered X d e]> parts)
          parts (range e (dm + 1)))) es parts) (tail (ns self)) ∅.

Definition _generate_weights (self : Self) : result Self :=
  dm ← getitem (dmaxs self) (2, 1);
  wd ← dict_append (weights_d self) (2, 1) ((λ d, [d]) <$> range 1 (dm + 1));
  let self := set_weights_d self wd in
  parts ← build_parts self;
  foldM (λ self n,
    es ← getitem (esbyn self) n;
    foldM (λ self e,
      graphs ← getitem (simple_graphs_d self) (n, e);
      foldM (λ self graph,
        dm ← getitem (dmaxs self) (n, e);
        weightings ← graph_weightings parts e dm graph;
        wd ← dict_append (weights_d self) (n, e) weightings;
        Ok (set_weights_d self wd)) graphs self) es self) (tail (ns self)) self.

(** The attributes that the first half of [_generate_disconnected] builds,
    with its three counters [g], [w] and [i]. *)
Record Connected := {
  connected_specs : list Row;
  edges : list (list edge);
  weights : list (list Z);
  einstrs : list (EinStr X);
  einpaths : list (EinPath X);
  ks : gmap (Z * Z) Z;
  ndk2i : gmap (Z * Z * Z) Z;
  g : Z; w : Z; i : Z
}.

Definition Connected_empty : Connected :=
  {| connected_specs := []; edges := []; weights := []; einstrs := [];
     einpaths := []; ks := ∅; ndk2i := ∅; g := 0; w := 0; i := 0 |}.

(** The body of [for weighting in weights]. *)
Definition add_row (n e chi : Z) (st : Connected) (weighting : list Z) : Connected :=
  let d := sum weighting in
  let k := default 0 (ks st !! (n, d)) in
  {| connected_specs := connected_specs st ++
       [{| col_n := n; col_e := e; col_d := d; col_k := k;
           col_g := g st; col_w := w st; col_c := chi; col_p := 1 |}];
     edges := edges st;
     weights := weights st ++ [weighting];
     einstrs := einstrs st; einpaths := einpaths st;
     ks := <[(n, d) := k + 1]> (ks st);
     ndk2i := <[(n, d, k) := i st]> (ndk2i st);
     g := g st; w := w st + 1; i := i st + 1 |}.

(** The body of [for edges, weights, chi, es, ep in z]. *)
Definition add_graph (n e : Z) (st : Connected)
    (z : list edge * list (list Z) * Z * EinStr X * EinPath X) : Connected :=
  let '(edges_, weights_, chi, es, ep) := z in
  let st := foldl (add_row n e chi) st weights_ in
  {| connected_specs := connected_specs st;
     edges := edges st ++ [edges_];
     weights := weights st;
     einstrs := einstrs st ++ [es]; einpaths := einpaths st ++ [ep];
     ks := ks st; ndk2i := ndk2i st;
     g := g st + 1; w := w st; i := i st |}.

(** [zip] of the five containers of one bucket. *)
Definition zip5 (self : Self) (ne : Z * Z)
  : result (list (list edge * list (list Z) * Z * EinStr X * EinPath X)) :=
  ed ← getitem (edges_d self) ne;
  wd ← getitem (weights_d self) ne;
  ch ← getitem (chis_d self) ne;
  es ← getitem (einstrs_d self) ne;
  ep ← getitem (einpaths_d self) ne;
  Ok (zip (zip (zip (zip ed wd) ch) es) ep).

(** [sorted(self.chis_d.keys())] *)
Definition sorted_keys (self : Self) : list (Z * Z) :=
  sorted_pairs (map_to_list (chis_d self)).*1.

Definition build_connected (self : Self) : result Connected :=
  foldM (λ st ne,
    z ← zip5 self ne;
    Ok (foldl (add_graph ne.1 ne.2) st z)) (sorted_keys self) Connected_empty.

(** [good_part]: no 1s, no number above [nmax], not the trivial partition. *)
Definition good_part (self : Self) (x : list Z) : result bool :=
  if mem 1 x then Ok false else
  m ← py_max x;
  Ok (bool_decide (m ≤ nmax self) && bool_decide (1 < length x)%nat).

(** The specs of one [n_part]: every ordering of it zipped with every
    [d_part], sorted, kept when all its pairs are keys of [ks]; the result is
    the sequence of insertions into the set [specs]. *)
Definition collect_specs (c : Connected) (n_part : list Z) (d_parts : list (list Z))
  : list (list (Z * Z)) :=
  n_part_ord ← set_order_perms X (itertools_permutations n_part);
  d_part ← d_parts;
  let spec := sorted_pairs (zip n_part_ord d_part) in
  if forallb (λ pair, contains (ks c) pair) spec then [spec] else [].

(** The body of [for (nn,dd),kk in zip(spec,kspec)]. *)
Definition add_factor (c : Connected) (acc : list Z * Z * Z) (f : Z * Z * Z)
  : result (list Z * Z * Z) :=
  let '(formula, cmax_, emax_) := acc in
  let '(nn, dd, kk) := f in
  ind ← getitem (ndk2i c) (nn, dd, kk);
  row ← index (connected_specs c) ind;
  Ok (formula ++ [ind], Z.max cmax_ (col_c row), Z.max emax_ (col_e row)).

(** The body of [for kspec in itertools.product(...)]; the state is
    [(disc_formulae, disc_specs, kcount)]. *)
Definition add_formula (c : Connected) (n d : Z) (spec : list (Z * Z))
    (acc : list (list Z) * list Row * Z) (kspec : list Z)
  : result (list (list Z) * list Row * Z) :=
  let '(disc_formulae, disc_specs, kcount) := acc in
  '(formula, cmax_, emax_) ← foldM (add_factor c) (zip spec kspec) ([], 0, 0);
  Ok (disc_formulae ++ [sorted_Z formula],
      disc_specs ++ [{| col_n := n; col_e := emax_; col_d := d; col_k := kcount;
                        col_g := -1; col_w := -1; col_c := cmax_;
                        col_p := Z.of_nat (length kspec) |}],
      kcount + 1).

(** The body of [for spec in specs]. *)
Definition add_spec (c : Connected) (n d : Z) (acc : list (list Z) * list Row)
    (spec : list (Z * Z)) : result (list (list Z) * list Row) :=
  kcount ← (if negb (contains (ks c) (n, d)) then Ok 0 else getitem (ks c) (n, d));
  ranges ← mapM_r (λ factor, kf ← getitem (ks c) factor; Ok (range 0 kf)) spec;
  '(disc_formulae, disc_specs, _) ←
    foldM (add_formula c n d spec) (product ranges) (acc.1, acc.2, kcount);
  Ok (disc_formulae, disc_specs).

(** The body of [for n_part in n_parts]. *)
Definition add_n_part (c : Connected) (n d : Z) (acc : list (list Z) * list Row)
    (n_part : list Z) : result (list (list Z) * list Row) :=
  let n_part_len := length n_part in
  let d_parts := filter (λ x, length x = n_part_len) (int_partition_unordered X d) in
  if bool_decide (length d_parts = 0%nat) then Ok acc else
  let specs := collect_specs c n_part d_parts in
  foldM (add_spec c n d) (set_order_specs X specs) acc.

(** The loops over [n], [d] and [n_part]. *)
Definition build_disconnected (self : Self) (c : Connected)
  : result (list (list Z) * list Row) :=
  foldM (λ acc n,
    n_parts ← filterM_r (good_part self) (int_partition_unordered X n);
    let n_parts := sort_key_len n_parts in
    foldM (λ acc d, foldM (add_n_part c n d) n_parts acc)
      (range (Z.quot n 2) (dmax self + 1)) acc)
    (range 4 (2 * dmax self + 1)) ([], []).

(** [[not (form in seen or seen.add(form)) for form in disc_formulae]]:
    true at the first occurrence of each formula. *)
Fixpoint first_occurrence (seen : list (list Z)) (l : list (list Z)) : list bool :=
  match l with
  | [] => []
  | form :: l' =>
      if mem form seen then false :: first_occurrence seen l'
      else true :: first_occurrence (form :: seen) l'
  end.

(** [np.asarray(a)[mask]] for a mask of booleans.  Tuples of different
    lengths make [np.asarray(a)] an array of tuples, which the mask selects
    from in the same way. *)
Definition select {A : Type} (a : list A) (mask : list bool) : list A :=
  (filter (λ xb : A * bool, xb.2 = true) (zip a mask)).*1.

(** What [_generate_disconnected] leaves in [self]. *)
Record Catalog := {
  connected : Connected;
  disc_formulae : list (list Z);
  disc_specs : list Row;
  specs : list Row
}.

Definition _generate_disconnected (self : Self) : result Catalog :=
  c ← build_connected self;
  '(disc_formulae, disc_specs) ← build_disconnected self c;
  let mask := first_occurrence [] disc_formulae in
  _ ← (if mask is [] then index_by_empty_mask X else Ok ());
  let disc_formulae := select disc_formulae mask in
  let disc_specs := select disc_specs mask in
  Ok {| connected := c; disc_formulae := disc_formulae; disc_specs := disc_specs;
        specs := connected_specs c ++ disc_specs |}.

(** [Generator.__init__] *)
Definition Generator (p : Params) : result (Self * Catalog) :=
  self ← init_tables p;
  self ← _generate_simple self;
  self ← _generate_weights self;
  cat ← _generate_disconnected self;
  Ok (self, cat).

End Generator.

(** ** Reference collaborators

    Executable stand-ins for the collaborators, used to run the generator on
    concrete configurations. *)

(** Modelled from the spec: [int_partition_ordered] of
    [energyflow.algorithms] is missing; the spec's glossary has it yield the
    sequences of [e] positive integers summing to [d], where position
    matters.  They are listed in lexicographic order. *)
Fixpoint compositions (e : nat) (d : Z) : list (list Z) :=
  match e with
  | O => if bool_decide (d = 0) then [[]] else []
  | S e' => x ← range 1 (d - Z.of_nat e' + 1); (cons x) <$> compositions e' (d - x)
  end.

Definition ref_int_partition_ordered (d e : Z) : list (list Z) :=
  if bool_decide (0 ≤ e) then compositions (Z.to_nat e) d else [].

(** Modelled from the spec: [int_partition_unordered] of
    [energyflow.algorithms] is missing; the spec's glossary has it yield the
    multisets of positive integers summing to [n].  Each multiset is listed
    once, as a non-decreasing list, in lexicographic order:
    [asc_partitions fuel m n] are those with all parts at least [m]. *)
Fixpoint asc_partitions (fuel : nat) (m n : Z) : list (list Z) :=
  match fuel with
  | O => []
  | S fuel' =>
      if bool_decide (n < m) then []
      else (x ← range m (n `div` 2 + 1); (cons x) <$> asc_partitions fuel' x (n - x))
           ++ [[n]]
  end.

Definition ref_int_partition_unordered (n : Z) : list (list Z) :=
  asc_partitions (Z.to_nat n) 1 n.

(** Iterating a set in the order of first insertion. *)
Definition insertion_order `{EqDecision A} (l : list A) : list A := remove_dups l.

(** Isomorphism of simple graphs by search over the vertex bijections. *)
Definition norm_edge (e : Z * Z) : Z * Z := if e.1 <=? e.2 then e else (e.2, e.1).

Definition relabel (σ : list Z) (e : Z * Z) : Z * Z :=
  norm_edge (default 0 (σ !! Z.to_nat e.1), default 0 (σ !! Z.to_nat e.2)).

Definition same_elements `{EqDecision A} (l1 l2 : list A) : bool :=
  bool_decide (length l1 = length l2) && forallb (λ x, mem x l2) l1
  && forallb (λ x, mem x l1) l2.

Definition search_isomorphic (g1 g2 : Graph) : bool :=
  bool_decide (vcount g1 = vcount g2) &&
  existsb (λ σ, same_elements (relabel σ <$> get_edgelist g1)
                              (norm_edge <$> get_edgelist g2))
          (itertools_permutations (range 0 (vcount g1))).

(** Edge-coloured isomorphism of a graph with itself under two colourings. *)
Definition search_isomorphic_vf2 (g : Graph) (c1 c2 : list Z) : bool :=
  existsb (λ σ, same_elements (zip (relabel σ <$> get_edgelist g) c1)
                              (zip (norm_edge <$> get_edgelist g) c2))
          (itertools_permutations (range 0 (vcount g))).

(** Labelled equality: same vertex count and same edges up to their order. *)
Definition labelled_equal (g1 g2 : Graph) : bool :=
  bool_decide (vcount g1 = vcount g2 ∧
               sorted_pairs (get_edgelist g1) = sorted_pairs (get_edgelist g2)).

(** A score that only depends on the vertex count. *)
Definition vertex_score (edges : list (Z * Z)) (n : Z) : Z := n.

Definition search_collaborators : Collaborators :=
  {| EinStr := unit; EinPath := unit;
     isomorphic := search_isomorphic;
     isomorphic_vf2 := search_isomorphic_vf2;
     ve := vertex_score;
     einspecs := λ _ _, (tt, tt);
     int_partition_ordered := ref_int_partition_ordered;
     int_partition_unordered := ref_int_partition_unordered;
     set_order_perms := insertion_order;
     set_order_specs := insertion_order;
     index_by_empty_mask := Raise IndexError |}.

(** Collaborators that tell graphs apart by their labelled edges and
    weightings by their entries. *)
Definition labelled_collaborators : Collaborators :=
  {| EinStr := unit; EinPath := unit;
     isomorphic := labelled_equal;
     isomorphic_vf2 := λ _ c1 c2, bool_decide (c1 = c2);
     ve := vertex_score;
     einspecs := λ _ _, (tt, tt);
     int_partition_ordered := ref_int_partition_ordered;
     int_partition_unordered := ref_int_partition_unordered;
     set_order_perms := insertion_order;
     set_order_specs := insertion_order;
     index_by_empty_mask := Raise IndexError |}.

(** The same collaborators with a numpy that accepts the empty mask. *)
Definition old_numpy (X : Collaborators) : Collaborators :=
  {| EinStr := EinStr X; EinPath := EinPath X;
     isomorphic := isomorphic X;
     isomorphic_vf2 := isomorphic_vf2 X;
     ve := ve X;
     einspecs := einspecs X;
     int_partition_ordered := int_partition_ordered X;
     int_partition_unordered := int_partition_unordered X;
     set_order_perms := set_order_perms X;
     set_order_specs := set_order_specs X;
     index_by_empty_mask := Ok () |}.

Arguments dmax {X} _. Arguments nmax {X} _. Arguments emax {X} _. Arguments cmax {X} _.
Arguments ns {X} _. Arguments emaxs {X} _. Arguments esbyn {X} _. Arguments dmaxs {X} _.
Arguments simple_graphs_d {X} _. Arguments edges_d {X} _. Arguments chis_d {X} _.
Arguments einpaths_d {X} _. Arguments einstrs_d {X} _. Arguments weights_d {X} _.
Arguments base_edges {X} _.
Arguments connected_specs {X} _. Arguments edges {X} _. Arguments weights {X} _.
Arguments einstrs {X} _. Arguments einpaths {X} _. Arguments ks {X} _.
Arguments ndk2i {X} _. Arguments g {X} _. Arguments w {X} _. Arguments i {X} _.
Arguments connected {X} _. Arguments disc_formulae {X} _. Arguments disc_specs {X} _.
Arguments specs {X} _.

(** ** Vocabulary of the statements *)

(** One entry of the [zip] of a bucket. *)
Abbreviation zipped X :=
  (list (Z * Z) * list (list Z) * Z * EinStr X * EinPath X)%type.

Section Vocabulary.

Context {X : Collaborators}.

Definition z_edges (zj : zipped X) : list (Z * Z) := zj.1.1.1.1.
Definition z_weights (zj : zipped X) : list (list Z) := zj.1.1.1.2.
Definition z_chi (zj : zipped X) : Z := zj.1.1.2.

(** The zipped entries of bucket [ne] (none when a container has no such key). *)
Definition bucket (self : Self X) (ne : Z * Z) : list (zipped X) :=
  match zip5 X self ne with Ok z => z | Raise _ => [] end.

(** The zipped entries of the buckets [keys], in order. *)
Definition buckets (self : Self X) (keys : list (Z * Z)) : list (zipped X) :=
  concat (bucket self <$> keys).

(** Row [idx] of the connected rows comes from entry [j] of the bucket of
    its [(n,e)] and from weighting [m] of that entry: [d] is the sum of the
    weighting, [c] the entry's complexity, [g] counts the entries of all
    earlier buckets and the [j] entries before this one, [w] is [idx], and
    the flattened weighting array has the weighting at [idx]. *)
Definition row_origin (self : Self X) (c : Connected X) (idx : nat) (row : Row) : Prop :=
  ∃ pre post j zj m weighting,
    sorted_keys X self = pre ++ (col_n row, col_e row) :: post ∧
    bucket self (col_n row, col_e row) !! j = Some zj ∧
    z_weights zj !! m = Some weighting ∧
    col_d row = sum weighting ∧
    col_c row = z_chi zj ∧
    col_p row = 1 ∧
    col_g row = Z.of_nat (length (buckets self pre) + j) ∧
    col_w row = Z.of_nat idx ∧
    weights c !! idx = Some weighting.

(** The counters [ks] and the table [ndk2i] agree with the rows. *)
Definition index_ok (c : Connected X) : Prop :=
  (∀ n d k j, ndk2i c !! (n, d, k) = Some j →
     0 ≤ j ∧ ∃ row, connected_specs c !! Z.to_nat j = Some row ∧
       col_n row = n ∧ col_d row = d ∧ col_k row = k) ∧
  (∀ n d cnt, ks c !! (n, d) = Some cnt →
     0 < cnt ∧ ∀ k, 0 ≤ k < cnt → is_Some (ndk2i c !! (n, d, k))) ∧
  (∀ idx row, connected_specs c !! idx = Some row →
     ndk2i c !! (col_n row, col_d row, col_k row) = Some (Z.of_nat idx) ∧
     ∃ cnt, ks c !! (col_n row, col_d row) = Some cnt ∧ 0 ≤ col_k row < cnt).

(** The invariant of the loops of the connected half of
    [_generate_disconnected], when the entries [G] have been flattened. *)
Definition connected_inv (self : Self X) (G : list (zipped X)) (c : Connected X) : Prop :=
  g c = Z.of_nat (length G) ∧
  edges c = z_edges <$> G ∧
  w c = Z.of_nat (length (connected_specs c)) ∧
  i c = Z.of_nat (length (connected_specs c)) ∧
  length (weights c) = length (connected_specs c) ∧
  (∀ idx row, connected_specs c !! idx = Some row → row_origin self c idx row) ∧
  index_ok c.

End Vocabulary.

(** The reading of the column [g] as a position within the row's own
    bucket: [g] is a valid index of the bucket [(n,e)] of the row. *)
Definition g_indexes_bucket {X : Collaborators} (self : Self X) (cat : Catalog X) : Prop :=
  ∀ idx row, connected_specs (connected cat) !! idx = Some row →
    ∃ ed, edges_d self !! (col_n row, col_e row) = Some ed ∧
          0 ≤ col_g row < Z.of_nat (length ed).

(** A property of the outcome of a run that did not raise. *)
Definition is_Ok {A : Type} (r : result A) : bool :=
  match r with Ok _ => true | Raise _ => false end.

Definition run_holds {X : Collaborators} (r : result (Self X * Catalog X))
    (P : Self X → Catalog X → Prop) : Prop :=
  match r with Ok (self, cat) => P self cat | Raise _ => False end.

(** A projection of the outcome of a run. *)
Definition run_get {X : Collaborators} {A : Type} (r : result (Self X * Catalog X))
    (f : Self X → Catalog X → option A) : option A :=
  match r with Ok (self, cat) => f self cat | Raise _ => None end.

(** [__init__] up to [_generate_weights]: [self] after [_generate_simple]
    and after [_generate_weights]. *)
Definition graph_stages (X : Collaborators) (p : Params) : result (Self X * Self X) :=
  self0 ← init_tables X p;
  self1 ← _generate_simple X self0;
  self2 ← _generate_weights X self1;
  Ok (self1, self2).

(** The graphs of a bucket when [_generate_weights] has returned. *)
Definition stored_graphs {X : Collaborators} (r : result (Self X * Self X))
    (ne : Z * Z) : option (list Graph) :=
  match r with Ok (_, self2) => simple_graphs_d self2 !! ne | Raise _ => None end.

(** Bucket [ne] is a key of the five graph containers. *)
Definition bucket_exists {X : Collaborators} (s : Self X) (ne : Z * Z) : Prop :=
  is_Some (simple_graphs_d s !! ne) ∧ is_Some (edges_d s !! ne) ∧
  is_Some (chis_d s !! ne) ∧ is_Some (einstrs_d s !! ne) ∧
  is_Some (einpaths_d s !! ne).

(** What the loops of [_generate_simple] look up is there: every vertex
    count of [ns] has its edge counts and its base edges, the vertex count
    before one of [ns[1:]] is in [ns], and every bucket [(n,e)] of the
    tables is a key of the five graph containers. *)
Definition lookups_ready {X : Collaborators} (s : Self X) : Prop :=
  (∀ n, n ∈ ns s → is_Some (esbyn s !! n) ∧ is_Some (base_edges s !! n)) ∧
  (∀ n, n ∈ tail (ns s) → n - 1 ∈ ns s) ∧
  (∀ n es e, n ∈ ns s → esbyn s !! n = Some es → e ∈ es → bucket_exists s (n, e)).

(** The isomorphism test finds every graph isomorphic to itself. *)
Definition reflexive_test (X : Collaborators) : Prop := ∀ g, isomorphic X g g = true.

Section Simple_vocabulary.

Context {X : Collaborators}.

(** The later graph of a list was not found isomorphic to an earlier one. *)
Definition pairwise_distinct (gs : list Graph) : Prop :=
  ∀ i j gi gj, (i < j)%nat → gs !! i = Some gi → gs !! j = Some gj →
    isomorphic X gj gi = false.

(** The invariant of the graph containers: in every bucket the edge lists
    and the complexities are those of the graphs, position by position, the
    graphs are pairwise distinct for the isomorphism test, within the
    complexity bound, and have as many vertices as the key says. *)
Definition simple_inv (self : Self X) : Prop :=
  ∀ ne gs, simple_graphs_d self !! ne = Some gs →
    edges_d self !! ne = Some (get_edgelist <$> gs) ∧
    chis_d self !! ne = Some ((λ g, ve X (get_edgelist g) ne.1) <$> gs) ∧
    pairwise_distinct gs ∧
    Forall (λ g, ve X (get_edgelist g) ne.1 ≤ cmax self ∧ vcount g = ne.1) gs.

(** Two states with the same parameters and tables, apart from [cmax]. *)
Definition same_tables (s s' : Self X) : Prop :=
  dmax s' = dmax s ∧ nmax s' = nmax s ∧ emax s' = emax s ∧
  ns s' = ns s ∧ emaxs s' = emaxs s ∧ esbyn s' = esbyn s ∧ dmaxs s' = dmaxs s ∧
  base_edges s' = base_edges s.

(** What a piece of [_generate_simple] that only offers the candidates
    [Cand] to bucket [ne] does to the state: parameters, tables and the
    other buckets are kept; the bucket keeps its graphs and gains only
    candidates that are within the bound; [simple_inv] is kept when the
    candidates have the vertex count of the key. *)
Definition step_effect (ne : Z * Z) (Cand : Graph → Prop) (s s' : Self X) : Prop :=
  same_tables s s' ∧ cmax s' = cmax s ∧ weights_d s' = weights_d s ∧
  (∀ ne', ne' ≠ ne →
     simple_graphs_d s' !! ne' = simple_graphs_d s !! ne' ∧
     edges_d s' !! ne' = edges_d s !! ne') ∧
  (is_Some (simple_graphs_d s' !! ne) ↔ is_Some (simple_graphs_d s !! ne)) ∧
  (∀ gs gs', simple_graphs_d s !! ne = Some gs → simple_graphs_d s' !! ne = Some gs' →
     gs ⊆ gs' ∧
     ∀ g, g ∈ gs' → g ∈ gs ∨ (Cand g ∧ ve X (get_edgelist g) ne.1 ≤ cmax s)) ∧
  ((∀ c, Cand c → vcount c = ne.1) → simple_inv s → simple_inv s').

(** The candidate [c], if within the bound, has an isomorphic graph in
    bucket [ne]. *)
Definition represented (ne : Z * Z) (c : Graph) (s : Self X) : Prop :=
  ve X (get_edgelist c) ne.1 ≤ cmax s →
  ∃ gs graph, simple_graphs_d s !! ne = Some gs ∧ graph ∈ gs ∧
              isomorphic X c graph = true.

(** The graph grown from [seed_graph] by a new vertex attached to [v]. *)
Definition vertex_extension (seed_graph : Graph) (v : Z) (last : Z) : Graph :=
  add_edges (add_vertices seed_graph 1) [(v, last)].

(** The candidates that the loop body [simple_step n self e] offers to
    bucket [(n,e)]. *)
Definition step_candidate (n e : Z) (s : Self X) (c : Graph) : Prop :=
  (∃ esn1 seeds seed_graph v,
     esbyn s !! (n - 1) = Some esn1 ∧ e - 1 ∈ esn1 ∧
     simple_graphs_d s !! (n - 1, e - 1) = Some seeds ∧
     seed_graph ∈ seeds ∧ v ∈ range 0 (n - 1) ∧
     c = vertex_extension seed_graph v (n - 1)) ∨
  (∃ esn seeds seed_edges be seed new_edge,
     esbyn s !! n = Some esn ∧ e - 1 ∈ esn ∧
     simple_graphs_d s !! (n, e - 1) = Some seeds ∧
     edges_d s !! (n, e - 1) = Some seed_edges ∧
     base_edges s !! n = Some be ∧
     seed ∈ zip seeds seed_edges ∧ new_edge ∈ be ∧ (new_edge ∉ seed.2) ∧
     c = add_edges seed.1 [new_edge]).

(** Two states with the same graph containers and the same bound. *)
Definition same_graphs (s s' : Self X) : Prop :=
  simple_graphs_d s' = simple_graphs_d s ∧ edges_d s' = edges_d s ∧
  chis_d s' = chis_d s ∧ einstrs_d s' = einstrs_d s ∧
  einpaths_d s' = einpaths_d s ∧ cmax s' = cmax s.

(** A graph as the generator builds them: every edge joins two of the
    vertices [0..vcount-1], smaller endpoint first, and is listed once. *)
Definition well_formed (graph : Graph) : Prop :=
  NoDup (get_edgelist graph) ∧
  ∀ a b, (a, b) ∈ get_edgelist graph → 0 ≤ a ∧ a < b < vcount graph.

(** Every stored graph is well formed. *)
Definition well_buckets (s : Self X) : Prop :=
  ∀ ne gs, simple_graphs_d s !! ne = Some gs → Forall well_formed gs.

(** What the monotonicity of the buckets in [cmax] needs from the
    collaborators, and what graph isomorphism and a complexity that is a
    graph invariant provide: the isomorphism test is an equivalence; on
    well-formed graphs it is kept by the two ways of growing a graph (for a
    suitable attachment vertex, or a suitable missing edge, of the other
    graph), and isomorphic well-formed graphs have the same complexity. *)
Definition isomorphism_laws : Prop :=
  (∀ g, isomorphic X g g = true) ∧
  (∀ a b, isomorphic X a b = true → isomorphic X b a = true) ∧
  (∀ a b c, isomorphic X a b = true → isomorphic X b c = true →
     isomorphic X a c = true) ∧
  (∀ g g' v, well_formed g → well_formed g' →
     isomorphic X g g' = true → vcount g = vcount g' → 0 ≤ v < vcount g →
     ∃ v', 0 ≤ v' < vcount g' ∧
       isomorphic X (vertex_extension g v (vcount g))
                    (vertex_extension g' v' (vcount g')) = true) ∧
  (∀ g g' a b, well_formed g → well_formed g' →
     isomorphic X g g' = true → vcount g = vcount g' →
     0 ≤ a ∧ a < b < vcount g → (a, b) ∉ get_edgelist g →
     ∃ a' b', (0 ≤ a' ∧ a' < b' < vcount g') ∧ ((a', b') ∉ get_edgelist g') ∧
       isomorphic X (add_edges g [(a, b)]) (add_edges g' [(a', b')]) = true) ∧
  (∀ g g', well_formed g → well_formed g' →
     isomorphic X g g' = true → vcount g = vcount g' →
     ve X (get_edgelist g) (vcount g) = ve X (get_edgelist g') (vcount g')).

(** Every graph of [gs1] has an isomorphic graph in [gs2]. *)
Definition covered (gs1 gs2 : list Graph) : Prop :=
  ∀ g1, g1 ∈ gs1 → ∃ g2, g2 ∈ gs2 ∧ isomorphic X g1 g2 = true.

(** The relation between the states of two runs, the second with the
    larger [cmax]: same tables, well-formed graphs, and every bucket of the
    first is covered by the same bucket of the second. *)
Definition covers (s1 s2 : Self X) : Prop :=
  ns s1 = ns s2 ∧ esbyn s1 = esbyn s2 ∧ base_edges s1 = base_edges s2 ∧
  cmax s1 ≤ cmax s2 ∧ simple_inv s1 ∧ simple_inv s2 ∧
  well_buckets s1 ∧ well_buckets s2 ∧
  (∀ n be, base_edges s1 !! n = Some be → be = combinations2 (range 0 n)) ∧
  (∀ ne, is_Some (simple_graphs_d s1 !! ne) ↔ is_Some (simple_graphs_d s2 !! ne)) ∧
  (∀ ne gs1 gs2, simple_graphs_d s1 !! ne = Some gs1 →
     simple_graphs_d s2 !! ne = Some gs2 → covered gs1 gs2).

(** The state [s] with another complexity bound. *)
Definition with_cmax (s : Self X) (c : Z) : Self X :=
  {| dmax := dmax s; nmax := nmax s; emax := emax s; cmax := c;
     ns := ns s; emaxs := emaxs s; esbyn := esbyn s; dmaxs := dmaxs s;
     simple_graphs_d := simple_graphs_d s; edges_d := edges_d s;
     chis_d := chis_d s; einpaths_d := einpaths_d s;
     einstrs_d := einstrs_d s; weights_d := weights_d s;
     base_edges := base_edges s |}.

End Simple_vocabulary.

Section Weights_vocabulary.

Context {X : Collaborators}.

(** What the spec's glossary says of [int_partition_ordered(d, e)]: it
    yields sequences of [e] positive integers that sum to [d]. *)
Definition ordered_partition_contract : Prop :=
  ∀ d e part, part ∈ int_partition_ordered X d e →
    Z.of_nat (length part) = e ∧ (∀ x, x ∈ part → 1 ≤ x) ∧ sum part = d.

(** The weightings [ws] kept for [graph], which has [e] edges: each is an
    ordered partition of some [d] between [e] and [dm], and a later one was
    not found edge-colour isomorphic to an earlier one. *)
Definition weightings_ok (e dm : Z) (graph : Graph) (ws : list (list Z)) : Prop :=
  (∀ wt, wt ∈ ws → ∃ d, e ≤ d ≤ dm ∧ wt ∈ int_partition_ordered X d e) ∧
  (∀ a b wa wb, (a < b)%nat → ws !! a = Some wa → ws !! b = Some wb →
     isomorphic_vf2 X graph wa wb = false).

(** The invariant of the loops of [_generate_weights] that start in state
    [s0]: the buckets [vis] are done, the bucket [cur] is being filled and
    has the weightings of the graphs [gpre]; the other buckets are as in
    [s0]. *)
Definition weights_inv (s0 : Self X) (dm : Z) (vis : list (Z * Z))
    (cur : option (Z * Z)) (gpre : list Graph) (s : Self X) : Prop :=
  simple_graphs_d s = simple_graphs_d s0 ∧ esbyn s = esbyn s0 ∧
  dmaxs s = dmaxs s0 ∧ ns s = ns s0 ∧
  (∀ ne, ne ∉ vis → cur ≠ Some ne → weights_d s !! ne = weights_d s0 !! ne) ∧
  (∀ ne wls, ne ∈ vis → weights_d s !! ne = Some wls →
     ∃ graphs, simple_graphs_d s0 !! ne = Some graphs ∧
               Forall2 (weightings_ok ne.2 dm) graphs wls) ∧
  (∀ ne wls, cur = Some ne → weights_d s !! ne = Some wls →
     Forall2 (weightings_ok ne.2 dm) gpre wls).

(** The buckets visited after the vertex counts [npre]. *)
Definition visited (s0 : Self X) (npre : list Z) : list (Z * Z) :=
  n ← npre; (λ e, (n, e)) <$> default [] (esbyn s0 !! n).

End Weights_vocabulary.

Section Disconnected_vocabulary.

Context {X : Collaborators}.

(** What the spec's glossary says of [int_partition_unordered(n)]: it
    yields lists of integers that sum to [n]. *)
Definition unordered_partition_contract : Prop :=
  ∀ n x, x ∈ int_partition_unordered X n → sum x = n.

(** Iterating a set visits elements that were inserted. *)
Definition set_order_contract : Prop :=
  (∀ l x, x ∈ set_order_perms X l → x ∈ l) ∧
  (∀ l x, x ∈ set_order_specs X l → x ∈ l).

(** Column [col] of the connected row that the index [ind] refers to. *)
Definition comp_col (c : Connected X) (col : Row → Z) (ind : Z) : Z :=
  from_option col 0 (connected_specs c !! Z.to_nat ind).

(** The sum of column [col] over the connected rows of a formula. *)
Definition sum_col (c : Connected X) (col : Row → Z) (formula : list Z) : Z :=
  sum (comp_col c col <$> formula).

(** A disconnected row and its formula: the ranges of [n] and [d] of the
    loops, the sentinels, [p] components, at least two, listed as a sorted
    tuple of indices of connected rows whose [n] sum to the row's [n] and
    whose [d] sum to its [d]. *)
Definition disc_ok (self : Self X) (c : Connected X) (formula : list Z) (row : Row) : Prop :=
  4 ≤ col_n row ≤ 2 * dmax self ∧
  Z.quot (col_n row) 2 ≤ col_d row ≤ dmax self ∧
  col_g row = -1 ∧ col_w row = -1 ∧
  col_p row = Z.of_nat (length formula) ∧
  (2 ≤ length formula)%nat ∧
  Sorted Z.le formula ∧
  (∀ ind, ind ∈ formula →
     0 ≤ ind ∧ is_Some (connected_specs c !! Z.to_nat ind)) ∧
  sum_col c col_n formula = col_n row ∧
  sum_col c col_d formula = col_d row.

(** A spec for the target [(n,d)]: at least two pairs [(n_i,d_i)] with the
    right sums. *)
Definition spec_ok (n d : Z) (spec : list (Z * Z)) : Prop :=
  sum (spec.*1) = n ∧ sum (spec.*2) = d ∧ (2 ≤ length spec)%nat.

End Disconnected_vocabulary.

(** ** The states of the run with [dmax = 2] and [nmax = 2] *)

Section Scenario_states.

Context (X : Collaborators).

(** After the tables of [__init__]. *)
Definition scenario_tables : Self X :=
  {| dmax := 2; nmax := 2; emax := 2; cmax := 2; ns := [2];
     emaxs := {[2 := 1]}; esbyn := {[2 := [1]]}; dmaxs := {[(2, 1) := 2]};
     simple_graphs_d := container [(2, 1)]; edges_d := container [(2, 1)];
     chis_d := container [(2, 1)]; einpaths_d := container [(2, 1)];
     einstrs_d := container [(2, 1)]; weights_d := container [(2, 1)];
     base_edges := ∅ |}.

(** After [_generate_simple], when the single edge is accepted. *)
Definition scenario_simple : Self X :=
  {| dmax := 2; nmax := 2; emax := 2; cmax := 2; ns := [2];
     emaxs := {[2 := 1]}; esbyn := {[2 := [1]]}; dmaxs := {[(2, 1) := 2]};
     simple_graphs_d := {[(2, 1) := [Full2]]};
     edges_d := {[(2, 1) := [[(0, 1)]]]};
     chis_d := {[(2, 1) := [ve X [(0, 1)] 2]]};
     einpaths_d := {[(2, 1) := [(einspecs X [(0, 1)] 2).2]]};
     einstrs_d := {[(2, 1) := [(einspecs X [(0, 1)] 2).1]]};
     weights_d := container [(2, 1)];
     base_edges := {[2 := [(0, 1)]]} |}.

(** After [_generate_weights]. *)
Definition scenario_weights : Self X :=
  set_weights_d X scenario_simple {[(2, 1) := [[[1]; [2]]]]}.

End Scenario_states.
(** * Reasoning about the error monad and the loops *)

Lemma bind_Ok {A B : Type} (m : result A) (f : A → result B) (b : B) :
  m ≫= f = Ok b ↔ ∃ a, m = Ok a ∧ f a = Ok b.
Proof.
  destruct m as [a|e]; simpl; split.
  - intros H. exists a. done.
  - intros (a' & [= <-] & H). done.
  - intros [=].
  - intros (a' & [=] & _).
Qed.

Lemma getitem_Ok `{Countable K} {V : Type} (d : gmap K V) (k : K) (v : V) :
  getitem d k = Ok v ↔ d !! k = Some v.
Proof. unfold getitem. destruct (d !! k); split; congruence. Qed.

Lemma contains_true `{Countable K} {V : Type} (d : gmap K V) (k : K) :
  contains d k = true ↔ is_Some (d !! k).
Proof. unfold contains. by rewrite bool_decide_eq_true. Qed.

Lemma dict_append_Ok `{Countable K} {V : Type} (d d' : gmap K (list V)) k v :
  dict_append d k v = Ok d' ↔ ∃ l, d !! k = Some l ∧ d' = <[k := l ++ [v]]> d.
Proof.
  unfold dict_append. rewrite bind_Ok. split.
  - intros (l & Hl%getitem_Ok & [= <-]). eauto.
  - intros (l & Hl & ->). exists l. by rewrite getitem_Ok.
Qed.

Ltac inv_bind H :=
  repeat match type of H with
  | _ ≫= _ = Ok _ =>
      let a := fresh "a" in let Ha := fresh "Hrun" in
      apply bind_Ok in H as (a & Ha & H)
  end.

(** An invariant of a loop that knows which elements were already visited. *)
Lemma foldM_prefix {A S : Type} (Q : list A → S → Prop) (f : S → A → result S)
    (l : list A) (s s' : S) :
  Q [] s →
  (∀ pre x post s1 s2, l = pre ++ x :: post → Q pre s1 → f s1 x = Ok s2 →
     Q (pre ++ [x]) s2) →
  foldM f l s = Ok s' → Q l s'.
Proof.
  intros H0 Hstep.
  enough (∀ pre post s, l = pre ++ post → Q pre s → foldM f post s = Ok s' → Q l s')
    as Hgen by (apply (Hgen [] l s); done).
  intros pre post. revert pre. induction post as [|x post IH]; intros pre s1 Hl HQ Hrun.
  - simpl in Hrun. injection Hrun as <-. by rewrite Hl, app_nil_r.
  - simpl in Hrun. apply bind_Ok in Hrun as (s2 & Hx & Hrun).
    apply (IH (pre ++ [x]) s2); [by rewrite <- app_assoc | | done].
    by eapply Hstep.
Qed.

Lemma foldM_inv {A S : Type} (P : S → Prop) (f : S → A → result S)
    (l : list A) (s s' : S) :
  P s → (∀ x s1 s2, x ∈ l → P s1 → f s1 x = Ok s2 → P s2) →
  foldM f l s = Ok s' → P s'.
Proof.
  intros H0 Hstep. apply (foldM_prefix (λ _, P)); [done|].
  intros pre x post s1 s2 -> HP Hx. eapply Hstep; [|done..].
  apply elem_of_app. right. by left.
Qed.

Lemma foldl_prefix {A S : Type} (Q : list A → S → Prop) (f : S → A → S)
    (l : list A) (s : S) :
  Q [] s →
  (∀ pre x post s1, l = pre ++ x :: post → Q pre s1 → Q (pre ++ [x]) (f s1 x)) →
  Q l (foldl f s l).
Proof.
  intros H0 Hstep.
  enough (∀ pre post s, l = pre ++ post → Q pre s → Q l (foldl f s post))
    as Hgen by (apply (Hgen [] l s); done).
  intros pre post. revert pre. induction post as [|x post IH]; intros pre s1 Hl HQ.
  - simpl. by rewrite Hl, app_nil_r.
  - simpl. apply (IH (pre ++ [x])); [by rewrite <- app_assoc |].
    by eapply Hstep.
Qed.

Lemma foldl_inv {A S : Type} (P : S → Prop) (f : S → A → S) (l : list A) (s : S) :
  P s → (∀ x s1, x ∈ l → P s1 → P (f s1 x)) → P (foldl f s l).
Proof.
  intros H0 Hstep. apply (foldl_prefix (λ _, P)); [done|].
  intros pre x post s1 -> HP. apply Hstep; [|done].
  apply elem_of_app. right. by left.
Qed.

Lemma foldM_app {A S : Type} (f : S → A → result S) (l1 l2 : list A) (s : S) :
  foldM f (l1 ++ l2) s = foldM f l1 s ≫= foldM f l2.
Proof.
  revert s. induction l1 as [|x l1 IH]; intros s; simpl; [done|].
  destruct (f s x) as [s1|]; simpl; [apply IH | done].
Qed.

Lemma run_holds_intro {X : Collaborators} (r : result (Self X * Catalog X))
    (P : Self X → Catalog X → Prop) :
  is_Ok r = true → (∀ self cat, r = Ok (self, cat) → P self cat) → run_holds r P.
Proof. destruct r as [[self cat]|e]; simpl; [auto | discriminate]. Qed.

Lemma run_get_Ok {X : Collaborators} {A : Type} (r : result (Self X * Catalog X))
    (f : Self X → Catalog X → option A) self cat :
  r = Ok (self, cat) → run_get r f = f self cat.
Proof. by intros ->. Qed.

Lemma elem_of_concat {A : Type} (x : A) (ls : list (list A)) :
  x ∈ concat ls ↔ ∃ l, x ∈ l ∧ l ∈ ls.
Proof.
  induction ls as [|l ls IH]; simpl.
  - split; [by intros ?%elem_of_nil|]. by intros (l & _ & ?%elem_of_nil).
  - rewrite elem_of_app, IH. split.
    + intros [?|(l' & ? & ?)]; [exists l|exists l']; split; try done; by constructor.
    + intros (l' & ? & [->|?]%elem_of_cons); [by left|]. right. by exists l'.
Qed.

(** Two loops over the same list that keep a relation between their states. *)
Lemma foldM_rel {A S1 S2 : Type} (R : S1 → S2 → Prop)
    (f1 : S1 → A → result S1) (f2 : S2 → A → result S2) (l : list A) s1 s2 s1' s2' :
  R s1 s2 →
  (∀ x a b a' b', x ∈ l → R a b → f1 a x = Ok a' → f2 b x = Ok b' → R a' b') →
  foldM f1 l s1 = Ok s1' → foldM f2 l s2 = Ok s2' → R s1' s2'.
Proof.
  revert s1 s2. induction l as [|x l IH]; intros s1 s2 HR Hstep; simpl.
  - by intros [= <-] [= <-].
  - intros (a & Ha & H1)%bind_Ok (b & Hb & H2)%bind_Ok.
    eapply (IH a b); [|intros; eapply Hstep; [by right|done..]|done|done].
    eapply Hstep; [by left|done..].
Qed.

(** ** The stable sort *)

Lemma sorted_by_snoc {A : Type} (le : A → A → bool) (l : list A) (x : A) :
  sorted_by le (l ++ [x]) = sort_insert le x (sorted_by le l).
Proof. unfold sorted_by. by rewrite foldl_app. Qed.

Lemma sort_insert_Permutation {A : Type} (le : A → A → bool) (x : A) (l : list A) :
  sort_insert le x l ≡ₚ x :: l.
Proof.
  induction l as [|y l IH]; simpl; [done|].
  destruct (le y x); [|done]. rewrite IH. apply Permutation_swap.
Qed.

Lemma sorted_by_Permutation {A : Type} (le : A → A → bool) (l : list A) :
  sorted_by le l ≡ₚ l.
Proof.
  induction l as [|x l IH] using rev_ind; [done|].
  rewrite sorted_by_snoc, sort_insert_Permutation, IH.
  by rewrite Permutation_cons_append.
Qed.

Lemma elem_of_sorted_by {A : Type} (le : A → A → bool) (l : list A) (x : A) :
  x ∈ sorted_by le l ↔ x ∈ l.
Proof. by rewrite sorted_by_Permutation. Qed.

Lemma length_sorted_by {A : Type} (le : A → A → bool) (l : list A) :
  length (sorted_by le l) = length l.
Proof. by rewrite sorted_by_Permutation. Qed.

Lemma sort_insert_Sorted (x : Z) (l : list Z) :
  Sorted Z.le l → Sorted Z.le (sort_insert Z.leb x l).
Proof.
  induction 1 as [|y l Hl IH Hhd]; simpl.
  - repeat constructor.
  - destruct (Z.leb_spec y x) as [Hle|Hgt].
    + constructor; [done|]. destruct Hhd as [|z l Hyz]; simpl.
      * by repeat constructor.
      * destruct (z <=? x); by constructor.
    + constructor; [by constructor|]. constructor. lia.
Qed.

Lemma sorted_Z_Sorted (l : list Z) : Sorted Z.le (sorted_Z l).
Proof.
  unfold sorted_Z. induction l as [|x l IH] using rev_ind; [constructor|].
  rewrite sorted_by_snoc. by apply sort_insert_Sorted.
Qed.
Section Connected_proofs.

Context (X : Collaborators).
Implicit Types (self : Self X) (c st : Connected X).

Lemma row_origin_mono self st st' idx row :
  (∀ j wt, weights st !! j = Some wt → weights st' !! j = Some wt) →
  row_origin self st idx row → row_origin self st' idx row.
Proof.
  intros Hw (pre & post & j & zj & m & wt & H1 & H2 & H3 & H4 & H5 & H6 & H7 & H8 & H9).
  exists pre, post, j, zj, m, wt. eauto 12.
Qed.

Lemma add_row_index_ok n e chi st wt :
  i st = Z.of_nat (length (connected_specs st)) →
  index_ok st → index_ok (add_row X n e chi st wt).
Proof.
  intros Hi (Hndk & Hks & Hrows).
  unfold index_ok, add_row. simpl.
  remember (sum wt) as d eqn:Ed. clear Ed.
  remember (default 0 (ks st !! (n, d))) as k eqn:Ek.
  assert (Hk0 : 0 ≤ k).
  { subst k. destruct (ks st !! (n, d)) as [cnt|] eqn:E; simpl; [|lia].
    apply Hks in E. lia. }
  assert (Hfresh : ndk2i st !! (n, d, k) = None).
  { destruct (ndk2i st !! (n, d, k)) as [j|] eqn:E; [|done].
    apply Hndk in E as (Hj & row & Hrow & <- & <- & Hk).
    apply Hrows in Hrow as (_ & cnt & Hcnt & Hlt).
    rewrite Hcnt in Ek. simpl in Ek. lia. }
  split_and!.
  - intros n' d' k' j.
    destruct (decide ((n, d, k) = (n', d', k'))) as [[= <- <- <-]|Hne].
    + rewrite lookup_insert_eq. intros [= <-]. split; [lia|].
      eexists. rewrite Hi, Nat2Z.id. rewrite lookup_app_r by lia.
      rewrite Nat.sub_diag. simpl. done.
    + rewrite lookup_insert_ne by done. intros Hj.
      apply Hndk in Hj as (Hj & row & Hrow & ?). split; [done|].
      exists row. split; [|done]. by apply lookup_app_l_Some.
  - intros n' d' cnt.
    destruct (decide ((n, d) = (n', d'))) as [[= <- <-]|Hne].
    + rewrite lookup_insert_eq. intros [= <-]. split; [lia|].
      intros k' Hk'. destruct (decide (k' = k)) as [->|Hkk].
      * rewrite lookup_insert_eq. eauto.
      * rewrite lookup_insert_ne by congruence.
        destruct (ks st !! (n, d)) as [cnt|] eqn:E; simpl in *; [|lia].
        apply Hks in E as [_ E]. apply E. lia.
    + rewrite lookup_insert_ne by done. intros Hcnt.
      apply Hks in Hcnt as [? Hcnt]. split; [done|]. intros k' Hk'.
      rewrite lookup_insert_ne by congruence. by apply Hcnt.
  - intros idx row.
    intros [Hrow|[Hlen Hrow]]%lookup_app_Some.
    + pose proof (Hrows _ _ Hrow) as (Hidx & cnt & Hcnt & Hlt).
      split.
      * rewrite lookup_insert_ne; [done|].
        intros Heq. rewrite <- Heq in Hidx. congruence.
      * destruct (decide ((n, d) = (col_n row, col_d row))) as [Heq|Hne].
        -- rewrite <- Heq. rewrite lookup_insert_eq. eexists. split; [done|].
           rewrite Heq, Hcnt in Ek. simpl in Ek. lia.
        -- rewrite lookup_insert_ne by done. eauto.
    + destruct (idx - length (connected_specs st))%nat as [|?] eqn:E; [|done].
      simpl in Hrow. injection Hrow as <-. simpl.
      rewrite !lookup_insert_eq. split.
      * f_equal. lia.
      * eexists. split; [done|]. lia.
Qed.

Lemma add_row_inv self G pre post zpre zj zpost wpre wt wpost n e st :
  sorted_keys X self = pre ++ (n, e) :: post →
  bucket self (n, e) = zpre ++ zj :: zpost →
  z_weights zj = wpre ++ wt :: wpost →
  G = buckets self pre ++ zpre →
  connected_inv self G st →
  connected_inv self G (add_row X n e (z_chi zj) st wt).
Proof.
  intros Hkeys Hbucket Hws HG (Hg & Hedges & Hw & Hi & Hlen & Hrows & Hidx).
  split_and!; try done.
  - simpl. rewrite length_app. simpl. lia.
  - simpl. rewrite length_app. simpl. lia.
  - simpl. rewrite !length_app. simpl. lia.
  - intros idx row [Hrow|[Hge Hrow]]%lookup_app_Some.
    + eapply row_origin_mono; [|by apply Hrows].
      intros j wt' Hj. simpl. by apply lookup_app_l_Some.
    + destruct (idx - length (connected_specs st))%nat as [|?] eqn:E; [|done].
      simpl in Hrow. injection Hrow as <-.
      exists pre, post, (length zpre), zj, (length wpre), wt. simpl.
      split_and!; try done.
      * rewrite Hbucket. by rewrite list_lookup_middle.
      * rewrite Hws. by rewrite list_lookup_middle.
      * rewrite Hg, HG, length_app. done.
      * rewrite Hw. f_equal. lia.
      * rewrite lookup_app_r by lia. replace (idx - length (weights st))%nat with 0%nat by lia.
        done.
  - by apply add_row_index_ok.
Qed.

Lemma add_graph_inv self G pre post zpre zj zpost n e st :
  sorted_keys X self = pre ++ (n, e) :: post →
  bucket self (n, e) = zpre ++ zj :: zpost →
  G = buckets self pre ++ zpre →
  connected_inv self G st →
  connected_inv self (G ++ [zj]) (add_graph X n e st zj).
Proof.
  intros Hkeys Hbucket HG Hinv.
  destruct zj as [[[[edges_ weights_] chi] es] ep]. unfold add_graph.
  assert (Hfold : connected_inv self G (foldl (add_row X n e chi) st weights_)).
  { apply (foldl_prefix (λ _, connected_inv self G)); [done|].
    intros wpre wt wpost st1 Hws Hst1.
    by eapply (add_row_inv self G pre post zpre (edges_, weights_, chi, es, ep)). }
  destruct Hfold as (Hg & Hedges & Hw & Hi & Hlen & Hrows & Hidx).
  split_and!; simpl; try done.
  - rewrite Hg, length_app. simpl. lia.
  - rewrite Hedges, fmap_app. done.
Qed.

Lemma buckets_app self k1 k2 : buckets self (k1 ++ k2) = buckets self k1 ++ buckets self k2.
Proof. unfold buckets. by rewrite fmap_app, concat_app. Qed.

Lemma buckets_singleton self ne : buckets self [ne] = bucket self ne.
Proof. unfold buckets. simpl. by rewrite app_nil_r. Qed.

Lemma connected_inv_empty self : connected_inv self [] (Connected_empty X).
Proof.
  split_and!; try done.
Qed.

(** The connected half of [_generate_disconnected] establishes its invariant
    for all the buckets. *)
Lemma build_connected_inv self c :
  build_connected X self = Ok c →
  connected_inv self (buckets self (sorted_keys X self)) c.
Proof.
  unfold build_connected.
  apply (foldM_prefix (λ pre st, connected_inv self (buckets self pre) st)).
  { apply connected_inv_empty. }
  intros pre [n e] post s1 s2 Hkeys Hs1 Hrun.
  apply bind_Ok in Hrun as (z & Hz & [= <-]). simpl.
  assert (Hb : bucket self (n, e) = z) by (unfold bucket; by rewrite Hz).
  rewrite buckets_app, buckets_singleton, Hb.
  apply (foldl_prefix (λ zpre st, connected_inv self (buckets self pre ++ zpre) st)).
  { by rewrite app_nil_r. }
  intros zpre zj zpost st1 Hzs Hst1. rewrite app_assoc.
  eapply add_graph_inv; [done| |done|done]. by rewrite Hb.
Qed.

End Connected_proofs.

(** * The connected rows of the catalog *)

Section Catalog_theorems.

Context (X : Collaborators).
Implicit Types (self : Self X) (cat : Catalog X).

Lemma Generator_Ok p self cat :
  Generator X p = Ok (self, cat) →
  ∃ self0 self1,
    init_tables X p = Ok self0 ∧ _generate_simple X self0 = Ok self1 ∧
    _generate_weights X self1 = Ok self ∧ _generate_disconnected X self = Ok cat.
Proof.
  unfold Generator. intros H. inv_bind H. injection H as <- <-. eauto 10.
Qed.

Lemma generate_disconnected_Ok self cat :
  _generate_disconnected X self = Ok cat →
  ∃ df ds,
    build_connected X self = Ok (connected cat) ∧
    build_disconnected X self (connected cat) = Ok (df, ds) ∧
    disc_formulae cat = select df (first_occurrence [] df) ∧
    disc_specs cat = select ds (first_occurrence [] df) ∧
    specs cat = connected_specs (connected cat) ++ disc_specs cat.
Proof.
  unfold _generate_disconnected. intros H.
  apply bind_Ok in H as (c & Hc & H). apply bind_Ok in H as ([df ds] & Hd & H).
  apply bind_Ok in H as (_ & _ & H). injection H as <-. simpl. eauto 10.
Qed.

Lemma Generator_connected_inv p self cat :
  Generator X p = Ok (self, cat) →
  connected_inv self (buckets self (sorted_keys X self)) (connected cat).
Proof.
  intros (self0 & self1 & _ & _ & _ & Hd)%Generator_Ok.
  apply generate_disconnected_Ok in Hd as (df & ds & Hc & _).
  by apply build_connected_inv.
Qed.

Lemma bucket_lookup self ne j (zj : zipped X) :
  bucket self ne !! j = Some zj →
  ∃ ed wd ch,
    edges_d self !! ne = Some ed ∧ ed !! j = Some (z_edges zj) ∧
    weights_d self !! ne = Some wd ∧ wd !! j = Some (z_weights zj) ∧
    chis_d self !! ne = Some ch ∧ ch !! j = Some (z_chi zj).
Proof.
  unfold bucket, zip5.
  destruct (getitem (edges_d self) ne) as [ed|] eqn:E1; simpl; [|done].
  destruct (getitem (weights_d self) ne) as [wd|] eqn:E2; simpl; [|done].
  destruct (getitem (chis_d self) ne) as [ch|] eqn:E3; simpl; [|done].
  destruct (getitem (einstrs_d self) ne) as [es|] eqn:E4; simpl; [|done].
  destruct (getitem (einpaths_d self) ne) as [ep|] eqn:E5; simpl; [|done].
  apply getitem_Ok in E1, E2, E3.
  intros Hz. destruct zj as [[[[e1 w1] c1] s1] p1].
  apply lookup_zip_with_Some in Hz as (x1 & ? & [= <- <-] & Hz & _).
  apply lookup_zip_with_Some in Hz as (x2 & ? & [= <- <-] & Hz & _).
  apply lookup_zip_with_Some in Hz as (x3 & ? & [= <- <-] & Hz & ?).
  apply lookup_zip_with_Some in Hz as (? & ? & [= <- <-] & ? & ?).
  exists ed, wd, ch. done.
Qed.

(** C10: in every connected row the column [w] is the row's own index: the
    counters [w] and [i] start at 0 and move together, the flattened
    weighting array has one weighting per connected row, at the row's
    position, and [ndk2i[(n,d,k)]] is the [w] of the row it resolves to. *)
Theorem w_is_row_index p self cat :
  Generator X p = Ok (self, cat) →
  w (connected cat) = i (connected cat) ∧
  length (weights (connected cat)) = length (connected_specs (connected cat)) ∧
  (∀ idx row, connected_specs (connected cat) !! idx = Some row →
     specs cat !! idx = Some row ∧ col_w row = Z.of_nat idx ∧
     ∃ weighting, weights (connected cat) !! idx = Some weighting ∧
                  col_d row = sum weighting) ∧
  (∀ n d k j, ndk2i (connected cat) !! (n, d, k) = Some j →
     ∃ row, specs cat !! Z.to_nat j = Some row ∧
            col_n row = n ∧ col_d row = d ∧ col_k row = k ∧ col_w row = j).
Proof.
  intros Hgen. pose proof (Generator_connected_inv _ _ _ Hgen) as Hinv.
  apply Generator_Ok in Hgen as (self0 & self1 & _ & _ & _ & Hd).
  apply generate_disconnected_Ok in Hd as (df & ds & _ & _ & _ & _ & Hspecs).
  destruct Hinv as (_ & _ & Hw & Hi & Hlen & Hrows & Hndk & _).
  split_and!; [congruence | done | |].
  - intros idx row Hrow. split; [rewrite Hspecs; by apply lookup_app_l_Some|].
    destruct (Hrows _ _ Hrow) as (? & ? & ? & ? & ? & wt & ? & ? & ? & ? & ? & ? & ? & ? & ?).
    eauto.
  - intros n d k j Hj. apply Hndk in Hj as (Hj0 & row & Hrow & Hn & Hd & Hk).
    exists row. rewrite Hspecs. split; [by apply lookup_app_l_Some|].
    split_and!; try done.
    destruct (Hrows _ _ Hrow) as (? & ? & ? & ? & ? & wt & ? & ? & ? & ? & ? & ? & ? & -> & ?).
    lia.
Qed.

(** C3, amended: in every connected row the column [g] is the position of
    the owning graph in the flattened array [edges], which runs over all
    buckets in sorted [(n,e)] order: [g] counts the graphs of the earlier
    buckets and the [j] graphs before the owning one in its own bucket, and
    [edges[g]] is the edge list at position [j] of [edges_d[(n,e)]].  The
    column [w] is the position of the row's weighting in the flattened
    array [weights].  The row belongs to entry [j] of its bucket: its
    weighting is one of [weights_d[(n,e)][j]] and its [c] is
    [chis_d[(n,e)][j]]. *)
Theorem g_is_global_graph_index p self cat :
  Generator X p = Ok (self, cat) →
  ∀ idx row, connected_specs (connected cat) !! idx = Some row →
    ∃ pre post ed j graph_edges weighting wls ws chis,
      sorted_keys X self = pre ++ (col_n row, col_e row) :: post ∧
      edges_d self !! (col_n row, col_e row) = Some ed ∧
      ed !! j = Some graph_edges ∧
      col_g row = Z.of_nat (length (buckets self pre) + j) ∧
      edges (connected cat) !! Z.to_nat (col_g row) = Some graph_edges ∧
      col_w row = Z.of_nat idx ∧
      weights (connected cat) !! Z.to_nat (col_w row) = Some weighting ∧
      col_d row = sum weighting ∧
      weights_d self !! (col_n row, col_e row) = Some wls ∧
      wls !! j = Some ws ∧ weighting ∈ ws ∧
      chis_d self !! (col_n row, col_e row) = Some chis ∧
      chis !! j = Some (col_c row).
Proof.
  intros Hgen idx row Hrow.
  destruct (Generator_connected_inv _ _ _ Hgen) as (_ & Hedges & _ & _ & _ & Hrows & _).
  destruct (Hrows _ _ Hrow)
    as (pre & post & j & zj & m & wt & Hkeys & Hj & Hm & Hd & Hc & Hp & Hg & Hw & Hwt).
  destruct (bucket_lookup _ _ _ _ Hj)
    as (ed & wd & ch & Hed & Hedj & Hwd & Hwdj & Hch & Hchj).
  exists pre, post, ed, j, (z_edges zj), wt, wd, (z_weights zj), ch.
  split_and!; try done; [| |by eapply list_elem_of_lookup_2|by rewrite Hc].
  - rewrite Hedges, Hg, Nat2Z.id, Hkeys, list_lookup_fmap.
    rewrite buckets_app, lookup_app_r by lia.
    replace (length (buckets self pre) + j - length (buckets self pre))%nat with j by lia.
    change (buckets self ((col_n row, col_e row) :: post))
      with (bucket self (col_n row, col_e row) ++ buckets self post).
    erewrite lookup_app_l_Some by done. done.
  - by rewrite Hw, Nat2Z.id.
Qed.

End Catalog_theorems.

(** The run with [dmax = 3] and the default bounds is a run to which the
    theorem about [w] applies. *)
Lemma w_is_row_index_witness :
  run_holds (Generator search_collaborators (params 3 None None None))
    (λ self cat, ∀ idx row, connected_specs (connected cat) !! idx = Some row →
       col_w row = Z.of_nat idx).
Proof.
  apply run_holds_intro; [vm_compute; reflexivity|].
  intros self cat Hrun idx row Hrow.
  by apply (w_is_row_index search_collaborators (params 3 None None None) self cat Hrun).
Defined.

(** With [dmax = 2] and [nmax = 3] the third connected row belongs to the
    only graph of bucket [(3,2)], at position 0 of that bucket, and its [g]
    is 1: [g] also counts the graph of bucket [(2,1)]. *)
Lemma g_is_not_bucket_position :
  run_holds (Generator search_collaborators (params 2 (Some 3) None None))
    (λ self cat, ¬ g_indexes_bucket self cat).
Proof.
  apply run_holds_intro; [vm_compute; reflexivity|].
  intros self cat Hrun H.
  assert (run_get (Generator search_collaborators (params 2 (Some 3) None None))
            (λ _ cat, connected_specs (connected cat) !! 2%nat)
          = Some {| col_n := 3; col_e := 2; col_d := 2; col_k := 0;
                    col_g := 1; col_w := 2; col_c := 3; col_p := 1 |}) as Hrow
    by (vm_compute; reflexivity).
  assert (run_get (Generator search_collaborators (params 2 (Some 3) None None))
            (λ self _, edges_d self !! (3, 2))
          = Some [[(0, 1); (0, 2)]]) as Hed
    by (vm_compute; reflexivity).
  rewrite (run_get_Ok _ _ _ _ Hrun) in Hrow.
  rewrite (run_get_Ok _ _ _ _ Hrun) in Hed.
  destruct (H _ _ Hrow) as (ed & Hed' & Hg).
  simpl in Hed', Hg. rewrite Hed in Hed'. injection Hed' as <-.
  simpl in Hg. lia.
Qed.

Lemma g_is_global_graph_index_witness :
  run_holds (Generator search_collaborators (params 2 (Some 3) None None))
    (λ self cat, ∀ idx row, connected_specs (connected cat) !! idx = Some row →
      ∃ graph_edges,
        edges (connected cat) !! Z.to_nat (col_g row) = Some graph_edges ∧
        col_w row = Z.of_nat idx).
Proof.
  apply run_holds_intro; [vm_compute; reflexivity|].
  intros self cat Hrun idx row Hrow.
  destruct (g_is_global_graph_index search_collaborators
              (params 2 (Some 3) None None) self cat Hrun idx row Hrow)
    as (pre & post & ed & j & graph_edges & weighting & wls & ws & chis & H).
  exists graph_edges. tauto.
Defined.

(** * The simple graph enumerator *)

Section Simple_proofs.

Context (X : Collaborators).
Implicit Types (self s : Self X) (g : Graph) (ne : Z * Z).

Lemma container_lookup {V : Type} (keys : list (Z * Z)) ne :
  container (V:=V) keys !! ne = if decide (ne ∈ keys) then Some [] else None.
Proof.
  unfold container. induction keys as [|k keys IH]; csimpl.
  - by rewrite lookup_empty.
  - destruct (decide (k = ne)) as [->|Hne].
    + rewrite lookup_insert_eq. rewrite decide_True; [done|by left].
    + rewrite lookup_insert_ne by done. rewrite IH.
      destruct (decide (ne ∈ keys)) as [Hin|Hin].
      * rewrite decide_True; [done|by right].
      * rewrite decide_False; [done|]. by intros [->|?]%elem_of_cons.
Qed.

Lemma container_lookup_Some {V : Type} (keys : list (Z * Z)) ne (l : list V) :
  container keys !! ne = Some l → l = [] ∧ ne ∈ keys.
Proof. rewrite container_lookup. case_decide; naive_solver. Qed.

(** The two outcomes of [_add_if_new]: nothing changes, or the graph is
    appended to its bucket in the five containers. *)
Lemma add_if_new_cases s g ne s' :
  _add_if_new X s g ne = Ok s' →
  ∃ gs, simple_graphs_d s !! ne = Some gs ∧
    ((s' = s ∧ (existsb (λ graph, isomorphic X g graph) gs = true ∨
                cmax s < ve X (get_edgelist g) ne.1)) ∨
     (existsb (λ graph, isomorphic X g graph) gs = false ∧
      ve X (get_edgelist g) ne.1 ≤ cmax s ∧
      ∃ ed ch es ep,
        edges_d s !! ne = Some ed ∧ chis_d s !! ne = Some ch ∧
        einstrs_d s !! ne = Some es ∧ einpaths_d s !! ne = Some ep ∧
        s' = set_graph_containers X s
               (<[ne := gs ++ [g]]> (simple_graphs_d s))
               (<[ne := ed ++ [get_edgelist g]]> (edges_d s))
               (<[ne := ch ++ [ve X (get_edgelist g) ne.1]]> (chis_d s))
               (<[ne := es ++ [(einspecs X (get_edgelist g) ne.1).1]]> (einstrs_d s))
               (<[ne := ep ++ [(einspecs X (get_edgelist g) ne.1).2]]> (einpaths_d s)))).
Proof.
  unfold _add_if_new. intros H.
  apply bind_Ok in H as (gs & Hgs%getitem_Ok & H). exists gs. split; [done|].
  destruct (existsb _ gs) eqn:Hex.
  { injection H as <-. left. auto. }
  case_bool_decide as Hchi.
  { injection H as <-. left. split; [done|]. right. lia. }
  right. split; [done|]. split; [lia|].
  apply bind_Ok in H as (sg & (gs' & Hgs' & ->)%dict_append_Ok & H).
  apply bind_Ok in H as (ed' & (ed & Hed & ->)%dict_append_Ok & H).
  apply bind_Ok in H as (ch' & (ch & Hch & ->)%dict_append_Ok & H).
  apply bind_Ok in H as (es' & (es & Hes & ->)%dict_append_Ok & H).
  apply bind_Ok in H as (ep' & (ep & Hep & ->)%dict_append_Ok & H).
  injection H as <-. rewrite Hgs in Hgs'. injection Hgs' as <-.
  exists ed, ch, es, ep. done.
Qed.

Lemma add_if_new_tables s g ne s' :
  _add_if_new X s g ne = Ok s' →
  same_tables s s' ∧ cmax s' = cmax s ∧ weights_d s' = weights_d s.
Proof.
  intros (gs & Hgs & [[-> _]|(_ & _ & ed & ch & es & ep & _ & _ & _ & _ & ->)])%add_if_new_cases;
    by repeat split.
Qed.

(** A bucket other than the one of the candidate is left as it is. *)
Lemma add_if_new_other s g ne s' ne' :
  _add_if_new X s g ne = Ok s' → ne' ≠ ne →
  simple_graphs_d s' !! ne' = simple_graphs_d s !! ne' ∧
  edges_d s' !! ne' = edges_d s !! ne'.
Proof.
  intros (gs & Hgs & [[-> _]|(_ & _ & ed & ch & es & ep & _ & _ & _ & _ & ->)])%add_if_new_cases
    Hne; [done|].
  simpl. by rewrite !lookup_insert_ne.
Qed.

(** The bucket of the candidate keeps its graphs, and gains at most the
    candidate, which is then within the bound. *)
Lemma add_if_new_bucket s g ne s' :
  _add_if_new X s g ne = Ok s' →
  ∃ gs gs', simple_graphs_d s !! ne = Some gs ∧ simple_graphs_d s' !! ne = Some gs' ∧
    (gs' = gs ∨ (gs' = gs ++ [g] ∧ ve X (get_edgelist g) ne.1 ≤ cmax s)) ∧
    (ve X (get_edgelist g) ne.1 ≤ cmax s →
       g ∈ gs' ∨ ∃ graph, graph ∈ gs' ∧ isomorphic X g graph = true).
Proof.
  intros (gs & Hgs & [[-> Hwhy]|(Hex & Hchi & ed & ch & es & ep & _ & _ & _ & _ & ->)])%add_if_new_cases.
  - exists gs, gs. split_and!; [done|done|by left|].
    intros Hchi. destruct Hwhy as [Hex|?]; [|lia].
    right. apply existsb_exists in Hex as (graph & Hin & Hiso).
    exists graph. by rewrite <- list_elem_of_In in Hin.
  - exists gs, (gs ++ [g]). simpl. rewrite lookup_insert_eq.
    split_and!; [done|done|by right|]. intros _. left. set_solver.
Qed.

Lemma pairwise_distinct_snoc gs g :
  pairwise_distinct (X:=X) gs →
  existsb (λ graph, isomorphic X g graph) gs = false →
  pairwise_distinct (X:=X) (gs ++ [g]).
Proof.
  intros Hgs Hex i j gi gj Hij Hi Hj.
  apply lookup_app_Some in Hj as [Hj|[Hlen Hj]].
  - apply lookup_app_Some in Hi as [Hi|[Hlen' _]].
    + by eapply Hgs.
    + apply lookup_lt_Some in Hj. lia.
  - destruct (j - length gs)%nat eqn:E; [|done]. simpl in Hj. injection Hj as <-.
    apply lookup_app_Some in Hi as [Hi|[Hlen' _]]; [|lia].
    destruct (isomorphic X g gi) eqn:Hiso; [|done].
    assert (existsb (λ graph, isomorphic X g graph) gs = true); [|congruence].
    apply existsb_exists. exists gi. split; [|done].
    apply list_elem_of_In. by eapply list_elem_of_lookup_2.
Qed.

Lemma add_if_new_inv s g ne s' :
  simple_inv s → vcount g = ne.1 → _add_if_new X s g ne = Ok s' → simple_inv s'.
Proof.
  intros Hinv Hv
    (gs & Hgs & [[-> _]|(Hex & Hchi & ed & ch & es & ep & Hed & Hch & _ & _ & ->)])%add_if_new_cases;
    [done|].
  destruct (Hinv _ _ Hgs) as (Hed' & Hch' & Hpw & Hall).
  rewrite Hed in Hed'. injection Hed' as ->. rewrite Hch in Hch'. injection Hch' as ->.
  intros ne' gs'. simpl.
  destruct (decide (ne = ne')) as [<-|Hne].
  - rewrite !lookup_insert_eq. intros [= <-]. split_and!.
    + by rewrite fmap_app.
    + by rewrite fmap_app.
    + by apply pairwise_distinct_snoc.
    + apply Forall_app. split; [done|]. by apply Forall_singleton.
  - rewrite !lookup_insert_ne by done. apply Hinv.
Qed.


Lemma same_tables_refl s : same_tables s s.
Proof. by repeat split. Qed.

Lemma same_tables_trans s1 s2 s3 :
  same_tables s1 s2 → same_tables s2 s3 → same_tables s1 s3.
Proof. unfold same_tables. intros H1 H2. destruct_and!. split_and!; congruence. Qed.

Lemma step_effect_refl ne Cand s : step_effect ne Cand s s.
Proof.
  split; [apply same_tables_refl|]. split_and!; try done.
  intros gs gs' H1 H2. assert (gs' = gs) as -> by congruence. split; [done|auto].
Qed.

Lemma step_effect_trans ne Cand s1 s2 s3 :
  step_effect ne Cand s1 s2 → step_effect ne Cand s2 s3 → step_effect ne Cand s1 s3.
Proof.
  intros (Ht1 & Hc1 & Hw1 & Ho1 & Hd1 & Hb1 & Hi1) (Ht2 & Hc2 & Hw2 & Ho2 & Hd2 & Hb2 & Hi2).
  split; [by eapply same_tables_trans|]. split_and!.
  - congruence.
  - congruence.
  - intros ne' Hne. destruct (Ho1 _ Hne), (Ho2 _ Hne). split; congruence.
  - by rewrite Hd2.
  - intros gs gs' Hgs Hgs'.
    assert (is_Some (simple_graphs_d s2 !! ne)) as [gs2 Hgs2] by (apply Hd1; eauto).
    destruct (Hb1 _ _ Hgs Hgs2) as [Hsub1 Hnew1].
    destruct (Hb2 _ _ Hgs2 Hgs') as [Hsub2 Hnew2].
    split; [intros x Hx; by apply Hsub2, Hsub1|].
    intros g0 Hg. destruct (Hnew2 _ Hg) as [Hin|[? ?]].
    + auto.
    + right. split; [done|]. by rewrite <- Hc1.
  - auto.
Qed.

Lemma step_effect_weaken ne (Cand Cand' : Graph → Prop) s s' :
  (∀ c, Cand c → Cand' c) → step_effect ne Cand s s' → step_effect ne Cand' s s'.
Proof.
  intros Hsub (Ht & Hc & Hw & Ho & Hd & Hb & Hi). split; [done|]. split_and!; try done.
  - intros gs gs' Hgs Hgs'. destruct (Hb _ _ Hgs Hgs') as [? Hnew]. split; [done|].
    intros g0 Hg. destruct (Hnew _ Hg) as [?|[? ?]]; auto.
  - auto.
Qed.

Lemma add_if_new_effect s c ne s' :
  _add_if_new X s c ne = Ok s' → step_effect ne (λ g, g = c) s s'.
Proof.
  intros Hrun.
  destruct (add_if_new_tables _ _ _ _ Hrun) as (Ht & Hc & Hw).
  destruct (add_if_new_bucket _ _ _ _ Hrun) as (gs & gs' & Hgs & Hgs' & Hcases & _).
  split; [done|]. split_and!; try done.
  - intros ne' Hne. by eapply add_if_new_other.
  - intros gs0 gs0'. rewrite Hgs, Hgs'. intros ? ?. simplify_eq.
    destruct Hcases as [->|[-> Hchi]]; [split; [done|auto]|].
    split; [intros x Hx; apply elem_of_app; by left|].
    intros g0 [?|Heq%list_elem_of_singleton]%elem_of_app; [auto|subst; auto].
  - intros Hv Hinv. eapply add_if_new_inv; [done| |done]. by apply Hv.
Qed.

Lemma add_if_new_represented s c ne s' :
  isomorphic X c c = true →
  _add_if_new X s c ne = Ok s' → represented ne c s'.
Proof.
  intros Hrefl Hrun Hchi.
  destruct (add_if_new_tables _ _ _ _ Hrun) as (_ & Hc & _). rewrite Hc in Hchi.
  destruct (add_if_new_bucket _ _ _ _ Hrun) as (gs & gs' & Hgs & Hgs' & _ & Hrep).
  destruct (Hrep Hchi) as [Hin|(graph & Hin & Hiso)]; eauto.
Qed.

Lemma represented_mono ne Cand c s s' :
  step_effect ne Cand s s' → represented ne c s → represented ne c s'.
Proof.
  intros (Ht & Hc & Hw & Ho & Hd & Hb & Hi) Hrep Hchi. rewrite Hc in Hchi.
  destruct (Hrep Hchi) as (gs & graph & Hgs & Hin & Hiso).
  assert (is_Some (simple_graphs_d s' !! ne)) as [gs' Hgs'] by (apply Hd; eauto).
  destruct (Hb _ _ Hgs Hgs') as [Hsub _].
  exists gs', graph. split_and!; [done|by apply Hsub|done].
Qed.

(** A loop whose iterations only offer candidates to bucket [ne]. *)
Lemma foldM_step_effect {A : Type} ne (Cand : Graph → Prop)
    (f : Self X → A → result (Self X)) (l : list A) s s' :
  (∀ x s1 s2, x ∈ l → f s1 x = Ok s2 → step_effect ne Cand s1 s2) →
  foldM f l s = Ok s' → step_effect ne Cand s s'.
Proof.
  intros Hstep. apply (foldM_inv (λ s1, step_effect ne Cand s s1)).
  - apply step_effect_refl.
  - intros x s1 s2 Hx Hs1 Hrun. eapply step_effect_trans; [done|]. by eapply Hstep.
Qed.

(** ... and every candidate of every iteration ends up represented. *)
Lemma foldM_represented {A : Type} ne (Cand : Graph → Prop) (CandOf : A → Graph → Prop)
    (f : Self X → A → result (Self X)) (l : list A) s s' :
  (∀ x s1 s2, x ∈ l → f s1 x = Ok s2 →
     step_effect ne Cand s1 s2 ∧ ∀ c, CandOf x c → represented ne c s2) →
  foldM f l s = Ok s' →
  ∀ x c, x ∈ l → CandOf x c → represented ne c s'.
Proof.
  intros Hstep Hrun.
  enough (∀ x c, x ∈ l → CandOf x c → represented ne c s') by done.
  revert Hrun.
  apply (foldM_prefix (λ pre s1, ∀ x c, x ∈ pre → CandOf x c → represented ne c s1)).
  - intros x c Hx. by apply elem_of_nil in Hx.
  - intros pre x post s1 s2 -> Hpre Hx y c Hy Hc.
    assert (x ∈ pre ++ x :: post) as Hin by (apply elem_of_app; right; by left).
    destruct (Hstep _ _ _ Hin Hx) as [Heff Hrep].
    apply elem_of_app in Hy as [Hy|Hy%list_elem_of_singleton].
    + eapply represented_mono; [done|]. by eapply Hpre.
    + subst y. by apply Hrep.
Qed.


Lemma mem_true `{EqDecision A} (x : A) (l : list A) : mem x l = true ↔ x ∈ l.
Proof. unfold mem. by rewrite bool_decide_eq_true. Qed.

(** The loop over [v] of one seed: its candidates go to bucket [(n,e)]. *)
Lemma add_vertex_step_spec n e seed_graph s s' :
  add_vertex_step X n e seed_graph s = Ok s' →
  step_effect (n, e)
    (λ c, ∃ v, v ∈ range 0 (n - 1) ∧ c = vertex_extension seed_graph v (n - 1)) s s' ∧
  (reflexive_test X → ∀ v, v ∈ range 0 (n - 1) →
     represented (n, e) (vertex_extension seed_graph v (n - 1)) s').
Proof.
  unfold add_vertex_step. intros Hrun.
  assert (Hstep : ∀ v s1 s2, v ∈ range 0 (n - 1) →
    _add_if_new X s1 (add_edges (add_vertices seed_graph 1) [(v, n - 1)]) (n, e) = Ok s2 →
    step_effect (n, e)
      (λ c, ∃ v, v ∈ range 0 (n - 1) ∧ c = vertex_extension seed_graph v (n - 1)) s1 s2).
  { intros v s1 s2 Hv Hadd. eapply step_effect_weaken; [|by eapply add_if_new_effect].
    intros c ->. by exists v. }
  split.
  - eapply foldM_step_effect; [|done]. done.
  - intros Hrefl v Hv.
    eapply (foldM_represented (n, e) _
              (λ v c, c = vertex_extension seed_graph v (n - 1))); [|done|done|done].
    intros v' s1 s2 Hv' Hadd. cbv beta zeta in Hadd. split; [by eapply Hstep|].
    intros c ->. by eapply add_if_new_represented.
Qed.

Lemma edge_filter_Ok s n edges_ new_edges :
  _edge_filter X s n edges_ = Ok new_edges →
  ∃ be, base_edges s !! n = Some be ∧
        ∀ new_edge, new_edge ∈ new_edges ↔ new_edge ∈ be ∧ new_edge ∉ edges_.
Proof.
  unfold _edge_filter. intros H. apply bind_Ok in H as (be & Hbe%getitem_Ok & [= <-]).
  exists be. split; [done|]. intros new_edge. rewrite list_elem_of_filter. tauto.
Qed.

(** The loop over the missing edges of one seed. *)
Lemma add_edge_step_spec n e (seed : Graph * list (Z * Z)) s s' :
  add_edge_step X n e seed s = Ok s' →
  ∃ be, base_edges s !! n = Some be ∧
    step_effect (n, e)
      (λ c, ∃ new_edge, new_edge ∈ be ∧ (new_edge ∉ seed.2) ∧
                        c = add_edges seed.1 [new_edge]) s s' ∧
    (reflexive_test X → ∀ new_edge, new_edge ∈ be → new_edge ∉ seed.2 →
       represented (n, e) (add_edges seed.1 [new_edge]) s').
Proof.
  unfold add_edge_step. intros Hrun.
  apply bind_Ok in Hrun as (new_edges & (be & Hbe & Hin)%edge_filter_Ok & Hrun).
  exists be. split; [done|].
  assert (Hstep : ∀ new_edge s1 s2, new_edge ∈ new_edges →
    _add_if_new X s1 (add_edges seed.1 [new_edge]) (n, e) = Ok s2 →
    step_effect (n, e)
      (λ c, ∃ new_edge, new_edge ∈ be ∧ (new_edge ∉ seed.2) ∧
                        c = add_edges seed.1 [new_edge]) s1 s2).
  { intros new_edge s1 s2 Hne Hadd.
    eapply step_effect_weaken; [|by eapply add_if_new_effect].
    intros c ->. exists new_edge. apply Hin in Hne. tauto. }
  split.
  - eapply foldM_step_effect; [|done]. done.
  - intros Hrefl new_edge Hbe' Hnot.
    eapply (foldM_represented (n, e) _
              (λ new_edge c, c = add_edges seed.1 [new_edge])); [|done| |done].
    + intros x s1 s2 Hx Hadd. cbv beta zeta in Hadd. split; [by eapply Hstep|].
      intros c ->. by eapply add_if_new_represented.
    + by apply Hin.
Qed.

(** The loop body for one [(n,e)]: only bucket [(n,e)] changes, by
    candidates grown from the buckets [(n-1,e-1)] and [(n,e-1)], and each
    such candidate ends up represented. *)
Lemma simple_step_spec n e s s' :
  simple_step X n s e = Ok s' →
  step_effect (n, e) (step_candidate n e s) s s' ∧
  (reflexive_test X → ∀ c, step_candidate n e s c → represented (n, e) c s').
Proof.
  unfold simple_step. intros Hrun.
  apply bind_Ok in Hrun as (esn1 & Hesn1%getitem_Ok & Hrun).
  apply bind_Ok in Hrun as (sa & Hvert & Hrun).
  apply bind_Ok in Hrun as (esn & Hesn%getitem_Ok & Hrun).
  (* the vertex extensions *)
  assert (Hva : step_effect (n, e) (step_candidate n e s) s sa ∧
    (reflexive_test X → ∀ c, (∃ seeds seed_graph v,
        e - 1 ∈ esn1 ∧ simple_graphs_d s !! (n - 1, e - 1) = Some seeds ∧
        seed_graph ∈ seeds ∧ v ∈ range 0 (n - 1) ∧
        c = vertex_extension seed_graph v (n - 1)) → represented (n, e) c sa)).
  { destruct (mem (e - 1) esn1) eqn:Hmem.
    - apply mem_true in Hmem.
      apply bind_Ok in Hvert as (seeds & Hseeds%getitem_Ok & Hvert).
      assert (Hstep : ∀ seed_graph s1 s2, seed_graph ∈ seeds →
        add_vertex_step X n e seed_graph s1 = Ok s2 →
        step_effect (n, e) (step_candidate n e s) s1 s2).
      { intros seed_graph s1 s2 Hseed Hadd.
        eapply step_effect_weaken; [|by eapply add_vertex_step_spec].
        intros c (v & Hv & ->). left. by exists esn1, seeds, seed_graph, v. }
      split.
      { eapply foldM_step_effect; [|exact Hvert].
        intros x s1 s2 Hx Hadd. by eapply Hstep. }
      intros Hrefl c (seeds' & seed_graph & v & _ & Hseeds' & Hseed & Hv & ->).
      rewrite Hseeds in Hseeds'. injection Hseeds' as <-.
      eapply (foldM_represented (n, e) _
                (λ seed_graph c, ∃ v, v ∈ range 0 (n - 1) ∧
                                      c = vertex_extension seed_graph v (n - 1)));
        [|done|done|by exists v].
      intros seed' s1 s2 Hseed' Hadd. cbv beta in Hadd. split; [by eapply Hstep|].
      intros c (v' & Hv' & ->). by eapply add_vertex_step_spec.
    - injection Hvert as <-. split; [apply step_effect_refl|].
      intros _ c (seeds & seed_graph & v & Hin & _).
      apply mem_true in Hin. congruence. }
  destruct Hva as [Heffa Hrepa].
  pose proof Heffa as (Ht & _ & _ & Ho & _).
  destruct Ht as (_ & _ & _ & _ & _ & Hesbyn & _ & Hbase).
  assert (Hne : (n, e - 1) ≠ (n, e)) by (intros [=]; lia).
  destruct (Ho _ Hne) as [Hsg Hed].
  rewrite Hesbyn in Hesn.
  (* the edge extensions *)
  assert (Hvb : step_effect (n, e) (step_candidate n e s) sa s' ∧
    (reflexive_test X → ∀ c, (∃ seeds seed_edges be seed new_edge,
        e - 1 ∈ esn ∧ simple_graphs_d s !! (n, e - 1) = Some seeds ∧
        edges_d s !! (n, e - 1) = Some seed_edges ∧ base_edges s !! n = Some be ∧
        seed ∈ zip seeds seed_edges ∧ new_edge ∈ be ∧ (new_edge ∉ seed.2) ∧
        c = add_edges seed.1 [new_edge]) → represented (n, e) c s')).
  { destruct (mem (e - 1) esn) eqn:Hmem.
    - apply mem_true in Hmem.
      apply bind_Ok in Hrun as (seeds & Hseeds%getitem_Ok & Hrun).
      apply bind_Ok in Hrun as (seed_edges & Hseed_edges%getitem_Ok & Hrun).
      rewrite Hsg in Hseeds. rewrite Hed in Hseed_edges.
      assert (Hstep : ∀ seed s1 s2, seed ∈ zip seeds seed_edges →
        step_effect (n, e) (step_candidate n e s) sa s1 →
        add_edge_step X n e seed s1 = Ok s2 →
        step_effect (n, e) (step_candidate n e s) s1 s2 ∧
        (reflexive_test X → ∀ be new_edge, base_edges s !! n = Some be →
           new_edge ∈ be → new_edge ∉ seed.2 →
           represented (n, e) (add_edges seed.1 [new_edge]) s2)).
      { intros seed s1 s2 Hseed Hs1 Hadd.
        apply add_edge_step_spec in Hadd as (be & Hbe & Heff & Hrep).
        destruct Hs1 as ((_ & _ & _ & _ & _ & _ & _ & Hbase1) & _).
        rewrite Hbase1, Hbase in Hbe.
        split.
        - eapply step_effect_weaken; [|done].
          intros c (new_edge & ? & ? & ->). right.
          by exists esn, seeds, seed_edges, be, seed, new_edge.
        - intros Hrefl be' new_edge Hbe'. rewrite Hbe in Hbe'. injection Hbe' as <-.
          by apply Hrep. }
      assert (Hall : ∀ pre s1, pre `prefix_of` zip seeds seed_edges →
         foldM (λ self seed, add_edge_step X n e seed self) pre sa = Ok s1 →
         step_effect (n, e) (step_candidate n e s) sa s1).
      { intros pre s1 [post Hpre].
        apply (foldM_inv (λ s1, step_effect (n, e) (step_candidate n e s) sa s1)).
        - apply step_effect_refl.
        - intros x s2 s3 Hx Hs2 Hadd. cbv beta in Hadd.
          eapply step_effect_trans; [done|].
          eapply Hstep; [|done|done]. rewrite Hpre. apply elem_of_app. by left. }
      split; [by eapply Hall|].
      intros Hrefl c (seeds' & seed_edges' & be & seed & new_edge & _ & Hs1 & Hs2 &
                      Hbe & Hseed & Hin & Hnot & ->).
      rewrite Hseeds in Hs1. injection Hs1 as <-.
      rewrite Hseed_edges in Hs2. injection Hs2 as <-.
      revert Hrun.
      enough (Hgen : ∀ l s1 s2, l `suffix_of` zip seeds seed_edges →
        step_effect (n, e) (step_candidate n e s) sa s1 →
        foldM (λ self seed, add_edge_step X n e seed self) l s1 = Ok s2 →
        step_effect (n, e) (step_candidate n e s) s1 s2 ∧
        (seed ∈ l → represented (n, e) (add_edges seed.1 [new_edge]) s2)).
      { intros Hrun. eapply Hgen; [done|apply step_effect_refl|done|done]. }
      induction l as [|x l IH]; intros s1 s2 Hsuf Hs1 Hfold.
      { injection Hfold as <-. split; [apply step_effect_refl|].
        intros Hnil. by apply elem_of_nil in Hnil. }
      simpl in Hfold. apply bind_Ok in Hfold as (s1' & Hx & Hfold).
      assert (x ∈ zip seeds seed_edges) as Hxin.
      { destruct Hsuf as [k ->]. apply elem_of_app. right. by left. }
      destruct (Hstep _ _ _ Hxin Hs1 Hx) as [Heff1 Hrep1].
      destruct (IH s1' s2) as [Heff2 Hrep2]; [|by eapply step_effect_trans|done|].
      { by eapply suffix_cons_l. }
      split; [by eapply step_effect_trans|].
      intros [->|Hl]%elem_of_cons; [|by apply Hrep2].
      eapply represented_mono; [done|]. by eapply Hrep1.
    - injection Hrun as <-. split; [apply step_effect_refl|].
      intros _ c (? & ? & ? & ? & ? & Hin & _).
      apply mem_true in Hin. congruence. }
  destruct Hvb as [Heffb Hrepb].
  split; [by eapply step_effect_trans|].
  intros Hrefl c [(esn1' & seeds & seed_graph & v & He1 & Hin & Hrest)|
                  (esn' & seeds & seed_edges & be & seed & new_edge & He & Hin & Hrest)].
  - rewrite Hesn1 in He1. injection He1 as <-.
    eapply represented_mono; [done|]. apply Hrepa; [done|].
    by exists seeds, seed_graph, v.
  - rewrite Hesn in He. injection He as <-.
    apply Hrepb; [done|]. by exists seeds, seed_edges, be, seed, new_edge.
Qed.


Lemma step_candidate_vcount n e s c :
  simple_inv s → step_candidate n e s c → vcount c = n.
Proof.
  intros Hinv [(esn1 & seeds & seed_graph & v & _ & _ & Hseeds & Hseed & _ & ->)|
               (esn & seeds & seed_edges & be & seed & new_edge & _ & _ & Hseeds & _ & _ &
                Hseed & _ & _ & ->)].
  - destruct (Hinv _ _ Hseeds) as (_ & _ & _ & Hall).
    rewrite list.Forall_forall in Hall. destruct (Hall _ Hseed) as [_ Hv]. simpl in *. lia.
  - destruct (Hinv _ _ Hseeds) as (_ & _ & _ & Hall).
    rewrite list.Forall_forall in Hall. destruct seed as [seed_graph seed_edges'].
    apply elem_of_zip_l in Hseed. destruct (Hall _ Hseed) as [_ Hv]. done.
Qed.

Lemma simple_step_inv n e s s' :
  simple_inv s → simple_step X n s e = Ok s' →
  simple_inv s' ∧ same_tables s s' ∧ cmax s' = cmax s ∧ weights_d s' = weights_d s.
Proof.
  intros Hinv [(Ht & Hc & Hw & _ & _ & _ & Hi) _]%simple_step_spec.
  split_and!; try done. apply Hi; [|done].
  intros c Hc'. by eapply step_candidate_vcount.
Qed.

Lemma set_base_edges_inv s be : simple_inv s → simple_inv (set_base_edges X s be).
Proof. done. Qed.

(** [_generate_simple] keeps the invariant of the graph containers. *)
Lemma generate_simple_inv s s' :
  simple_inv s → _generate_simple X s = Ok s' →
  simple_inv s' ∧ cmax s' = cmax s ∧ weights_d s' = weights_d s ∧
  dmax s' = dmax s ∧ nmax s' = nmax s ∧ ns s' = ns s ∧ esbyn s' = esbyn s ∧
  dmaxs s' = dmaxs s.
Proof.
  unfold _generate_simple. intros Hinv Hrun.
  apply bind_Ok in Hrun as (s1 & Hfull & Hrun).
  pose proof (add_if_new_inv _ Full2 (2, 1) _ (set_base_edges_inv s _ Hinv) eq_refl Hfull)
    as Hinv1.
  destruct (add_if_new_tables _ _ _ _ Hfull) as (Ht1 & Hc1 & Hw1). simpl in Hc1, Hw1.
  set (P := λ s2 : Self X, simple_inv s2 ∧ same_tables s1 s2 ∧ cmax s2 = cmax s1 ∧
                           weights_d s2 = weights_d s1).
  assert (P s') as (Hinv' & Ht' & Hc' & Hw').
  { revert Hrun. apply (foldM_inv P).
    { split; [done|]. split; [apply same_tables_refl|done]. }
    intros n s2 s3 _ HP Hn. apply bind_Ok in Hn as (es & _ & Hn).
    revert Hn. apply (foldM_inv P); [done|].
    intros e s4 s5 _ (Hinv4 & Ht4 & Hc4 & Hw4) He.
    destruct (simple_step_inv _ _ _ _ Hinv4 He) as (? & ? & ? & ?).
    split_and!; [done|by eapply same_tables_trans|congruence|congruence]. }
  pose proof (same_tables_trans _ _ _ Ht1 Ht') as (? & ? & ? & ? & ? & ? & ? & ?).
  split_and!; try done; congruence.
Qed.

End Simple_proofs.

(** * The tables of [__init__] and the weighting phase *)

Section Init_proofs.

Context (X : Collaborators).
Implicit Types (self s : Self X) (ne : Z * Z).

Lemma mapM_r_Ok {A B : Type} (f : A → result B) (l : list A) (ys : list B) :
  mapM_r f l = Ok ys → Forall2 (λ x y, f x = Ok y) l ys.
Proof.
  revert ys. induction l as [|x l IH]; intros ys; simpl.
  - intros [= <-]. constructor.
  - intros H. apply bind_Ok in H as (y & Hy & H).
    apply bind_Ok in H as (ys' & Hys & [= <-]). constructor; auto.
Qed.

Lemma elem_of_range (a b x : Z) : x ∈ range a b ↔ a ≤ x < b.
Proof. unfold range. rewrite elem_of_seqZ. lia. Qed.

Lemma init_tables_spec p s :
  init_tables X p = Ok s →
  cmax s = p_cmax p ∧ dmax s = p_dmax p ∧ nmax s = p_nmax p ∧ emax s = p_emax p ∧
  ns s = range 2 (p_nmax p + 1) ∧ base_edges s = ∅ ∧
  (∀ n es, esbyn s !! n = Some es →
     n ∈ ns s ∧ es = range (n - 1) (Z.min (p_emax p) (Z.quot (n * (n - 1)) 2) + 1)) ∧
  ∃ keys,
    (∀ n e, (n, e) ∈ keys ↔ ∃ es, n ∈ ns s ∧ esbyn s !! n = Some es ∧ e ∈ es) ∧
    simple_graphs_d s = container keys ∧ edges_d s = container keys ∧
    chis_d s = container keys ∧ einstrs_d s = container keys ∧
    einpaths_d s = container keys ∧ weights_d s = container keys ∧
    dmaxs s = list_to_map ((λ ne, (ne, p_dmax p)) <$> keys).
Proof.
  unfold init_tables. intros H.
  apply bind_Ok in H as (esl & Hesl%mapM_r_Ok & H).
  apply bind_Ok in H as (keys & Hkeys%mapM_r_Ok & [= <-]). simpl.
  split_and!; try done.
  - intros n es Hn. apply elem_of_list_to_map_2 in Hn.
    apply list_elem_of_lookup in Hn as [idx Hidx].
    destruct (Forall2_lookup_r _ _ _ _ _ Hesl Hidx) as (n' & Hn' & Hf).
    apply bind_Ok in Hf as (em & Hem%getitem_Ok & [= -> <-]).
    split; [by eapply list_elem_of_lookup_2|].
    apply elem_of_list_to_map_2, list_elem_of_fmap in Hem as (n'' & [= <- ->] & _).
    done.
  - exists (concat keys). split_and!; try done.
    intros n e. rewrite elem_of_concat. split.
    + intros (l & Hin & Hl). apply list_elem_of_lookup in Hl as [idx Hidx].
      destruct (Forall2_lookup_r _ _ _ _ _ Hkeys Hidx) as (n' & Hn' & Hf).
      apply bind_Ok in Hf as (es & Hes%getitem_Ok & [= <-]).
      apply list_elem_of_fmap in Hin as (e' & [= -> ->] & He).
      exists es. split_and!; [by eapply list_elem_of_lookup_2|done|done].
    + intros (es & Hn & Hes & He).
      apply list_elem_of_lookup in Hn as [idx Hidx].
      destruct (Forall2_lookup_l _ _ _ _ _ Hkeys Hidx) as (l & Hl & Hf).
      apply bind_Ok in Hf as (es' & Hes'%getitem_Ok & [= <-]).
      rewrite Hes in Hes'. injection Hes' as <-.
      exists ((λ e, (n, e)) <$> es). split; [by apply list_elem_of_fmap_2|].
      by eapply list_elem_of_lookup_2.
Qed.

Lemma init_tables_inv p s : init_tables X p = Ok s → simple_inv s.
Proof.
  intros (_ & _ & _ & _ & _ & _ & _ & keys & _ & Hsg & Hed & Hch & _)%init_tables_spec.
  intros ne gs. rewrite Hsg, Hed, Hch.
  intros [-> Hin]%container_lookup_Some.
  rewrite !container_lookup, !decide_True by done.
  split_and!; done.
Qed.

Lemma same_graphs_refl s : same_graphs s s.
Proof. by repeat split. Qed.

(** [_generate_weights] only writes [weights_d]. *)
Lemma generate_weights_same s s' :
  _generate_weights X s = Ok s' →
  same_graphs s s' ∧ dmax s' = dmax s ∧ nmax s' = nmax s ∧ ns s' = ns s ∧
  esbyn s' = esbyn s ∧ dmaxs s' = dmaxs s.
Proof.
  unfold _generate_weights. intros H.
  apply bind_Ok in H as (dm & _ & H). apply bind_Ok in H as (wd & _ & H).
  apply bind_Ok in H as (parts & _ & H).
  set (P := λ s1 : Self X, same_graphs s s1 ∧ dmax s1 = dmax s ∧ nmax s1 = nmax s ∧
                           ns s1 = ns s ∧ esbyn s1 = esbyn s ∧ dmaxs s1 = dmaxs s).
  revert H. apply (foldM_inv P).
  { by repeat split. }
  intros n s1 s2 _ HP Hn. apply bind_Ok in Hn as (es & _ & Hn).
  revert Hn. apply (foldM_inv P); [done|].
  intros e s3 s4 _ HP3 He. apply bind_Ok in He as (graphs & _ & He).
  revert He. apply (foldM_inv P); [done|].
  intros graph s5 s6 _ HP5 Hg.
  apply bind_Ok in Hg as (dm' & _ & Hg). apply bind_Ok in Hg as (ws & _ & Hg).
  apply bind_Ok in Hg as (wd' & _ & [= <-]). done.
Qed.

Lemma simple_inv_same s s' : same_graphs s s' → simple_inv s → simple_inv s'.
Proof.
  intros (Hsg & Hed & Hch & _ & _ & Hc) Hinv ne gs. rewrite Hsg, Hed, Hch, Hc.
  apply Hinv.
Qed.

(** The state that [Generator] returns satisfies the invariant of the
    graph containers, with the bound [cmax] of the parameters. *)
Lemma Generator_simple_inv p self cat :
  Generator X p = Ok (self, cat) → simple_inv self ∧ cmax self = p_cmax p.
Proof.
  intros (s0 & s1 & Hinit & Hsimple & Hweights & _)%Generator_Ok.
  pose proof (init_tables_inv _ _ Hinit) as Hinv0.
  pose proof (init_tables_spec _ _ Hinit) as (Hc0 & _).
  destruct (generate_simple_inv X _ _ Hinv0 Hsimple) as (Hinv1 & Hc1 & _).
  destruct (generate_weights_same _ _ Hweights) as (Hsame & _).
  split; [by eapply simple_inv_same|].
  destruct Hsame as (_ & _ & _ & _ & _ & Hc). congruence.
Qed.

End Init_proofs.

(** * The accepted simple graphs *)

Section Accepted_graphs.

Context (X : Collaborators).

(** C4: in every bucket no two accepted graphs are isomorphic, every
    stored complexity is the complexity of its graph and is at most [cmax],
    and a candidate whose complexity exceeds [cmax] leaves every container
    as it was. *)
Theorem accepted_graphs_distinct_and_bounded p self cat :
  (∀ a b, isomorphic X a b = isomorphic X b a) →
  Generator X p = Ok (self, cat) →
  (∀ ne gs, simple_graphs_d self !! ne = Some gs →
     (∀ i j gi gj, i ≠ j → gs !! i = Some gi → gs !! j = Some gj →
        isomorphic X gi gj = false) ∧
     ∃ chis, chis_d self !! ne = Some chis ∧
             chis = (λ g, ve X (get_edgelist g) ne.1) <$> gs ∧
             Forall (λ chi, chi ≤ p_cmax p) chis) ∧
  (∀ s new_graph ne s',
     ve X (get_edgelist new_graph) ne.1 > cmax s →
     _add_if_new X s new_graph ne = Ok s' → s' = s).
Proof.
  intros Hsym Hgen. split.
  - destruct (Generator_simple_inv X _ _ _ Hgen) as [Hinv Hc].
    intros ne gs Hgs. destruct (Hinv _ _ Hgs) as (_ & Hch & Hpw & Hall). split.
    + intros i j gi gj Hij Hi Hj.
      destruct (decide (i < j)%nat) as [Hlt|Hge].
      * rewrite Hsym. by eapply Hpw.
      * eapply Hpw; [|done|done]. lia.
    + eexists. split; [done|]. split; [done|].
      rewrite Forall_fmap. apply list.Forall_forall. intros g0 Hg0.
      rewrite list.Forall_forall in Hall. destruct (Hall _ Hg0) as [Hle _].
      simpl. by rewrite <- Hc.
  - intros s new_graph ne s' Hchi Hadd.
    apply add_if_new_cases in Hadd as (gs & _ & [[-> _]|(_ & Hle & _)]); [done|lia].
Qed.

End Accepted_graphs.

Lemma labelled_equal_sym a b : labelled_equal a b = labelled_equal b a.
Proof.
  unfold labelled_equal. apply bool_decide_ext.
  split; intros [? ?]; split; congruence.
Qed.

Lemma accepted_graphs_distinct_and_bounded_witness :
  run_holds (Generator labelled_collaborators (params 3 None None None))
    (λ self cat, ∀ ne gs, simple_graphs_d self !! ne = Some gs →
       ∀ i j gi gj, i ≠ j → gs !! i = Some gi → gs !! j = Some gj →
         labelled_equal gi gj = false).
Proof.
  apply run_holds_intro; [vm_compute; reflexivity|].
  intros self cat Hrun ne gs Hgs.
  destruct (accepted_graphs_distinct_and_bounded labelled_collaborators
              (params 3 None None None) self cat labelled_equal_sym Hrun) as [Hall _].
  destruct (Hall ne gs Hgs) as [Hdistinct _]. exact Hdistinct.
Defined.

(** * Raising the complexity bound *)

Section Monotone_in_cmax.

Context (X : Collaborators).
Implicit Types (s : Self X) (g : Graph) (ne : Z * Z).

Lemma pairwise_distinct_tail g gs :
  pairwise_distinct (X:=X) (g :: gs) → pairwise_distinct (X:=X) gs.
Proof. intros H i j gi gj Hij Hi Hj. apply (H (S i) (S j)); [lia|done|done]. Qed.

(** A list of pairwise distinct graphs is not longer than a list that has
    an isomorphic graph for each of them. *)
Lemma covered_length gs1 gs2 :
  (∀ a b, isomorphic X a b = true → isomorphic X b a = true) →
  (∀ a b c, isomorphic X a b = true → isomorphic X b c = true →
     isomorphic X a c = true) →
  pairwise_distinct (X:=X) gs1 → covered (X:=X) gs1 gs2 →
  (length gs1 ≤ length gs2)%nat.
Proof.
  intros Hsym Htrans. revert gs2.
  induction gs1 as [|g gs1 IH]; intros gs2 Hpw Hcov; simpl; [lia|].
  destruct (Hcov g) as (p & Hp & Hgp); [by left|].
  apply list_elem_of_split in Hp as (l1 & l2 & ->).
  rewrite length_app. simpl.
  enough (length gs1 ≤ length (l1 ++ l2))%nat by (rewrite length_app in *; lia).
  apply IH; [by eapply pairwise_distinct_tail|].
  intros g1 Hg1. destruct (Hcov g1) as (q & Hq & Hg1q); [by right|].
  exists q. split; [|done].
  apply elem_of_app in Hq as [Hq|[->|Hq]%elem_of_cons];
    [apply elem_of_app; by left | | apply elem_of_app; by right].
  exfalso.
  apply list_elem_of_lookup in Hg1 as [idx Hidx].
  assert (isomorphic X g1 g = false) as Hfalse.
  { apply (Hpw 0%nat (S idx)); [lia|done|done]. }
  assert (isomorphic X g1 g = true); [|congruence].
  eapply Htrans; [done|]. by apply Hsym.
Qed.

Lemma combinations2_lookup {A : Type} (l : list A) (a b : A) :
  (a, b) ∈ combinations2 l ↔
  ∃ i j, (i < j)%nat ∧ l !! i = Some a ∧ l !! j = Some b.
Proof.
  induction l as [|x l IH]; simpl.
  - split; [by intros ?%elem_of_nil|]. by intros (i & j & _ & ? & _).
  - rewrite elem_of_app, IH, list_elem_of_fmap. split.
    + intros [(y & [= -> ->] & Hy)|(i & j & Hij & Hi & Hj)].
      * apply list_elem_of_lookup in Hy as [j Hj]. exists 0%nat, (S j).
        split; [lia|done].
      * exists (S i), (S j). split; [lia|done].
    + intros (i & j & Hij & Hi & Hj). destruct j as [|j]; [lia|]. simpl in Hj.
      destruct i as [|i]; simpl in Hi.
      * injection Hi as ->. left. exists b. split; [done|].
        by eapply list_elem_of_lookup_2.
      * right. exists i, j. split; [lia|done].
Qed.

Lemma elem_of_base_edges (n a b : Z) :
  (a, b) ∈ combinations2 (range 0 n) ↔ 0 ≤ a ∧ a < b < n.
Proof.
  rewrite combinations2_lookup. unfold range. split.
  - intros (i & j & Hij & Hi & Hj).
    apply lookup_seqZ in Hi, Hj. lia.
  - intros Hab. exists (Z.to_nat a), (Z.to_nat b). split; [lia|].
    rewrite !lookup_seqZ. lia.
Qed.

Lemma elem_of_zip_fmap {A B : Type} (f : A → B) (l : list A) (x : A * B) :
  x ∈ zip l (f <$> l) ↔ x.1 ∈ l ∧ x.2 = f x.1.
Proof.
  destruct x as [a b]. simpl. rewrite elem_of_lookup_zip_with. split.
  - intros (i & a' & b' & [= -> ->] & Ha & Hb).
    rewrite list_lookup_fmap, Ha in Hb. injection Hb as <-.
    split; [by eapply list_elem_of_lookup_2|done].
  - intros [Ha ->]. apply list_elem_of_lookup in Ha as [i Hi].
    exists i, a, (f a). split; [done|]. split; [done|].
    by rewrite list_lookup_fmap, Hi.
Qed.

Lemma vertex_extension_well_formed seed v :
  well_formed seed → 0 ≤ v < vcount seed →
  well_formed (vertex_extension seed v (vcount seed)).
Proof.
  intros [Hnd Hb] Hv. split; simpl.
  - apply list.NoDup_app. split_and!; [done| |apply NoDup_singleton].
    intros [a b] Hab [= -> ->]%list_elem_of_singleton. apply Hb in Hab. lia.
  - intros a b [Hab|[= -> ->]%list_elem_of_singleton]%elem_of_app.
    + apply Hb in Hab. lia.
    + lia.
Qed.

Lemma add_edge_well_formed seed a b :
  well_formed seed → 0 ≤ a ∧ a < b < vcount seed → (a, b) ∉ get_edgelist seed →
  well_formed (add_edges seed [(a, b)]).
Proof.
  intros [Hnd Hb] Hab Hnew. split; simpl.
  - apply list.NoDup_app. split_and!; [done| |apply NoDup_singleton].
    intros x Hx ->%list_elem_of_singleton. done.
  - intros a' b' [H|[= -> ->]%list_elem_of_singleton]%elem_of_app; [by apply Hb|done].
Qed.

(** The candidates of a step are well formed when the stored graphs are. *)
Lemma step_candidate_well_formed n e s c :
  simple_inv s → well_buckets s →
  (∀ n' be, base_edges s !! n' = Some be → be = combinations2 (range 0 n')) →
  step_candidate n e s c → well_formed c.
Proof.
  intros Hinv Hwell Hbase
    [(esn1 & seeds & seed & v & _ & _ & Hseeds & Hseed & Hv & ->)|
     (esn & seeds & seed_edges & be & seed & new_edge &
      _ & _ & Hseeds & Hedges & Hbe & Hseed & Hnew & Hnotin & ->)].
  - destruct (Hinv _ _ Hseeds) as (_ & _ & _ & Hall).
    rewrite list.Forall_forall in Hall. destruct (Hall _ Hseed) as [_ Hvc].
    simpl in Hvc. pose proof (Hwell _ _ Hseeds) as Hw.
    rewrite list.Forall_forall in Hw. apply elem_of_range in Hv.
    rewrite <- Hvc. apply vertex_extension_well_formed; [by apply Hw|lia].
  - destruct (Hinv _ _ Hseeds) as (Hed & _ & _ & Hall). rewrite Hed in Hedges.
    injection Hedges as <-. apply elem_of_zip_fmap in Hseed as [Hseed Hseed2].
    rewrite list.Forall_forall in Hall. destruct (Hall _ Hseed) as [_ Hvc].
    simpl in Hvc. pose proof (Hwell _ _ Hseeds) as Hw.
    rewrite list.Forall_forall in Hw.
    apply Hbase in Hbe as ->. destruct new_edge as [a b].
    apply elem_of_base_edges in Hnew. rewrite Hseed2 in Hnotin.
    apply add_edge_well_formed; [by apply Hw|lia|done].
Qed.

Lemma step_effect_well ne (Cand : Graph → Prop) s s' :
  step_effect ne Cand s s' → (∀ c, Cand c → well_formed c) →
  well_buckets s → well_buckets s'.
Proof.
  intros (_ & _ & _ & Hother & Hdom & Hgrow & _) Hcand Hwell ne' gs' Hgs'.
  destruct (decide (ne' = ne)) as [->|Hne].
  - destruct (proj1 Hdom (mk_is_Some _ _ Hgs')) as [gs Hgs].
    destruct (Hgrow _ _ Hgs Hgs') as [_ Hin].
    apply list.Forall_forall. intros graph [Hold|[Hc _]]%Hin.
    + pose proof (Hwell _ _ Hgs) as Hall. rewrite list.Forall_forall in Hall.
      by apply Hall.
    + by apply Hcand.
  - destruct (Hother _ Hne) as [Hsame _]. rewrite Hsame in Hgs'. by eapply Hwell.
Qed.

(** A candidate of the first run has an isomorphic candidate in the second. *)
Lemma step_candidate_transfer n e s1 s2 c1 :
  isomorphism_laws (X:=X) → covers s1 s2 → step_candidate n e s1 c1 →
  ∃ c2, step_candidate n e s2 c2 ∧ isomorphic X c1 c2 = true.
Proof.
  intros (Hrefl & Hsym & Htrans & Hvertex & Hedge & Hchi)
         (Hns & Hes & Hbe & Hc & Hinv1 & Hinv2 & Hwell1 & Hwell2 & Hbase & Hdom & Hcov).
  intros [(esn1 & seeds & seed_graph & v & Hesn1 & He & Hseeds & Hseed & Hv & ->)|
          (esn & seeds & seed_edges & be & seed & new_edge & Hesn & He & Hseeds &
           Hseed_edges & Hbase_n & Hseed & Hnew & Hnot & ->)].
  - assert (is_Some (simple_graphs_d s2 !! (n - 1, e - 1))) as [seeds2 Hseeds2]
      by (apply Hdom; eauto).
    destruct (Hcov _ _ _ Hseeds Hseeds2 _ Hseed) as (seed2 & Hseed2 & Hiso).
    destruct (Hinv1 _ _ Hseeds) as (_ & _ & _ & Hall1).
    destruct (Hinv2 _ _ Hseeds2) as (_ & _ & _ & Hall2).
    rewrite list.Forall_forall in Hall1, Hall2.
    destruct (Hall1 _ Hseed) as [_ Hv1]. destruct (Hall2 _ Hseed2) as [_ Hv2].
    pose proof (Hwell1 _ _ Hseeds) as Hw1. pose proof (Hwell2 _ _ Hseeds2) as Hw2.
    rewrite list.Forall_forall in Hw1, Hw2.
    simpl in Hv1, Hv2. apply elem_of_range in Hv.
    destruct (Hvertex seed_graph seed2 v (Hw1 _ Hseed) (Hw2 _ Hseed2) Hiso)
      as (v' & Hv' & Hiso'); [lia|lia|].
    rewrite Hv1, Hv2 in Hiso'.
    exists (vertex_extension seed2 v' (n - 1)). split; [|done].
    left. exists esn1, seeds2, seed2, v'. rewrite <- Hes.
    split_and!; try done. apply elem_of_range. lia.
  - assert (is_Some (simple_graphs_d s2 !! (n, e - 1))) as [seeds2 Hseeds2]
      by (apply Hdom; eauto).
    destruct (Hinv1 _ _ Hseeds) as (Hed1 & _ & _ & Hall1).
    destruct (Hinv2 _ _ Hseeds2) as (Hed2 & _ & _ & Hall2).
    rewrite Hseed_edges in Hed1. injection Hed1 as ->.
    apply elem_of_zip_fmap in Hseed as [Hseed Hseed2].
    destruct seed as [seed_graph seed_edges]. simpl in *. subst seed_edges.
    destruct new_edge as [a b].
    destruct (Hcov _ _ _ Hseeds Hseeds2 _ Hseed) as (seed2 & Hseed2 & Hiso).
    rewrite list.Forall_forall in Hall1, Hall2.
    destruct (Hall1 _ Hseed) as [_ Hv1]. destruct (Hall2 _ Hseed2) as [_ Hv2].
    pose proof (Hwell1 _ _ Hseeds) as Hw1. pose proof (Hwell2 _ _ Hseeds2) as Hw2.
    rewrite list.Forall_forall in Hw1, Hw2.
    simpl in Hv1, Hv2.
    rewrite (Hbase _ _ Hbase_n) in Hnew. apply elem_of_base_edges in Hnew.
    destruct (Hedge seed_graph seed2 a b (Hw1 _ Hseed) (Hw2 _ Hseed2) Hiso)
      as (a' & b' & Hab' & Hnot' & Hiso'); [lia|lia|done|].
    exists (add_edges seed2 [(a', b')]). split; [|done].
    right. exists esn, seeds2, (get_edgelist <$> seeds2), be, (seed2, get_edgelist seed2), (a', b').
    rewrite <- Hes, <- Hbe. split_and!; try done.
    + by apply elem_of_zip_fmap.
    + rewrite (Hbase _ _ Hbase_n). apply elem_of_base_edges. lia.
Qed.


(** Two pieces of the two runs that offer candidates to the same bucket
    keep the relation [covers], when every candidate of the first has an
    isomorphic candidate of the second that ends up represented. *)
Lemma covers_effect ne (Cand1 Cand2 : Graph → Prop) s1 s2 s1' s2' :
  isomorphism_laws (X:=X) → covers s1 s2 →
  step_effect ne Cand1 s1 s1' → step_effect ne Cand2 s2 s2' →
  (∀ c, Cand1 c → vcount c = ne.1 ∧ well_formed c) →
  (∀ c, Cand2 c → vcount c = ne.1 ∧ well_formed c) →
  (∀ c1, Cand1 c1 →
     ∃ c2, Cand2 c2 ∧ isomorphic X c1 c2 = true ∧ represented ne c2 s2') →
  covers s1' s2'.
Proof.
  intros (Hrefl & Hsym & Htrans & Hvertex & Hedge & Hchi)
         (Hns & Hes & Hbe & Hc & Hinv1 & Hinv2 & Hwell1 & Hwell2 & Hbase & Hdom & Hcov)
         Heff1 Heff2 Hv1 Hv2 Hcand.
  pose proof (step_effect_well _ _ _ _ Heff1 (λ c Hc', proj2 (Hv1 c Hc')) Hwell1) as Hwell1'.
  pose proof (step_effect_well _ _ _ _ Heff2 (λ c Hc', proj2 (Hv2 c Hc')) Hwell2) as Hwell2'.
  destruct Heff1 as (Ht1 & Hc1 & _ & Ho1 & Hd1 & Hb1 & Hi1).
  destruct Heff2 as (Ht2 & Hc2 & _ & Ho2 & Hd2 & Hb2 & Hi2).
  destruct Ht1 as (_ & _ & _ & Hns1 & _ & Hes1 & _ & Hbe1).
  destruct Ht2 as (_ & _ & _ & Hns2 & _ & Hes2 & _ & Hbe2).
  split_and!; try congruence; try lia; try done.
  - apply Hi1; [|done]. intros c Hc'. by destruct (Hv1 c Hc').
  - apply Hi2; [|done]. intros c Hc'. by destruct (Hv2 c Hc').
  - intros n be. rewrite Hbe1. apply Hbase.
  - intros ne'. destruct (decide (ne' = ne)) as [->|Hne].
    + by rewrite Hd1, Hd2.
    + destruct (Ho1 _ Hne) as [-> _]. destruct (Ho2 _ Hne) as [-> _]. apply Hdom.
  - intros ne' gs1' gs2'. destruct (decide (ne' = ne)) as [->|Hne].
    + intros Hgs1' Hgs2'.
      assert (is_Some (simple_graphs_d s1 !! ne)) as [gs1 Hgs1] by (apply Hd1; eauto).
      assert (is_Some (simple_graphs_d s2 !! ne)) as [gs2 Hgs2] by (apply Hd2; eauto).
      destruct (Hb1 _ _ Hgs1 Hgs1') as [_ Hnew1].
      destruct (Hb2 _ _ Hgs2 Hgs2') as [Hsub2 _].
      intros g1 Hg1. destruct (Hnew1 _ Hg1) as [Hold|[Hc1' Hle]].
      * destruct (Hcov _ _ _ Hgs1 Hgs2 _ Hold) as (g2 & Hg2 & Hiso).
        exists g2. split; [by apply Hsub2|done].
      * destruct (Hcand _ Hc1') as (c2 & Hc2' & Hiso & Hrep).
        destruct (Hv1 _ Hc1') as [Hvc1 Hw1]. destruct (Hv2 _ Hc2') as [Hvc2 Hw2].
        destruct Hrep as (gs & graph & Hgs & Hgraph & Hiso2).
        { pose proof (Hchi _ _ Hw1 Hw2 Hiso ltac:(congruence)) as Hsame.
          rewrite Hvc1, Hvc2 in Hsame. rewrite <- Hsame. lia. }
        rewrite Hgs2' in Hgs. injection Hgs as <-.
        exists graph. split; [done|]. by eapply Htrans.
    + destruct (Ho1 _ Hne) as [-> _]. destruct (Ho2 _ Hne) as [-> _]. apply Hcov.
Qed.

Lemma covers_simple_step n e s1 s2 s1' s2' :
  isomorphism_laws (X:=X) → covers s1 s2 →
  simple_step X n s1 e = Ok s1' → simple_step X n s2 e = Ok s2' →
  covers s1' s2'.
Proof.
  intros Hlaws Hcov [Heff1 _]%simple_step_spec [Heff2 Hrep2]%simple_step_spec.
  pose proof Hcov as (_ & _ & Hbe & _ & Hinv1 & Hinv2 & Hwell1 & Hwell2 & Hbase & _).
  eapply (covers_effect (n, e)); try done.
  - intros c Hc. split; [exact (step_candidate_vcount _ n e s1 c Hinv1 Hc)|].
    exact (step_candidate_well_formed n e s1 c Hinv1 Hwell1 Hbase Hc).
  - intros c Hc. split; [exact (step_candidate_vcount _ n e s2 c Hinv2 Hc)|].
    apply (step_candidate_well_formed n e s2 c Hinv2 Hwell2); [|done].
    intros n' be. rewrite <- Hbe. apply Hbase.
  - intros c1 Hc1.
    destruct (step_candidate_transfer _ _ _ _ _ Hlaws Hcov Hc1) as (c2 & Hc2 & Hiso).
    exists c2. split_and!; [done|done|]. apply Hrep2; [exact (proj1 Hlaws)|done].
Qed.

Lemma covers_add_if_new c ne s1 s2 s1' s2' :
  isomorphism_laws (X:=X) → covers s1 s2 → vcount c = ne.1 → well_formed c →
  _add_if_new X s1 c ne = Ok s1' → _add_if_new X s2 c ne = Ok s2' →
  covers s1' s2'.
Proof.
  intros Hlaws Hcov Hv Hw Hadd1 Hadd2.
  eapply (covers_effect ne); try done.
  - by eapply add_if_new_effect.
  - by eapply add_if_new_effect.
  - by intros ? ->.
  - by intros ? ->.
  - intros c1 ->. exists c. split_and!; [done|apply (proj1 Hlaws)|].
    eapply add_if_new_represented; [apply (proj1 Hlaws)|done].
Qed.

Lemma covers_generate_simple s1 s2 s1' s2' :
  isomorphism_laws (X:=X) →
  covers (set_base_edges X s1 (list_to_map ((λ n, (n, combinations2 (range 0 n))) <$> ns s1)))
         (set_base_edges X s2 (list_to_map ((λ n, (n, combinations2 (range 0 n))) <$> ns s2))) →
  _generate_simple X s1 = Ok s1' → _generate_simple X s2 = Ok s2' →
  covers s1' s2'.
Proof.
  unfold _generate_simple. intros Hlaws Hcov.
  intros (a & Ha & H1)%bind_Ok (b & Hb & H2)%bind_Ok.
  assert (well_formed Full2) as Hfull.
  { split; simpl; [apply NoDup_singleton|].
    intros a0 b0 [= -> ->]%list_elem_of_singleton. lia. }
  pose proof (covers_add_if_new Full2 (2, 1) _ _ _ _ Hlaws Hcov eq_refl Hfull Ha Hb) as Hab.
  assert (list.tail (ns a) = list.tail (ns b)) as Htl.
  { destruct Hab as (-> & _). done. }
  rewrite Htl in H1.
  eapply (foldM_rel covers); [exact Hab| |exact H1|exact H2].
  intros n a1 b1 a2 b2 _ Hab1 (es1 & Hes1%getitem_Ok & Hn1)%bind_Ok
                               (es2 & Hes2%getitem_Ok & Hn2)%bind_Ok.
  assert (es1 = es2) as ->.
  { destruct Hab1 as (_ & Hes & _). rewrite Hes in Hes1. congruence. }
  eapply (foldM_rel covers); [exact Hab1| |exact Hn1|exact Hn2].
  intros e a3 b3 a4 b4 _ Hab3 He1 He2. by eapply covers_simple_step.
Qed.

Lemma init_tables_with_cmax p1 p2 s1 :
  p_dmax p1 = p_dmax p2 → p_nmax p1 = p_nmax p2 → p_emax p1 = p_emax p2 →
  init_tables X p1 = Ok s1 →
  init_tables X p2 = Ok (with_cmax s1 (p_cmax p2)).
Proof.
  destruct p1 as [d1 n1 e1 c1], p2 as [d2 n2 e2 c2]. simpl. intros -> -> ->.
  unfold init_tables. simpl. intros H.
  apply bind_Ok in H as (esl & Hesl & H). rewrite Hesl. simpl.
  apply bind_Ok in H as (keys & Hkeys & H). rewrite Hkeys. simpl.
  by injection H as <-.
Qed.

Lemma covers_init p1 p2 s1 s2 :
  p_dmax p1 = p_dmax p2 → p_nmax p1 = p_nmax p2 → p_emax p1 = p_emax p2 →
  p_cmax p1 ≤ p_cmax p2 →
  init_tables X p1 = Ok s1 → init_tables X p2 = Ok s2 →
  covers (set_base_edges X s1 (list_to_map ((λ n, (n, combinations2 (range 0 n))) <$> ns s1)))
         (set_base_edges X s2 (list_to_map ((λ n, (n, combinations2 (range 0 n))) <$> ns s2))).
Proof.
  intros Hd Hn He Hc Hs1 Hs2.
  pose proof (init_tables_with_cmax _ _ _ Hd Hn He Hs1) as Hs2'.
  rewrite Hs2 in Hs2'. injection Hs2' as ->.
  pose proof (init_tables_inv X _ _ Hs1) as Hinv1.
  pose proof (init_tables_inv X _ _ Hs2) as Hinv2.
  pose proof (init_tables_spec X _ _ Hs1) as (Hc1 & _ & _ & _ & _ & _ & _ & keys & _ & Hsg & _).
  assert (∀ c, well_buckets (set_base_edges X (with_cmax s1 c)
            (list_to_map ((λ n, (n, combinations2 (range 0 n))) <$> ns s1)))) as Hwell.
  { intros c ne gs Hgs. simpl in Hgs. rewrite Hsg in Hgs.
    apply container_lookup_Some in Hgs as [-> _]. constructor. }
  split_and!; try done.
  - simpl. lia.
  - intros ne gs Hgs. simpl in Hgs. rewrite Hsg in Hgs.
    apply container_lookup_Some in Hgs as [-> _]. constructor.
  - intros n be Hbe. simpl in Hbe.
    apply elem_of_list_to_map_2, list_elem_of_fmap in Hbe as (n' & [= -> ->] & _). done.
  - intros ne gs1 gs2 Hgs1 _. simpl in Hgs1. rewrite Hsg in Hgs1.
    apply container_lookup_Some in Hgs1 as [-> _].
    intros g1 Hg1. by apply elem_of_nil in Hg1.
Qed.

(** C9: raising [cmax] and nothing else never makes a bucket of accepted
    graphs smaller, for collaborators that satisfy [isomorphism_laws], as
    graph isomorphism and a complexity that is a graph invariant do. *)
Theorem raising_cmax_keeps_buckets p1 p2 self1 cat1 self2 cat2 :
  isomorphism_laws (X:=X) →
  p_dmax p1 = p_dmax p2 → p_nmax p1 = p_nmax p2 → p_emax p1 = p_emax p2 →
  p_cmax p1 ≤ p_cmax p2 →
  Generator X p1 = Ok (self1, cat1) → Generator X p2 = Ok (self2, cat2) →
  ∀ ne gs1, simple_graphs_d self1 !! ne = Some gs1 →
    ∃ gs2, simple_graphs_d self2 !! ne = Some gs2 ∧ (length gs1 ≤ length gs2)%nat.
Proof.
  intros Hlaws Hd Hn He Hc
    (a0 & a1 & Ha0 & Ha1 & Haw & _)%Generator_Ok
    (b0 & b1 & Hb0 & Hb1 & Hbw & _)%Generator_Ok ne gs1 Hgs1.
  pose proof (covers_init _ _ _ _ Hd Hn He Hc Ha0 Hb0) as Hcov0.
  pose proof (covers_generate_simple _ _ _ _ Hlaws Hcov0 Ha1 Hb1)
    as (_ & _ & _ & _ & Hinv1 & _ & _ & _ & _ & Hdom & Hcov).
  destruct (generate_weights_same X _ _ Haw) as ((Hsg1 & _) & _).
  destruct (generate_weights_same X _ _ Hbw) as ((Hsg2 & _) & _).
  rewrite Hsg1 in Hgs1. rewrite Hsg2.
  assert (is_Some (simple_graphs_d b1 !! ne)) as [gs2 Hgs2] by (apply Hdom; eauto).
  exists gs2. split; [done|].
  destruct Hlaws as (_ & Hsym & Htrans & _).
  apply covered_length; [done|done| |by eapply Hcov].
  by destruct (Hinv1 _ _ Hgs1) as (_ & _ & Hpw & _).
Qed.

End Monotone_in_cmax.

Lemma labelled_equal_true a b :
  labelled_equal a b = true ↔
  vcount a = vcount b ∧ sorted_pairs (get_edgelist a) = sorted_pairs (get_edgelist b).
Proof. unfold labelled_equal. by rewrite bool_decide_eq_true. Qed.

(** The labelled collaborators satisfy the laws. *)
Lemma labelled_laws : isomorphism_laws (X:=labelled_collaborators).
Proof.
  unfold isomorphism_laws. simpl. split_and!.
  - intros g0. by apply labelled_equal_true.
  - intros a b [? ?]%labelled_equal_true. by apply labelled_equal_true.
  - intros a b c [? ?]%labelled_equal_true [? ?]%labelled_equal_true.
    apply labelled_equal_true. split; congruence.
  - intros g0 g' v _ _ [Hv Hs]%labelled_equal_true _ Hrange. exists v.
    split; [lia|]. apply labelled_equal_true. simpl. split; [lia|].
    unfold sorted_pairs in *. rewrite !sorted_by_snoc. by rewrite Hs, Hv.
  - intros g0 g' a b _ _ [Hv Hs]%labelled_equal_true _ Hrange Hnot. exists a, b.
    split; [lia|]. split.
    + intros Hin. apply Hnot.
      apply (elem_of_sorted_by pair_leb). unfold sorted_pairs in Hs. rewrite Hs.
      by apply elem_of_sorted_by.
    + apply labelled_equal_true. simpl. split; [done|].
      unfold sorted_pairs in *. rewrite !sorted_by_snoc. by rewrite Hs.
  - intros g0 g' _ _ _ Hv. unfold vertex_score. done.
Qed.

Lemma raising_cmax_keeps_buckets_witness :
  run_holds (Generator labelled_collaborators (params 3 None None (Some 2)))
    (λ self1 _,
       run_holds (Generator labelled_collaborators (params 3 None None (Some 3)))
         (λ self2 _, ∀ ne gs1, simple_graphs_d self1 !! ne = Some gs1 →
            ∃ gs2, simple_graphs_d self2 !! ne = Some gs2 ∧
                   (length gs1 ≤ length gs2)%nat)).
Proof.
  apply run_holds_intro; [vm_compute; reflexivity|]. intros self1 cat1 Hrun1.
  apply run_holds_intro; [vm_compute; reflexivity|]. intros self2 cat2 Hrun2.
  apply (raising_cmax_keeps_buckets labelled_collaborators
           (params 3 None None (Some 2)) (params 3 None None (Some 3))
           self1 cat1 self2 cat2 labelled_laws);
    [reflexivity | reflexivity | reflexivity | simpl; lia | exact Hrun1 | exact Hrun2].
Defined.


(** * The weighting assigner *)

Section Weights_proofs.

Context (X : Collaborators).
Implicit Types (s : Self X) (g graph : Graph) (ne : Z * Z).

Lemma add_weighting_ok e dm graph ws d part :
  e ≤ d ≤ dm → part ∈ int_partition_ordered X d e →
  weightings_ok (X:=X) e dm graph ws →
  weightings_ok (X:=X) e dm graph (add_weighting X graph ws part).
Proof.
  intros Hd Hpart [Hin Hpw]. unfold add_weighting.
  destruct (existsb _ ws) eqn:Hex; [done|]. split.
  - intros wt [Hwt|Hwt%list_elem_of_singleton]%elem_of_app; [auto|].
    subst wt. eauto.
  - intros a b wa wb Hab Ha Hb.
    apply lookup_app_Some in Hb as [Hb|[Hlen Hb]].
    + apply lookup_app_Some in Ha as [Ha|[Hlen' _]]; [by eapply Hpw|].
      apply lookup_lt_Some in Hb. lia.
    + destruct (b - length ws)%nat eqn:E; [|done]. simpl in Hb. injection Hb as <-.
      apply lookup_app_Some in Ha as [Ha|[Hlen' _]]; [|lia].
      destruct (isomorphic_vf2 X graph wa part) eqn:Hiso; [|done].
      assert (existsb (λ weighting, isomorphic_vf2 X graph weighting part) ws = true);
        [|congruence].
      apply existsb_exists. exists wa. split; [|done].
      apply list_elem_of_In. by eapply list_elem_of_lookup_2.
Qed.

Lemma graph_weightings_ok parts e dm graph ws :
  (∀ d e' ps, parts !! (d, e') = Some ps → ps = int_partition_ordered X d e') →
  graph_weightings X parts e dm graph = Ok ws →
  weightings_ok (X:=X) e dm graph ws.
Proof.
  intros Hparts. unfold graph_weightings.
  apply (foldM_inv (weightings_ok (X:=X) e dm graph)).
  - split; [by intros ? ?%elem_of_nil|]. intros a b wa wb _ Ha. by rewrite lookup_nil in Ha.
  - intros d ws1 ws2 Hd%elem_of_range Hws1 Hrun.
    apply bind_Ok in Hrun as (ps & Hps%getitem_Ok & [= <-]).
    apply Hparts in Hps. subst ps.
    apply (foldl_inv (weightings_ok (X:=X) e dm graph)); [done|].
    intros part ws3 Hpart Hws3. eapply add_weighting_ok; [|done|done]. lia.
Qed.

Lemma build_parts_ok s parts :
  build_parts X s = Ok parts →
  ∀ d e ps, parts !! (d, e) = Some ps → ps = int_partition_ordered X d e.
Proof.
  unfold build_parts.
  set (P := λ parts : gmap (Z * Z) (list (list Z)),
         ∀ d e ps, parts !! (d, e) = Some ps → ps = int_partition_ordered X d e).
  apply (foldM_inv P).
  { intros d e ps. by rewrite lookup_empty. }
  intros n parts1 parts2 _ HP1 Hn. apply bind_Ok in Hn as (es & _ & Hn).
  revert Hn. apply (foldM_inv P); [done|].
  intros e parts3 parts4 _ HP3 He. apply bind_Ok in He as (dm & _ & [= <-]).
  apply (foldl_inv P); [done|].
  intros d parts5 _ HP5. destruct (contains parts5 (d, e)); [done|].
  intros d' e' ps. destruct (decide ((d, e) = (d', e'))) as [[= <- <-]|Hne].
  - rewrite lookup_insert_eq. by intros [= <-].
  - rewrite lookup_insert_ne by done. apply HP5.
Qed.


Lemma tail_range (a b : Z) : list.tail (range a b) = range (a + 1) b.
Proof.
  unfold range. destruct (decide (0 < b - a)) as [Hpos|Hneg].
  - rewrite seqZ_cons by done. simpl. f_equal; lia.
  - rewrite !seqZ_nil by lia. done.
Qed.

Lemma NoDup_range (a b : Z) : NoDup (range a b).
Proof. apply NoDup_seqZ. Qed.

Lemma elem_of_visited s0 npre n e :
  (n, e) ∈ visited s0 npre ↔
  n ∈ npre ∧ ∃ es, esbyn s0 !! n = Some es ∧ e ∈ es.
Proof.
  unfold visited. rewrite list_elem_of_bind. split.
  - intros (n' & Hin & Hn'). apply list_elem_of_fmap in Hin as (e' & [= -> ->] & He).
    split; [done|]. destruct (esbyn s0 !! n') as [es|]; simpl in He; [eauto|].
    by apply elem_of_nil in He.
  - intros (Hn & es & Hes & He). exists n. split; [|done].
    rewrite Hes. simpl. by apply list_elem_of_fmap_2.
Qed.

Lemma visited_snoc s0 npre n es :
  esbyn s0 !! n = Some es →
  visited s0 (npre ++ [n]) = visited s0 npre ++ ((λ e, (n, e)) <$> es).
Proof.
  intros Hes. unfold visited. rewrite bind_app. f_equal. simpl.
  by rewrite Hes, app_nil_r.
Qed.

(** The body of the loop over the graphs of bucket [(n,e)]. *)
Lemma weights_graph_step s0 dm parts vis n e gpre graph s s' :
  (∀ d e' ps, parts !! (d, e') = Some ps → ps = int_partition_ordered X d e') →
  (∀ ne v, dmaxs s0 !! ne = Some v → v = dm) →
  (n, e) ∉ vis →
  weights_inv s0 dm vis (Some (n, e)) gpre s →
  (dm' ← getitem (dmaxs s) (n, e);
   weightings ← graph_weightings X parts e dm' graph;
   wd ← dict_append (weights_d s) (n, e) weightings;
   Ok (set_weights_d X s wd)) = Ok s' →
  weights_inv s0 dm vis (Some (n, e)) (gpre ++ [graph]) s'.
Proof.
  intros Hparts Hdm Hnot (Hsg & Hes & Hdms & Hns & Ha & Hb & Hc) Hrun.
  apply bind_Ok in Hrun as (dm' & Hdm'%getitem_Ok & Hrun).
  apply bind_Ok in Hrun as (ws & Hws & Hrun).
  apply bind_Ok in Hrun as (wd & (wls & Hwls & ->)%dict_append_Ok & [= <-]).
  rewrite Hdms in Hdm'. apply Hdm in Hdm'. subst dm'.
  apply graph_weightings_ok in Hws; [|done].
  split_and!; simpl; try done.
  - intros ne Hne Hcur. rewrite lookup_insert_ne by congruence. by apply Ha.
  - intros ne wls' Hne. rewrite lookup_insert_ne by congruence. by apply Hb.
  - intros ne wls' [= <-]. rewrite lookup_insert_eq. intros [= <-].
    apply Forall2_app; [by eapply Hc|]. by constructor.
Qed.

(** The body of the loop over [e]: the whole bucket [(n,e)]. *)
Lemma weights_bucket_step s0 dm parts vis n e s s' :
  (∀ d e' ps, parts !! (d, e') = Some ps → ps = int_partition_ordered X d e') →
  (∀ ne v, dmaxs s0 !! ne = Some v → v = dm) →
  (∀ wls, weights_d s0 !! (n, e) = Some wls → wls = []) →
  (n, e) ∉ vis →
  weights_inv s0 dm vis None [] s →
  (graphs ← getitem (simple_graphs_d s) (n, e);
   foldM (λ self graph,
     dm' ← getitem (dmaxs self) (n, e);
     weightings ← graph_weightings X parts e dm' graph;
     wd ← dict_append (weights_d self) (n, e) weightings;
     Ok (set_weights_d X self wd)) graphs s) = Ok s' →
  weights_inv s0 dm (vis ++ [(n, e)]) None [] s'.
Proof.
  intros Hparts Hdm Hempty Hnot Hinv Hrun.
  apply bind_Ok in Hrun as (graphs & Hgraphs%getitem_Ok & Hrun).
  assert (Hstart : weights_inv s0 dm vis (Some (n, e)) [] s).
  { destruct Hinv as (Hsg & Hes & Hdms & Hns & Ha & Hb & Hc).
    split_and!; try done.
    - intros ne Hne _. by apply Ha.
    - intros ne wls [= <-] Hwls. rewrite Ha in Hwls by done.
      apply Hempty in Hwls as ->. constructor. }
  assert (Hend : weights_inv s0 dm vis (Some (n, e)) graphs s').
  { revert Hrun.
    apply (foldM_prefix (λ gpre s1, weights_inv s0 dm vis (Some (n, e)) gpre s1));
      [done|].
    intros gpre graph gpost s1 s2 _ Hs1 Hstep. by eapply weights_graph_step. }
  destruct Hinv as (Hsg0 & _).
  destruct Hend as (Hsg & Hes & Hdms & Hns & Ha & Hb & Hc).
  split_and!; try done.
  - intros ne Hne _. apply Ha.
    + intros Hin. apply Hne, elem_of_app. by left.
    + intros [= <-]. apply Hne, elem_of_app. right. by left.
  - intros ne wls [Hin|Hin%list_elem_of_singleton]%elem_of_app Hwls; [by eapply Hb|].
    subst ne. exists graphs. split; [by rewrite <- Hsg0|]. by eapply Hc.
Qed.

(** The three nested loops of [_generate_weights]. *)
Lemma weights_loops s0 dm parts s' :
  (∀ d e' ps, parts !! (d, e') = Some ps → ps = int_partition_ordered X d e') →
  (∀ ne v, dmaxs s0 !! ne = Some v → v = dm) →
  (∀ n es, esbyn s0 !! n = Some es → NoDup es) →
  NoDup (list.tail (ns s0)) →
  (∀ n e wls, n ∈ list.tail (ns s0) → weights_d s0 !! (n, e) = Some wls → wls = []) →
  foldM (λ self n,
    es ← getitem (esbyn self) n;
    foldM (λ self e,
      graphs ← getitem (simple_graphs_d self) (n, e);
      foldM (λ self graph,
        dm' ← getitem (dmaxs self) (n, e);
        weightings ← graph_weightings X parts e dm' graph;
        wd ← dict_append (weights_d self) (n, e) weightings;
        Ok (set_weights_d X self wd)) graphs self) es self) (list.tail (ns s0)) s0 = Ok s' →
  weights_inv s0 dm (visited s0 (list.tail (ns s0))) None [] s'.
Proof.
  intros Hparts Hdm Hnodup_es Hnodup_ns Hempty.
  apply (foldM_prefix (λ npre s1, weights_inv s0 dm (visited s0 npre) None [] s1)).
  { split_and!; try done. intros ne wls Hin. by apply elem_of_nil in Hin. }
  intros npre n npost s1 s2 Hns Hs1 Hrun.
  apply bind_Ok in Hrun as (es & Hes%getitem_Ok & Hrun).
  assert (esbyn s0 !! n = Some es) as Hes0.
  { destruct Hs1 as (_ & <- & _). done. }
  rewrite (visited_snoc _ _ _ _ Hes0).
  assert (n ∉ npre) as Hn.
  { rewrite Hns in Hnodup_ns. apply list.NoDup_app in Hnodup_ns as (_ & Hdisj & _).
    intros Hin. apply (Hdisj _ Hin). by left. }
  assert (n ∈ list.tail (ns s0)) as Hn_in.
  { rewrite Hns. apply elem_of_app. right. by left. }
  revert Hrun.
  apply (foldM_prefix (λ epre s3,
           weights_inv s0 dm (visited s0 npre ++ ((λ e, (n, e)) <$> epre)) None [] s3)).
  { by rewrite app_nil_r. }
  intros epre e epost s3 s4 Hes_split Hs3 Hrun.
  rewrite fmap_app, app_assoc. simpl.
  eapply weights_bucket_step; [done|done| | |done|done].
  - intros wls. by apply Hempty.
  - intros [Hin|Hin]%elem_of_app.
    + apply elem_of_visited in Hin as [? _]. done.
    + apply list_elem_of_fmap in Hin as (e' & [= <-] & He').
      apply Hnodup_es in Hes0. rewrite Hes_split in Hes0.
      apply list.NoDup_app in Hes0 as (_ & Hdisj & _). apply (Hdisj _ He'). by left.
Qed.


(** The weighting containers that [Generator] returns. *)
Lemma Generator_weights_inv p self cat :
  Generator X p = Ok (self, cat) →
  ∃ s0 vis,
    weights_inv s0 (p_dmax p) vis None [] self ∧
    ((2, 1) ∉ vis) ∧
    weights_d s0 !! (2, 1) = Some [(λ d, [d]) <$> range 1 (p_dmax p + 1)] ∧
    (∀ ne wls, ne ≠ (2, 1) → weights_d s0 !! ne = Some wls → wls = []) ∧
    (∀ n e, (n, e) ∈ vis → 3 ≤ n ≤ p_nmax p ∧ n - 1 ≤ e) ∧
    2 ≤ p_nmax p.
Proof.
  intros (a0 & a1 & Hinit & Hsimple & Hweights & _)%Generator_Ok.
  pose proof (init_tables_inv X _ _ Hinit) as Hinv0.
  pose proof (init_tables_spec X _ _ Hinit)
    as (_ & _ & _ & _ & Hns0 & _ & Hes0 & keys & Hkeys & _ & _ & _ & _ & _ & Hw0 & Hdm0).
  destruct (generate_simple_inv X _ _ Hinv0 Hsimple)
    as (_ & _ & Hw1 & _ & _ & Hns1 & Hes1 & Hdm1).
  unfold _generate_weights in Hweights.
  apply bind_Ok in Hweights as (dm & Hdm%getitem_Ok & Hweights).
  apply bind_Ok in Hweights as (wd & (l & Hl & ->)%dict_append_Ok & Hweights).
  apply bind_Ok in Hweights as (parts & Hparts & Hweights).
  assert (Hdmax : ∀ ne v, dmaxs a1 !! ne = Some v → v = p_dmax p).
  { intros ne v. rewrite Hdm1, Hdm0. intros Hv.
    apply elem_of_list_to_map_2, list_elem_of_fmap in Hv as (ne' & [= -> ->] & _). done. }
  apply Hdmax in Hdm. subst dm.
  rewrite Hw1, Hw0 in Hl. apply container_lookup_Some in Hl as [-> H21].
  set (s0 := set_weights_d X a1 _) in *.
  exists s0, (visited s0 (list.tail (ns s0))).
  assert (Htail : ∀ n, n ∈ list.tail (ns s0) → 3 ≤ n ≤ p_nmax p).
  { intros n. simpl. rewrite Hns1, Hns0, tail_range. intros ?%elem_of_range. lia. }
  assert (Hothers : ∀ ne wls, ne ≠ (2, 1) → weights_d s0 !! ne = Some wls → wls = []).
  { intros ne wls Hne. simpl. rewrite lookup_insert_ne by done. rewrite Hw1, Hw0.
    by intros [-> _]%container_lookup_Some. }
  split_and!.
  - eapply weights_loops; [by eapply build_parts_ok|done| | | |done].
    + intros n es. simpl. rewrite Hes1. intros [_ ->]%Hes0. apply NoDup_range.
    + simpl. rewrite Hns1, Hns0, tail_range. apply NoDup_range.
    + intros n e wls Hn. apply Hothers. intros [= -> ->]. apply Htail in Hn. lia.
  - intros [Hin _]%elem_of_visited. apply Htail in Hin. lia.
  - simpl. by rewrite lookup_insert_eq.
  - done.
  - intros n e (Hn & es & Hes & He)%elem_of_visited. split; [by apply Htail|].
    simpl in Hes. rewrite Hes1 in Hes. apply Hes0 in Hes as [_ ->].
    apply elem_of_range in He. lia.
  - apply Hkeys in H21 as (es & Hn & _). rewrite Hns0 in Hn.
    apply elem_of_range in Hn. lia.
Qed.

(** The shape of the accepted weightings, and the bounds of their key. *)
Lemma weightings_shape p self cat n e wls ws wt :
  ordered_partition_contract (X:=X) →
  Generator X p = Ok (self, cat) →
  weights_d self !! (n, e) = Some wls → ws ∈ wls → wt ∈ ws →
  Z.of_nat (length wt) = e ∧ (∀ x, x ∈ wt → 1 ≤ x) ∧ e ≤ sum wt ≤ p_dmax p ∧
  2 ≤ n ≤ p_nmax p ∧ n - 1 ≤ e.
Proof.
  intros Hcontract Hgen Hwls Hws Hwt.
  destruct (Generator_weights_inv _ _ _ Hgen)
    as (s0 & vis & (Hsg & _ & _ & _ & Ha & Hb & _) & Hnot & H21 & Hothers & Hvis & Hnmax).
  destruct (decide ((n, e) ∈ vis)) as [Hin|Hin].
  - destruct (Hb _ _ Hin Hwls) as (graphs & _ & Hall).
    apply list_elem_of_lookup in Hws as [j Hj].
    destruct (Forall2_lookup_r _ _ _ _ _ Hall Hj) as (graph & _ & [Hparts _]).
    destruct (Hparts _ Hwt) as (d & Hd & Hpart). simpl in *.
    destruct (Hcontract _ _ _ Hpart) as (Hlen & Hpos & Hsum).
    destruct (Hvis _ _ Hin). split_and!; try done; lia.
  - rewrite Ha in Hwls by done.
    destruct (decide ((n, e) = (2, 1))) as [[= -> ->]|Hne].
    + rewrite H21 in Hwls. injection Hwls as <-.
      apply list_elem_of_singleton in Hws. subst ws.
      apply list_elem_of_fmap in Hwt as (d & -> & Hd%elem_of_range).
      simpl. split_and!; try done; try lia.
      intros x Hx%list_elem_of_singleton. lia.
    + apply Hothers in Hwls; [|done]. subst wls. by apply elem_of_nil in Hws.
Qed.


(** C5: every accepted weighting of a graph with [e] edges has [e]
    entries, all at least 1, and its sum is between [e] and [dmax]; the
    list of weightings at position [j] of a bucket belongs to the graph at
    position [j], and no two of its weightings are edge-colour isomorphic on
    that graph; bucket [(2,1)] has the one list [(1,), ..., (dmax,)],
    whatever the isomorphism test says. *)
Theorem weightings_well_formed p self cat :
  ordered_partition_contract (X:=X) →
  (∀ graph c1 c2, isomorphic_vf2 X graph c1 c2 = isomorphic_vf2 X graph c2 c1) →
  Generator X p = Ok (self, cat) →
  (∀ n e wls ws wt, weights_d self !! (n, e) = Some wls → ws ∈ wls → wt ∈ ws →
     Z.of_nat (length wt) = e ∧ (∀ x, x ∈ wt → 1 ≤ x) ∧ e ≤ sum wt ≤ p_dmax p) ∧
  (∀ n e wls j ws, (n, e) ≠ (2, 1) → weights_d self !! (n, e) = Some wls →
     wls !! j = Some ws →
     ∃ graphs graph, simple_graphs_d self !! (n, e) = Some graphs ∧
       graphs !! j = Some graph ∧
       ∀ a b wa wb, a ≠ b → ws !! a = Some wa → ws !! b = Some wb →
         isomorphic_vf2 X graph wa wb = false) ∧
  weights_d self !! (2, 1) = Some [(λ d, [d]) <$> range 1 (p_dmax p + 1)].
Proof.
  intros Hcontract Hsym Hgen.
  destruct (Generator_weights_inv _ _ _ Hgen)
    as (s0 & vis & (Hsg & _ & _ & _ & Ha & Hb & _) & Hnot & H21 & Hothers & _).
  assert (Hw21 : weights_d self !! (2, 1) = Some [(λ d, [d]) <$> range 1 (p_dmax p + 1)]).
  { rewrite Ha; done. }
  split_and!; [| |done].
  - intros n e wls ws wt Hwls Hws Hwt.
    destruct (weightings_shape _ _ _ _ _ _ _ _ Hcontract Hgen Hwls Hws Hwt)
      as (? & ? & ? & _). done.
  - intros n e wls j ws Hne Hwls Hj.
    destruct (decide ((n, e) ∈ vis)) as [Hvis|Hvis].
    + destruct (Hb _ _ Hvis Hwls) as (graphs & Hgraphs & Hall).
      destruct (Forall2_lookup_r _ _ _ _ _ Hall Hj) as (graph & Hgraph & [_ Hpw]).
      exists graphs, graph. rewrite Hsg. split_and!; [done|done|].
      intros a b wa wb Hab Hwa Hwb.
      destruct (decide (a < b)%nat).
      * by eapply Hpw.
      * rewrite Hsym. eapply Hpw; [|done|done]. lia.
    + rewrite Ha in Hwls by done. apply Hothers in Hwls; [|done]. subst wls.
      by rewrite lookup_nil in Hj.
Qed.

End Weights_proofs.

(** The reference partitions meet the contract. *)
Lemma compositions_spec (e : nat) (d : Z) (part : list Z) :
  part ∈ compositions e d →
  length part = e ∧ (∀ x, x ∈ part → 1 ≤ x) ∧ sum part = d.
Proof.
  revert d part. induction e as [|e IH]; intros d part; simpl.
  - case_bool_decide as Hd; [|by intros ?%elem_of_nil].
    intros ->%list_elem_of_singleton. split_and!; [done| |done].
    by intros x ?%elem_of_nil.
  - rewrite list_elem_of_bind. intros (x & Hin & Hx%elem_of_range).
    apply list_elem_of_fmap in Hin as (rest & -> & Hrest).
    destruct (IH _ _ Hrest) as (Hlen & Hpos & Hsum). simpl.
    split_and!; [by rewrite Hlen| |lia].
    intros y [->|Hy]%elem_of_cons; [lia|by apply Hpos].
Qed.

Lemma ref_ordered_partition_contract (X : Collaborators) :
  int_partition_ordered X = ref_int_partition_ordered →
  ordered_partition_contract (X:=X).
Proof.
  intros HX d e part. rewrite HX. unfold ref_int_partition_ordered.
  case_bool_decide as He; [|by intros ?%elem_of_nil].
  intros (Hlen & Hpos & Hsum)%compositions_spec. split_and!; [lia|done|done].
Qed.

Lemma weightings_well_formed_witness :
  run_holds (Generator labelled_collaborators (params 3 None None None))
    (λ self _, ∀ n e wls ws wt,
       weights_d self !! (n, e) = Some wls → ws ∈ wls → wt ∈ ws →
       Z.of_nat (length wt) = e ∧ (∀ x, x ∈ wt → 1 ≤ x) ∧ e ≤ sum wt ≤ 3).
Proof.
  apply run_holds_intro; [vm_compute; reflexivity|].
  intros self cat Hrun.
  destruct (weightings_well_formed labelled_collaborators (params 3 None None None)
              self cat (ref_ordered_partition_contract labelled_collaborators eq_refl))
    as (Hshape & _ & _);
    [intros graph c1 c2; apply bool_decide_ext; split; congruence | exact Hrun |].
  exact Hshape.
Defined.

(** * The disconnected composer *)

Section Disconnected_proofs.

Context (X : Collaborators).
Implicit Types (self : Self X) (c : Connected X).

Lemma sum_app (l1 l2 : list Z) : sum (l1 ++ l2) = sum l1 + sum l2.
Proof. induction l1 as [|x l1 IH]; simpl; lia. Qed.

Lemma sum_Permutation (l1 l2 : list Z) : l1 ≡ₚ l2 → sum l1 = sum l2.
Proof. induction 1; simpl; lia. Qed.

Lemma filterM_r_Ok {A : Type} (f : A → result bool) (l ys : list A) :
  filterM_r f l = Ok ys → ∀ y, y ∈ ys → y ∈ l ∧ f y = Ok true.
Proof.
  revert ys. induction l as [|x l IH]; intros ys; simpl.
  - intros [= <-] y Hy. by apply elem_of_nil in Hy.
  - intros H. apply bind_Ok in H as (b & Hb & H).
    apply bind_Ok in H as (ys' & Hys & [= <-]).
    intros y Hy. destruct b.
    + apply elem_of_cons in Hy as [->|Hy]; [split; [by left|done]|].
      destruct (IH _ Hys _ Hy). split; [by right|done].
    + destruct (IH _ Hys _ Hy). split; [by right|done].
Qed.

Lemma good_part_true self x : good_part X self x = Ok true → (2 ≤ length x)%nat.
Proof.
  unfold good_part. destruct (mem 1 x); [done|].
  intros H. apply bind_Ok in H as (m & _ & [= H]).
  apply andb_true_iff in H as [_ H%bool_decide_eq_true]. lia.
Qed.

Lemma selections_Permutation {A : Type} (l : list A) (x : A) (r : list A) :
  (x, r) ∈ selections l → l ≡ₚ x :: r.
Proof.
  revert x r. induction l as [|y l IH]; intros x r; simpl.
  - by intros ?%elem_of_nil.
  - intros [[= -> ->]|Hin]%elem_of_cons; [done|].
    apply list_elem_of_fmap in Hin as ([x' r'] & [= -> ->] & Hin). simpl.
    rewrite (IH _ _ Hin). apply Permutation_swap.
Qed.

Lemma permutations_upto_Permutation {A : Type} (len : nat) (l l' : list A) :
  length l = len → l' ∈ permutations_upto len l → l' ≡ₚ l.
Proof.
  revert l l'. induction len as [|len IH]; intros l l' Hlen; simpl.
  - intros ->%list_elem_of_singleton. by destruct l.
  - rewrite list_elem_of_bind. intros ([x r] & Hin & Hsel). simpl in Hin.
    apply list_elem_of_fmap in Hin as (r' & -> & Hr').
    apply selections_Permutation in Hsel. rewrite Hsel.
    constructor. apply IH; [|done].
    apply Permutation_length in Hsel. simpl in Hsel. lia.
Qed.

Lemma itertools_permutations_Permutation {A : Type} (l l' : list A) :
  l' ∈ itertools_permutations l → l' ≡ₚ l.
Proof. by apply permutations_upto_Permutation. Qed.

Lemma product_length {A : Type} (ls : list (list A)) (l : list A) :
  l ∈ product ls → length l = length ls.
Proof.
  revert l. induction ls as [|l0 ls IH]; intros l; simpl.
  - by intros ->%list_elem_of_singleton.
  - rewrite list_elem_of_bind. intros (x & Hin & _).
    apply list_elem_of_fmap in Hin as (l' & -> & Hl'). simpl. by rewrite (IH _ Hl').
Qed.

Lemma mapM_r_length {A B : Type} (f : A → result B) (l : list A) (ys : list B) :
  mapM_r f l = Ok ys → length ys = length l.
Proof. intros H%mapM_r_Ok. symmetry. by eapply Forall2_length. Qed.

(** Every spec collected for an [n_part] that sums to [n] and [d_parts]
    that sum to [d] has these sums. *)
Lemma collect_specs_ok c n d n_part d_parts spec :
  set_order_contract (X:=X) →
  sum n_part = n → (2 ≤ length n_part)%nat →
  (∀ d_part, d_part ∈ d_parts → sum d_part = d ∧ length d_part = length n_part) →
  spec ∈ collect_specs X c n_part d_parts → spec_ok n d spec.
Proof.
  intros [Hperms _] Hn Hlen Hd. unfold collect_specs.
  rewrite list_elem_of_bind. intros (n_part_ord & Hin & Hord).
  apply Hperms, itertools_permutations_Permutation in Hord.
  apply list_elem_of_bind in Hin as (d_part & Hin & Hd_part).
  destruct (forallb _ _); [|by apply elem_of_nil in Hin].
  apply list_elem_of_singleton in Hin. subst spec.
  destruct (Hd _ Hd_part) as [Hsum Hlen_d].
  assert (length n_part_ord = length d_part) as Hlens.
  { rewrite Hlen_d. by apply Permutation_length. }
  unfold spec_ok, sorted_pairs.
  rewrite (sum_Permutation _ _ (fmap_Permutation fst _ _ (sorted_by_Permutation _ _))).
  rewrite (sum_Permutation _ _ (fmap_Permutation snd _ _ (sorted_by_Permutation _ _))).
  rewrite length_sorted_by, fst_zip, snd_zip, length_zip_with by lia.
  split_and!; [|done|lia].
  rewrite <- Hn. by apply sum_Permutation.
Qed.


(** The loop over the factors of a spec resolves each [(nn,dd,kk)] to the
    index of a connected row with these [n] and [d]. *)
Lemma factors_ok c (l : list (Z * Z * Z)) acc :
  index_ok c →
  foldM (add_factor X c) l ([], 0, 0) = Ok acc →
  Forall2 (λ f ind, 0 ≤ ind ∧ ∃ r, connected_specs c !! Z.to_nat ind = Some r ∧
                                   col_n r = f.1.1 ∧ col_d r = f.1.2) l acc.1.1.
Proof.
  intros (Hndk & _).
  apply (foldM_prefix (λ pre (acc : list Z * Z * Z),
    Forall2 (λ f ind, 0 ≤ ind ∧ ∃ r, connected_specs c !! Z.to_nat ind = Some r ∧
                                     col_n r = f.1.1 ∧ col_d r = f.1.2) pre acc.1.1)).
  { constructor. }
  intros pre [[nn dd] kk] post [[formula cm] em] acc2 _ Hpre Hstep. simpl in *.
  apply bind_Ok in Hstep as (ind & Hind%getitem_Ok & Hstep).
  apply bind_Ok in Hstep as (row & _ & [= <-]). simpl.
  apply Forall2_app; [done|]. constructor; [|constructor].
  apply Hndk in Hind as (Hpos & r & Hr & Hn & Hd & _). eauto.
Qed.

Lemma factors_columns c (l : list (Z * Z * Z)) (formula : list Z) :
  Forall2 (λ f ind, 0 ≤ ind ∧ ∃ r, connected_specs c !! Z.to_nat ind = Some r ∧
                                   col_n r = f.1.1 ∧ col_d r = f.1.2) l formula →
  sum_col c col_n formula = sum (l.*1.*1) ∧
  sum_col c col_d formula = sum (l.*1.*2) ∧
  (∀ ind, ind ∈ formula → 0 ≤ ind ∧ is_Some (connected_specs c !! Z.to_nat ind)).
Proof.
  unfold sum_col, comp_col.
  induction 1 as [|f ind l formula (Hpos & r & Hr & Hn & Hd) _ (IHn & IHd & IHin)]; csimpl.
  - split_and!; [done|done|]. by intros ? ?%elem_of_nil.
  - rewrite Hr. csimpl. rewrite IHn, IHd, Hn, Hd. split_and!; [done|done|].
    intros ind' [->|Hin]%elem_of_cons; [|by apply IHin]. rewrite Hr. eauto.
Qed.

Lemma sum_col_Permutation c col (f1 f2 : list Z) :
  f1 ≡ₚ f2 → sum_col c col f1 = sum_col c col f2.
Proof. intros H. unfold sum_col. apply sum_Permutation. by rewrite H. Qed.

(** The body of the loop over [kspec] appends one formula and its row. *)
Lemma add_formula_ok self c n d spec acc kspec acc' :
  index_ok c → spec_ok n d spec → length kspec = length spec →
  4 ≤ n ≤ 2 * dmax self → Z.quot n 2 ≤ d ≤ dmax self →
  Forall2 (disc_ok self c) acc.1.1 acc.1.2 →
  add_formula X c n d spec acc kspec = Ok acc' →
  Forall2 (disc_ok self c) acc'.1.1 acc'.1.2.
Proof.
  intros Hidx (Hsn & Hsd & Hlen) Hk Hn Hd Hacc.
  destruct acc as [[df ds] kcount]. unfold add_formula.
  intros H. apply bind_Ok in H as ([[formula cm] em] & Hfold & [= <-]). simpl in *.
  apply factors_ok in Hfold; [|done]. simpl in Hfold.
  pose proof (list.Forall2_length _ _ _ Hfold) as Hlen_f.
  destruct (factors_columns _ _ _ Hfold) as (Hcn & Hcd & Hin).
  rewrite fst_zip in Hcn, Hcd by lia.
  rewrite length_zip_with in Hlen_f.
  pose proof (sorted_by_Permutation Z.leb formula) as Hperm.
  apply Forall2_app; [done|]. constructor; [|constructor].
  unfold disc_ok, sorted_Z in *. simpl. rewrite length_sorted_by.
  split_and!; try done; try lia.
  - apply sorted_Z_Sorted.
  - intros ind Hind. apply Hin. by rewrite <- Hperm.
  - rewrite (sum_col_Permutation _ _ _ _ Hperm). lia.
  - rewrite (sum_col_Permutation _ _ _ _ Hperm). lia.
Qed.

(** The body of the loop over the specs. *)
Lemma add_spec_ok self c n d acc spec acc' :
  index_ok c → spec_ok n d spec →
  4 ≤ n ≤ 2 * dmax self → Z.quot n 2 ≤ d ≤ dmax self →
  Forall2 (disc_ok self c) acc.1 acc.2 →
  add_spec X c n d acc spec = Ok acc' →
  Forall2 (disc_ok self c) acc'.1 acc'.2.
Proof.
  intros Hidx Hspec Hn Hd Hacc. unfold add_spec. intros H.
  apply bind_Ok in H as (kcount & _ & H).
  apply bind_Ok in H as (ranges & Hranges%mapM_r_length & H).
  apply bind_Ok in H as ([[df ds] k] & Hfold & [= <-]). simpl.
  revert Hfold.
  apply (foldM_inv (λ a : list (list Z) * list Row * Z,
           Forall2 (disc_ok self c) a.1.1 a.1.2)); [done|].
  intros kspec a1 a2 Hkspec%product_length Ha1 Hstep.
  eapply add_formula_ok; [done|done| |done|done|done|done]. lia.
Qed.

(** The body of the loop over the [n_part]s. *)
Lemma add_n_part_ok self c n d acc n_part acc' :
  set_order_contract (X:=X) → unordered_partition_contract (X:=X) →
  index_ok c → sum n_part = n → (2 ≤ length n_part)%nat →
  4 ≤ n ≤ 2 * dmax self → Z.quot n 2 ≤ d ≤ dmax self →
  Forall2 (disc_ok self c) acc.1 acc.2 →
  add_n_part X c n d acc n_part = Ok acc' →
  Forall2 (disc_ok self c) acc'.1 acc'.2.
Proof.
  intros Hset Hpart Hidx Hsum Hlen Hn Hd Hacc. unfold add_n_part.
  case_bool_decide; [by intros [= <-]|].
  apply (foldM_inv (λ a : list (list Z) * list Row,
           Forall2 (disc_ok self c) a.1 a.2)); [done|].
  intros spec a1 a2 Hspec Ha1 Hstep.
  eapply add_spec_ok; [done| |done|done|done|done].
  apply (proj2 Hset) in Hspec.
  eapply collect_specs_ok; [done|done|done| |done].
  intros d_part [Hlen_d Hin]%list_elem_of_filter. split; [by apply Hpart|done].
Qed.

(** All the pairs of a formula and a row that the composer produces. *)
Lemma build_disconnected_ok self c acc :
  set_order_contract (X:=X) → unordered_partition_contract (X:=X) →
  index_ok c →
  build_disconnected X self c = Ok acc →
  Forall2 (disc_ok self c) acc.1 acc.2.
Proof.
  intros Hset Hpart Hidx. unfold build_disconnected.
  apply (foldM_inv (λ a : list (list Z) * list Row,
           Forall2 (disc_ok self c) a.1 a.2)); [constructor|].
  intros n a1 a2 Hn%elem_of_range Ha1 Hstep.
  apply bind_Ok in Hstep as (n_parts & Hn_parts & Hstep).
  revert Hstep.
  apply (foldM_inv (λ a : list (list Z) * list Row,
           Forall2 (disc_ok self c) a.1 a.2)); [done|].
  intros d a3 a4 Hd%elem_of_range Ha3.
  apply (foldM_inv (λ a : list (list Z) * list Row,
           Forall2 (disc_ok self c) a.1 a.2)); [done|].
  intros n_part a5 a6 Hin Ha5 Hstep.
  apply elem_of_sorted_by in Hin.
  destruct (filterM_r_Ok _ _ _ Hn_parts _ Hin) as [Hin' Hgood].
  eapply add_n_part_ok; [done|done|done| | | | |done|done].
  - by apply Hpart.
  - by eapply good_part_true.
  - lia.
  - lia.
Qed.


Lemma select_cons {A : Type} (x : A) (a : list A) (m : bool) (mask : list bool) :
  select (x :: a) (m :: mask) = if m then x :: select a mask else select a mask.
Proof.
  unfold select. simpl. destruct m.
  - rewrite filter_cons_True by done. done.
  - rewrite filter_cons_False by done. done.
Qed.

Lemma select_nil_r {A : Type} (a : list A) : select a [] = [].
Proof. unfold select. by destruct a. Qed.

(** The mask keeps formulae and rows together. *)
Lemma select_Forall2 {A B : Type} (P : A → B → Prop) a b (mask : list bool) :
  Forall2 P a b → Forall2 P (select a mask) (select b mask).
Proof.
  intros H. revert mask. induction H as [|x y a b Hxy _ IH]; intros mask.
  - destruct mask; constructor.
  - destruct mask as [|m mask]; [rewrite !select_nil_r; constructor|].
    rewrite !select_cons. destruct m; [constructor|]; auto.
Qed.

(** The mask of first occurrences leaves no duplicate. *)
Lemma select_first_occurrence (seen l : list (list Z)) :
  NoDup (select l (first_occurrence seen l)) ∧
  ∀ x, x ∈ select l (first_occurrence seen l) → x ∉ seen.
Proof.
  revert seen. induction l as [|form l IH]; intros seen; simpl.
  - split; [constructor|]. by intros x ?%elem_of_nil.
  - destruct (mem form seen) eqn:Hmem.
    + rewrite select_cons. apply IH.
    + rewrite select_cons. destruct (IH (form :: seen)) as [Hnd Hnot].
      assert (form ∉ seen) as Hform.
      { intros Hin%mem_true. congruence. }
      split.
      * constructor; [|done]. intros Hin%Hnot. apply Hin. by left.
      * intros x [->|Hx%Hnot]%elem_of_cons; [done|].
        intros Hin. apply Hx. by right.
Qed.

Lemma Generator_dmax p self cat :
  Generator X p = Ok (self, cat) → dmax self = p_dmax p ∧ nmax self = p_nmax p.
Proof.
  intros (a0 & a1 & Hinit & Hsimple & Hweights & _)%Generator_Ok.
  pose proof (init_tables_inv X _ _ Hinit) as Hinv0.
  pose proof (init_tables_spec X _ _ Hinit) as (_ & Hd0 & Hn0 & _).
  destruct (generate_simple_inv X _ _ Hinv0 Hsimple) as (_ & _ & _ & Hd1 & Hn1 & _).
  destruct (generate_weights_same X _ _ Hweights) as (_ & Hd2 & Hn2 & _).
  split; congruence.
Qed.

(** The disconnected rows of the catalog and their formulae. *)
Lemma Generator_disc_ok p self cat :
  set_order_contract (X:=X) → unordered_partition_contract (X:=X) →
  Generator X p = Ok (self, cat) →
  Forall2 (disc_ok self (connected cat)) (disc_formulae cat) (disc_specs cat) ∧
  NoDup (disc_formulae cat).
Proof.
  intros Hset Hpart Hgen.
  destruct (Generator_connected_inv X _ _ _ Hgen) as (_ & _ & _ & _ & _ & _ & Hidx).
  apply Generator_Ok in Hgen as (_ & _ & _ & _ & _ & Hd).
  apply generate_disconnected_Ok in Hd as (df & ds & _ & Hdisc & -> & -> & _).
  apply build_disconnected_ok in Hdisc; [|done..]. simpl in Hdisc.
  split; [by apply select_Forall2|]. apply select_first_occurrence.
Qed.

(** Every connected row has between 2 and [nmax] vertices, at least [n-1]
    edges, and a multiplicity between its edge count and [dmax]. *)
Lemma connected_row_bounds p self cat idx row :
  ordered_partition_contract (X:=X) →
  Generator X p = Ok (self, cat) →
  connected_specs (connected cat) !! idx = Some row →
  2 ≤ col_n row ≤ p_nmax p ∧ col_n row - 1 ≤ col_e row ∧
  col_e row ≤ col_d row ≤ p_dmax p.
Proof.
  intros Hcontract Hgen Hrow.
  destruct (Generator_connected_inv X _ _ _ Hgen) as (_ & _ & _ & _ & _ & Hrows & _).
  destruct (Hrows _ _ Hrow) as (pre & post & j & zj & m & wt & _ & Hj & Hm & Hd & _).
  destruct (bucket_lookup X _ _ _ _ Hj) as (ed & wd & ch & _ & _ & Hwd & Hwdj & _).
  destruct (weightings_shape X _ _ _ _ _ _ (z_weights zj) wt Hcontract Hgen Hwd)
    as (_ & _ & Hsum & Hn & He).
  - by eapply list_elem_of_lookup_2.
  - by eapply list_elem_of_lookup_2.
  - lia.
Qed.

(** C6: every retained formula is a sorted tuple of at least two indices
    of connected rows whose [n] sum to the [n] of its disconnected row and
    whose [d] sum to its [d]; no formula is stored twice. *)
Theorem disc_formulae_resolve p self cat :
  set_order_contract (X:=X) → unordered_partition_contract (X:=X) →
  Generator X p = Ok (self, cat) →
  Forall2 (λ formula row,
      Sorted Z.le formula ∧ (2 ≤ length formula)%nat ∧
      (∀ ind, ind ∈ formula →
         0 ≤ ind ∧ is_Some (connected_specs (connected cat) !! Z.to_nat ind)) ∧
      sum_col (connected cat) col_n formula = col_n row ∧
      sum_col (connected cat) col_d formula = col_d row)
    (disc_formulae cat) (disc_specs cat) ∧
  NoDup (disc_formulae cat).
Proof.
  intros Hset Hpart Hgen.
  destruct (Generator_disc_ok _ _ _ Hset Hpart Hgen) as [Hall Hnd].
  split; [|done]. eapply list.Forall2_impl; [exact Hall|].
  intros formula row (_ & _ & _ & _ & _ & ? & ? & ? & ? & ?). done.
Qed.

Lemma sum_col_double c (formula : list Z) :
  (∀ ind, ind ∈ formula → comp_col c col_n ind ≤ 2 * comp_col c col_d ind) →
  sum_col c col_n formula ≤ 2 * sum_col c col_d formula.
Proof.
  unfold sum_col. induction formula as [|ind formula IH]; intros H; csimpl; [lia|].
  assert (comp_col c col_n ind ≤ 2 * comp_col c col_d ind) by (apply H; by left).
  assert (sum (comp_col c col_n <$> formula) ≤ 2 * sum (comp_col c col_d <$> formula)).
  { apply IH. intros ind' Hin. apply H. by right. }
  lia.
Qed.

(** C7: every disconnected row has [4 ≤ n ≤ 2·dmax] and
    [⌈n/2⌉ ≤ d ≤ dmax]; its components are at least two connected rows,
    each with [2 ≤ n_i ≤ nmax], whose [n_i] sum to [n] and whose [d_i] sum
    to [d]. *)
Theorem disc_rows_in_range p self cat :
  set_order_contract (X:=X) → unordered_partition_contract (X:=X) →
  ordered_partition_contract (X:=X) →
  Generator X p = Ok (self, cat) →
  Forall2 (λ formula row,
      4 ≤ col_n row ≤ 2 * p_dmax p ∧
      (col_n row + 1) `div` 2 ≤ col_d row ≤ p_dmax p ∧
      (2 ≤ length formula)%nat ∧
      (∀ ind, ind ∈ formula →
         ∃ r, 0 ≤ ind ∧ connected_specs (connected cat) !! Z.to_nat ind = Some r ∧
              2 ≤ col_n r ≤ p_nmax p) ∧
      sum_col (connected cat) col_n formula = col_n row ∧
      sum_col (connected cat) col_d formula = col_d row)
    (disc_formulae cat) (disc_specs cat).
Proof.
  intros Hset Hpart Hord Hgen.
  destruct (Generator_disc_ok _ _ _ Hset Hpart Hgen) as [Hall _].
  destruct (Generator_dmax _ _ _ Hgen) as [Hdmax _].
  eapply list.Forall2_impl; [exact Hall|].
  intros formula row (Hn & Hd & _ & _ & _ & Hlen & _ & Hin & Hsn & Hsd). simpl.
  rewrite Hdmax in *.
  assert (Hcomp : ∀ ind, ind ∈ formula →
    ∃ r, 0 ≤ ind ∧ connected_specs (connected cat) !! Z.to_nat ind = Some r ∧
         2 ≤ col_n r ≤ p_nmax p ∧ col_n r ≤ 2 * col_d r).
  { intros ind [Hpos [r Hr]]%Hin. exists r.
    destruct (connected_row_bounds _ _ _ _ _ Hord Hgen Hr) as (? & ? & ?).
    split_and!; try done; lia. }
  assert (col_n row ≤ 2 * col_d row).
  { rewrite <- Hsn, <- Hsd. apply sum_col_double. intros ind Hind.
    destruct (Hcomp _ Hind) as (r & _ & Hr & _ & Hle).
    unfold comp_col. rewrite Hr. done. }
  split_and!; try done; try lia.
  - clear -H. enough ((col_n row + 1) `div` 2 < col_d row + 1) by lia.
    apply Z.div_lt_upper_bound; lia.
  - intros ind Hind. destruct (Hcomp _ Hind) as (r & ? & ? & ? & _). eauto.
Qed.

End Disconnected_proofs.

(** The reference partitions and set order meet the contracts. *)
Lemma asc_partitions_sum (fuel : nat) (m n : Z) (x : list Z) :
  x ∈ asc_partitions fuel m n → sum x = n.
Proof.
  revert m n x. induction fuel as [|fuel IH]; intros m n x; simpl.
  - by intros ?%elem_of_nil.
  - case_bool_decide; [by intros ?%elem_of_nil|].
    intros [Hin|Hin%list_elem_of_singleton]%elem_of_app; [|subst x; simpl; lia].
    apply list_elem_of_bind in Hin as (y & Hin & _).
    apply list_elem_of_fmap in Hin as (rest & -> & Hrest).
    apply IH in Hrest. simpl. lia.
Qed.

Lemma ref_unordered_partition_contract (X : Collaborators) :
  int_partition_unordered X = ref_int_partition_unordered →
  unordered_partition_contract (X:=X).
Proof. intros HX n x. rewrite HX. apply asc_partitions_sum. Qed.

Lemma insertion_order_contract (X : Collaborators) :
  set_order_perms X = insertion_order → set_order_specs X = insertion_order →
  set_order_contract (X:=X).
Proof.
  intros H1 H2. split; intros l x; rewrite ?H1, ?H2; unfold insertion_order;
    by rewrite elem_of_remove_dups.
Qed.

Lemma disc_formulae_resolve_witness :
  run_holds (Generator search_collaborators (params 4 None None None))
    (λ _ cat, NoDup (disc_formulae cat) ∧
       Forall2 (λ formula row,
           Sorted Z.le formula ∧ (2 ≤ length formula)%nat ∧
           sum_col (connected cat) col_n formula = col_n row ∧
           sum_col (connected cat) col_d formula = col_d row)
         (disc_formulae cat) (disc_specs cat)).
Proof.
  apply run_holds_intro; [vm_compute; reflexivity|].
  intros self cat Hrun.
  destruct (disc_formulae_resolve search_collaborators (params 4 None None None) self cat
              (insertion_order_contract search_collaborators eq_refl eq_refl)
              (ref_unordered_partition_contract search_collaborators eq_refl) Hrun) as [Hall Hnd].
  split; [exact Hnd|]. eapply list.Forall2_impl; [exact Hall|].
  intros formula row (? & ? & _ & ? & ?). tauto.
Defined.

Lemma disc_rows_in_range_witness :
  run_holds (Generator search_collaborators (params 4 None None None))
    (λ _ cat,
       Forall2 (λ formula row,
           4 ≤ col_n row ≤ 8 ∧ (col_n row + 1) `div` 2 ≤ col_d row ≤ 4 ∧
           (2 ≤ length formula)%nat)
         (disc_formulae cat) (disc_specs cat)).
Proof.
  apply run_holds_intro; [vm_compute; reflexivity|].
  intros self cat Hrun.
  pose proof (disc_rows_in_range search_collaborators (params 4 None None None) self cat
                (insertion_order_contract search_collaborators eq_refl eq_refl)
                (ref_unordered_partition_contract search_collaborators eq_refl)
                (ref_ordered_partition_contract search_collaborators eq_refl) Hrun) as Hall.
  eapply list.Forall2_impl; [exact Hall|].
  intros formula row (? & ? & ? & _). simpl in *. tauto.
Defined.

(** * Scenarios *)

Lemma bind_Ok_l {A B : Type} (a : A) (f : A → result B) : Ok a ≫= f = f a.
Proof. done. Qed.

Lemma scenario_init (X : Collaborators) :
  init_tables X (params 2 (Some 2) None None) = Ok (scenario_tables X).
Proof. reflexivity. Qed.

Lemma scenario_generate_simple (X : Collaborators) :
  ve X [(0, 1)] 2 ≤ 2 →
  _generate_simple X (scenario_tables X) = Ok (scenario_simple X).
Proof.
  intros Hchi. unfold _generate_simple, _add_if_new.
  change (getitem (simple_graphs_d (set_base_edges X (scenario_tables X) _)) (2, 1))
    with (Ok (@nil Graph)).
  cbn [mbind result_bind existsb].
  rewrite bool_decide_eq_false_2 by (simpl; lia).
  reflexivity.
Qed.

Lemma scenario_generate_weights (X : Collaborators) :
  _generate_weights X (scenario_simple X) = Ok (scenario_weights X).
Proof. reflexivity. Qed.

Lemma scenario_generate_disconnected ES EP iso vf2 ve0 eins ipo em :
  let X := Build_Collaborators ES EP iso vf2 ve0 eins ipo
             ref_int_partition_unordered insertion_order insertion_order em in
  run_get (cat ← _generate_disconnected X (scenario_weights X);
           Ok (scenario_weights X, cat))
    (λ _ cat, Some (connected_specs (connected cat), disc_specs cat,
                    disc_formulae cat, specs cat,
                    ndk2i (connected cat) !! (2, 1, 0))) =
  let chi := ve0 [(0, 1)] 2 in
  let row1 := {| col_n := 2; col_e := 1; col_d := 1; col_k := 0;
                 col_g := 0; col_w := 0; col_c := chi; col_p := 1 |} in
  let row2 := {| col_n := 2; col_e := 1; col_d := 2; col_k := 0;
                 col_g := 0; col_w := 1; col_c := chi; col_p := 1 |} in
  let row3 := {| col_n := 4; col_e := 1; col_d := 2; col_k := 0;
                 col_g := -1; col_w := -1; col_c := Z.max (Z.max 0 chi) chi;
                 col_p := 2 |} in
  Some ([row1; row2], [row3], [[0; 0]], [row1; row2; row3], Some 0).
Proof. reflexivity. Qed.

(** C8: with [dmax = 2] and [nmax = 2] (and the default [emax] and
    [cmax = nmax]), when the single edge scores at most [cmax], the
    connected rows are [(2,1,1,0)] and [(2,1,2,0)], the table [ndk2i] sends
    [(2,1,0)] to row 0, and the composer emits the one disconnected row
    [(n=4, e=1, d=2, k=0, g=-1, w=-1, p=2)], with the formula [(0, 0)].
    The isomorphism tests are never consulted. *)
Theorem scenario_dmax2_nmax2 (X : Collaborators) :
  ve X [(0, 1)] 2 ≤ 2 →
  int_partition_unordered X = ref_int_partition_unordered →
  set_order_perms X = insertion_order →
  set_order_specs X = insertion_order →
  run_get (Generator X (params 2 (Some 2) None None))
    (λ _ cat, Some (connected_specs (connected cat), disc_specs cat,
                    disc_formulae cat, specs cat,
                    ndk2i (connected cat) !! (2, 1, 0))) =
  let chi := ve X [(0, 1)] 2 in
  let row1 := {| col_n := 2; col_e := 1; col_d := 1; col_k := 0;
                 col_g := 0; col_w := 0; col_c := chi; col_p := 1 |} in
  let row2 := {| col_n := 2; col_e := 1; col_d := 2; col_k := 0;
                 col_g := 0; col_w := 1; col_c := chi; col_p := 1 |} in
  let row3 := {| col_n := 4; col_e := 1; col_d := 2; col_k := 0;
                 col_g := -1; col_w := -1; col_c := Z.max 0 chi; col_p := 2 |} in
  Some ([row1; row2], [row3], [[0; 0]], [row1; row2; row3], Some 0).
Proof.
  intros Hchi. unfold Generator.
  rewrite scenario_init, bind_Ok_l.
  rewrite (scenario_generate_simple X Hchi), bind_Ok_l.
  rewrite scenario_generate_weights, bind_Ok_l.
  destruct X as [ES EP iso vf2 ve0 eins ipo ipu sop sos em]. simpl.
  intros -> -> ->.
  rewrite (scenario_generate_disconnected ES EP iso vf2 ve0 eins ipo em).
  cbv zeta. replace (Z.max (Z.max 0 (ve0 [(0, 1)] 2)) (ve0 [(0, 1)] 2))
    with (Z.max 0 (ve0 [(0, 1)] 2)) by lia.
  done.
Qed.

Lemma scenario_dmax2_nmax2_witness :
  run_get (Generator search_collaborators (params 2 (Some 2) None None))
    (λ _ cat, Some (specs cat, disc_formulae cat)) =
  Some ([{| col_n := 2; col_e := 1; col_d := 1; col_k := 0;
            col_g := 0; col_w := 0; col_c := 2; col_p := 1 |};
         {| col_n := 2; col_e := 1; col_d := 2; col_k := 0;
            col_g := 0; col_w := 1; col_c := 2; col_p := 1 |};
         {| col_n := 4; col_e := 1; col_d := 2; col_k := 0;
            col_g := -1; col_w := -1; col_c := 2; col_p := 2 |}], [[0; 0]]).
Proof.
  pose proof (scenario_dmax2_nmax2 search_collaborators
                ltac:(vm_compute; discriminate) eq_refl eq_refl eq_refl) as H.
  destruct (Generator search_collaborators (params 2 (Some 2) None None))
    as [[self cat]|e]; simpl in *; [|discriminate].
  injection H as H1 H2 H3 H4 H5. by rewrite H4, H3.
Defined.

(** * Invalid configurations *)

Section Configuration.

Context (X : Collaborators).

Lemma mapM_r_total {A B : Type} (f : A → result B) (l : list A) :
  (∀ x, x ∈ l → ∃ y, f x = Ok y) → ∃ ys, mapM_r f l = Ok ys.
Proof.
  induction l as [|x l IH]; intros H; simpl; [by eexists|].
  destruct (H x) as [y Hy]; [by left|]. rewrite Hy. simpl.
  destruct IH as [ys Hys]; [intros x' Hx'; apply H; by right|].
  rewrite Hys. simpl. by eexists.
Qed.

Lemma list_to_map_is_Some {V : Type} (l : list (Z * V)) (k : Z) :
  k ∈ l.*1 → is_Some ((list_to_map l : gmap Z V) !! k).
Proof.
  intros Hin. destruct (list_to_map l !! k) eqn:E; [by eexists|].
  by apply not_elem_of_list_to_map in E.
Qed.

(** The tables of [__init__] are built for every configuration. *)
Lemma init_tables_total p : ∃ s0, init_tables X p = Ok s0.
Proof.
  unfold init_tables.
  set (ns := range 2 (p_nmax p + 1)).
  set (emaxs := list_to_map _ : gmap Z Z).
  destruct (mapM_r_total
    (λ n, em ← getitem emaxs n; Ok (n, range (n - 1) (em + 1))) ns) as [esl Hesl].
  { intros n Hn.
    destruct (list_to_map_is_Some
      ((λ n, (n, Z.min (p_emax p) (Z.quot (n * (n - 1)) 2))) <$> ns) n) as [em Hem].
    { rewrite <- list_fmap_compose. simpl. by rewrite list_fmap_id. }
    unfold getitem. fold emaxs in Hem |- *. rewrite Hem. simpl. by eexists. }
  rewrite Hesl. simpl.
  destruct (mapM_r_total
    (λ n, es ← getitem (list_to_map esl : gmap Z (list Z)) n;
          Ok ((λ e : Z, (n, e)) <$> (es : list Z))) ns) as [keys Hkeys].
  { intros n Hn. apply mapM_r_Ok in Hesl.
    destruct (list_to_map_is_Some esl n) as [es Hes].
    { apply list_elem_of_lookup in Hn as [idx Hidx].
      destruct (Forall2_lookup_l _ _ _ _ _ Hesl Hidx) as (y & Hy & Hf).
      apply bind_Ok in Hf as (em & _ & [= <-]).
      apply list_elem_of_fmap. exists (n, range (n - 1) (em + 1)). split; [done|].
      by eapply list_elem_of_lookup_2. }
    unfold getitem. rewrite Hes. simpl. by eexists. }
  rewrite Hkeys. simpl. by eexists.
Qed.

(** When [nmax < 2] or [emax < 1], the tables of [__init__] have no bucket
    [(2,1)], and construction fails with the [KeyError] of the first lookup
    of [_add_if_new], before a graph is stored. *)
Lemma small_nmax_or_emax_raises p :
  p_nmax p < 2 ∨ p_emax p < 1 →
  (∃ s0, init_tables X p = Ok s0 ∧ simple_graphs_d s0 !! (2, 1) = None ∧
         _generate_simple X s0 = Raise KeyError) ∧
  Generator X p = Raise KeyError.
Proof.
  intros Hbad. destruct (init_tables_total p) as [s0 Hs0].
  pose proof (init_tables_spec X _ _ Hs0)
    as (_ & _ & _ & _ & Hns & _ & Hes & keys & Hkeys & Hsg & _).
  assert (simple_graphs_d s0 !! (2, 1) = None) as Hnone.
  { rewrite Hsg, container_lookup. rewrite decide_False; [done|].
    intros (es & Hn & Hes2 & He)%Hkeys.
    rewrite Hns in Hn. apply elem_of_range in Hn.
    apply Hes in Hes2 as [_ ->]. apply elem_of_range in He.
    change (Z.quot (2 * (2 - 1)) 2) with 1 in He. lia. }
  assert (_generate_simple X s0 = Raise KeyError) as Hsimple.
  { unfold _generate_simple, _add_if_new, getitem. simpl. by rewrite Hnone. }
  split; [by exists s0|].
  unfold Generator. by rewrite Hs0, bind_Ok_l, Hsimple.
Qed.

Lemma foldM_total {A S : Type} (P : S → Prop) (f : S → A → result S)
    (l : list A) (s : S) :
  P s → (∀ x s1, x ∈ l → P s1 → ∃ s2, f s1 x = Ok s2 ∧ P s2) →
  ∃ s', foldM f l s = Ok s' ∧ P s'.
Proof.
  revert s. induction l as [|x l IH]; intros s HP Hstep; simpl; [by exists s|].
  destruct (Hstep x s) as (s2 & Hs2 & HP2); [by left|done|].
  rewrite Hs2. simpl. apply IH; [done|].
  intros x' s1 Hx'. apply Hstep. by right.
Qed.

Lemma elem_of_tail_l {A : Type} (l : list A) (x : A) : x ∈ tail l → x ∈ l.
Proof. destruct l as [|y l]; simpl; [done|]. intros Hx. by right. Qed.

(** [_add_if_new] returns when the bucket is a key of the five containers. *)
Lemma add_if_new_total (s : Self X) graph ne :
  bucket_exists s ne → ∃ s', _add_if_new X s graph ne = Ok s'.
Proof.
  intros ([gs Hgs] & [ed Hed] & [ch Hch] & [es Hes] & [ep Hep]).
  unfold _add_if_new, dict_append, getitem. rewrite Hgs. simpl.
  destruct (existsb _ gs); [by eexists|].
  case_bool_decide; [by eexists|].
  rewrite Hed, Hch, Hes, Hep. simpl. by eexists.
Qed.

Lemma add_if_new_ready (s : Self X) graph ne s' :
  lookups_ready s → _add_if_new X s graph ne = Ok s' →
  lookups_ready s' ∧ same_tables s s'.
Proof.
  intros Hready Hadd.
  destruct (add_if_new_tables _ _ _ _ _ Hadd) as (Ht & _). split; [|done].
  apply add_if_new_cases in Hadd
    as (gs & Hgs & [[-> _]|(_ & _ & ed & ch & es & ep & Hed & Hch & Hes & Hep & ->)]);
    [done|].
  destruct Hready as (Hn & Htail & Hkeys).
  split_and!; [done|done|].
  intros n es' e Hin Hes' He. simpl in Hin, Hes'.
  destruct (Hkeys _ _ _ Hin Hes' He) as (H1 & H2 & H3 & H4 & H5).
  unfold bucket_exists. simpl.
  destruct (decide ((n, e) = ne)) as [<-|Hne].
  - rewrite !lookup_insert_eq. split_and!; by eexists.
  - rewrite !lookup_insert_ne by done. done.
Qed.

(** The loops of [_generate_simple] return when what they look up is
    there. *)
Lemma simple_step_total (sI s : Self X) n es e :
  lookups_ready s → same_tables sI s →
  n ∈ tail (ns sI) → esbyn sI !! n = Some es → e ∈ es →
  ∃ s', simple_step X n s e = Ok s' ∧ lookups_ready s' ∧ same_tables sI s'.
Proof.
  intros Hready Ht Hn Hes He.
  set (P := λ s1 : Self X, lookups_ready s1 ∧ same_tables sI s1).
  assert (∀ s1 graph, P s1 → ∃ s2, _add_if_new X s1 graph (n, e) = Ok s2 ∧ P s2) as Hadd.
  { intros s1 graph [Hr1 Ht1].
    pose proof Ht1 as (_ & _ & _ & Hns1 & _ & Hes1 & _).
    destruct (add_if_new_total s1 graph (n, e)) as [s2 Hs2].
    { destruct Hr1 as (_ & _ & Hkeys). apply (Hkeys n es e); [|congruence|done].
      rewrite Hns1. by apply elem_of_tail_l. }
    exists s2. split; [done|].
    destruct (add_if_new_ready _ _ _ _ Hr1 Hs2) as [Hr2 Ht2].
    split; [done|]. by eapply same_tables_trans. }
  assert (P s) as HP by done.
  pose proof Ht as (_ & _ & _ & Hns & _ & Hesbyn & _ & Hbe).
  pose proof Hready as (Hlook & Htail & Hkeys).
  unfold simple_step.
  assert (n - 1 ∈ ns s) as Hn1 by (apply Htail; by rewrite Hns).
  destruct (Hlook _ Hn1) as [[esn1 Hesn1] _].
  rewrite (proj2 (getitem_Ok _ _ _) Hesn1), bind_Ok_l. cbv beta.
  assert (∃ s6, (if mem (e - 1) esn1
                 then seeds ← getitem (simple_graphs_d s) (n - 1, e - 1);
                      foldM (λ self seed_graph, add_vertex_step X n e seed_graph self)
                        seeds s
                 else Ok s) = Ok s6 ∧ P s6) as (s6 & -> & HP6).
  { destruct (mem (e - 1) esn1) eqn:Hm; [|by exists s].
    apply mem_true in Hm.
    destruct (Hkeys _ _ _ Hn1 Hesn1 Hm) as ([seeds Hseeds] & _).
    rewrite (proj2 (getitem_Ok _ _ _) Hseeds), bind_Ok_l. cbv beta.
    apply (foldM_total P); [done|].
    intros seed s1 _ HP1. unfold add_vertex_step.
    apply (foldM_total P); [done|].
    intros v s2 _ HP2. by apply Hadd. }
  rewrite bind_Ok_l. cbv beta.
  pose proof HP6 as [Hr6 Ht6].
  pose proof Ht6 as (_ & _ & _ & Hns6 & _ & Hes6 & _).
  rewrite Hes6, (proj2 (getitem_Ok _ _ _) Hes), bind_Ok_l. cbv beta.
  destruct (mem (e - 1) es) eqn:Hm; [|by exists s6].
  apply mem_true in Hm.
  destruct Hr6 as (_ & _ & Hkeys6).
  destruct (Hkeys6 n es (e - 1)) as ([seeds Hseeds] & [seed_edges Hedges] & _).
  { rewrite Hns6. by apply elem_of_tail_l. }
  { congruence. }
  { done. }
  rewrite (proj2 (getitem_Ok _ _ _) Hseeds), bind_Ok_l. cbv beta.
  rewrite (proj2 (getitem_Ok _ _ _) Hedges), bind_Ok_l. cbv beta.
  apply (foldM_total P); [done|].
  intros seed s7 _ HP7. unfold add_edge_step, _edge_filter.
  pose proof HP7 as [(Hlook7 & _) Ht7].
  pose proof Ht7 as (_ & _ & _ & Hns7 & _).
  destruct (Hlook7 n) as [_ [be Hbe7]].
  { rewrite Hns7. by apply elem_of_tail_l. }
  rewrite (proj2 (getitem_Ok _ _ _) Hbe7), !bind_Ok_l. cbv beta.
  apply (foldM_total P); [done|].
  intros new_edge s8 _ HP8. by apply Hadd.
Qed.

Lemma generate_simple_total (s : Self X) :
  lookups_ready
    (set_base_edges X s (list_to_map ((λ n, (n, combinations2 (range 0 n))) <$> ns s))) →
  is_Some (esbyn s !! 2) → 2 ∈ ns s → (∀ es, esbyn s !! 2 = Some es → 1 ∈ es) →
  ∃ s', _generate_simple X s = Ok s'.
Proof.
  intros Hready [es2 Hes2] H2 H1. unfold _generate_simple.
  set (sB := set_base_edges X s _) in *.
  set (P := λ s1 : Self X, lookups_ready s1 ∧ same_tables sB s1).
  destruct (add_if_new_total sB Full2 (2, 1)) as [s1 Hs1].
  { destruct Hready as (_ & _ & Hkeys). apply (Hkeys 2 es2 1); [done|done|by apply H1]. }
  rewrite Hs1, bind_Ok_l. cbv beta.
  destruct (add_if_new_ready _ _ _ _ Hready Hs1) as [Hr1 Ht1].
  pose proof Ht1 as (_ & _ & _ & Hns1 & _).
  rewrite Hns1.
  destruct (foldM_total P
              (λ self n, es ← getitem (esbyn self) n; foldM (simple_step X n) es self)
              (tail (ns sB)) s1) as (s' & Hs' & _); [done| |by exists s'].
  intros n s2 Hn [Hr2 Ht2].
  pose proof Ht2 as (_ & _ & _ & Hns2 & _ & Hes2' & _).
  destruct Hready as (Hlook & _).
  destruct (Hlook n) as [[es Hes] _]; [by apply elem_of_tail_l|].
  rewrite Hes2', (proj2 (getitem_Ok _ _ _) Hes), bind_Ok_l. cbv beta.
  apply (foldM_total P); [done|].
  intros e s3 He [Hr3 Ht3].
  destruct (simple_step_total sB s3 n es e Hr3 Ht3 Hn Hes He) as (s4 & ? & ? & ?).
  by exists s4.
Qed.

(** The tables of [__init__] hold what the loops of [_generate_simple]
    look up. *)
Lemma init_tables_ready p s0 :
  init_tables X p = Ok s0 →
  lookups_ready
    (set_base_edges X s0
       (list_to_map ((λ n, (n, combinations2 (range 0 n))) <$> ns s0))).
Proof.
  intros Hs0.
  pose proof (init_tables_spec X _ _ Hs0)
    as (_ & _ & _ & _ & Hns & _ & Hes & keys & Hkeys & Hsg & Hed & Hch & Hei & Hep & _).
  assert (∀ n, n ∈ ns s0 → is_Some (esbyn s0 !! n)) as Hsome.
  { revert Hs0. unfold init_tables. intros H.
    apply bind_Ok in H as (esl & _ & H). apply bind_Ok in H as (ks & Hks & [= <-]).
    simpl. intros n [idx Hidx]%list_elem_of_lookup. apply mapM_r_Ok in Hks.
    destruct (Forall2_lookup_l _ _ _ _ _ Hks Hidx) as (y & _ & Hf).
    apply bind_Ok in Hf as (es & Hes'%getitem_Ok & _). by eexists. }
  split_and!.
  - intros n Hn. simpl in Hn |- *. split; [by apply Hsome|].
    apply list_to_map_is_Some. rewrite <- list_fmap_compose. simpl.
    by rewrite list_fmap_id.
  - intros n Hn. simpl in Hn |- *. rewrite Hns in Hn |- *.
    rewrite tail_range in Hn. apply elem_of_range in Hn. apply elem_of_range. lia.
  - intros n es e Hn Hesn He. simpl in Hn, Hesn.
    assert ((n, e) ∈ keys) as Hin by (apply Hkeys; eauto).
    unfold bucket_exists. simpl. rewrite Hsg, Hed, Hch, Hei, Hep, !container_lookup.
    rewrite !decide_True by done. split_and!; by eexists.
Qed.

(** C2, amended: construction fails before a graph is stored exactly when
    [nmax < 2] or [emax < 1]: the tables of [__init__] then have no bucket
    [(2,1)], the first lookup of [_add_if_new] raises [KeyError], and so
    does the construction.  When [nmax ≥ 2] and [emax ≥ 1], whatever [dmax]
    and [cmax] are, nothing is raised before or while the simple graphs are
    generated: [_generate_simple] returns. *)
Theorem rejection_depends_on_nmax_and_emax_only p :
  (p_nmax p < 2 ∨ p_emax p < 1 →
     (∃ s0, init_tables X p = Ok s0 ∧ simple_graphs_d s0 !! (2, 1) = None ∧
            _generate_simple X s0 = Raise KeyError) ∧
     Generator X p = Raise KeyError) ∧
  (2 ≤ p_nmax p → 1 ≤ p_emax p →
     ∃ s0 s1, init_tables X p = Ok s0 ∧ _generate_simple X s0 = Ok s1).
Proof.
  split; [apply small_nmax_or_emax_raises|].
  intros Hn He. destruct (init_tables_total p) as [s0 Hs0].
  pose proof (init_tables_spec X _ _ Hs0)
    as (_ & _ & _ & _ & Hns & _ & Hes & _).
  pose proof (init_tables_ready _ _ Hs0) as Hready.
  assert (2 ∈ ns s0) as H2 by (rewrite Hns; apply elem_of_range; lia).
  destruct (generate_simple_total s0 Hready) as [s1 Hs1].
  - destruct Hready as (Hlook & _). by destruct (Hlook 2 H2).
  - done.
  - intros es Hes2. apply Hes in Hes2 as [_ ->]. apply elem_of_range.
    change (Z.quot (2 * (2 - 1)) 2) with 1. lia.
  - by exists s0, s1.
Qed.

End Configuration.

Lemma rejection_depends_on_nmax_and_emax_only_witness :
  Generator search_collaborators (params 1 (Some 1) None None) = Raise KeyError ∧
  ∃ s0 s1, init_tables search_collaborators (params 0 (Some 2) (Some 1) (Some 0)) = Ok s0 ∧
           _generate_simple search_collaborators s0 = Ok s1.
Proof.
  split.
  - destruct (rejection_depends_on_nmax_and_emax_only search_collaborators
                (params 1 (Some 1) None None)) as [H _].
    apply H. left. simpl. lia.
  - destruct (rejection_depends_on_nmax_and_emax_only search_collaborators
                (params 0 (Some 2) (Some 1) (Some 0))) as [_ H].
    apply H; simpl; lia.
Defined.


(** With [dmax = 0], the other bounds being valid, [_generate_simple] stores
    the single edge in bucket [(2,1)] and [_generate_weights] returns; with
    [cmax = 0] both return as well, the single edge being scored and left
    out.  No row results, so that construction ends on the empty mask of
    [_generate_disconnected]: with an [IndexError] of numpy, or, for a numpy
    that accepts this mask, with a catalog without rows. *)
Lemma invalid_cmax_or_dmax_is_accepted :
  let by_dmax := params 0 (Some 2) (Some 1) (Some 2) in
  let by_cmax := params 2 (Some 2) (Some 1) (Some 0) in
  stored_graphs (graph_stages search_collaborators by_dmax) (2, 1) = Some [Full2] ∧
  stored_graphs (graph_stages search_collaborators by_cmax) (2, 1) = Some [] ∧
  Generator search_collaborators by_dmax = Raise IndexError ∧
  Generator search_collaborators by_cmax = Raise IndexError ∧
  run_get (Generator (old_numpy search_collaborators) by_dmax)
    (λ _ cat, Some (specs cat)) = Some [] ∧
  run_get (Generator (old_numpy search_collaborators) by_cmax)
    (λ _ cat, Some (specs cat)) = Some [].
Proof. cbv zeta. split_and!; vm_compute; reflexivity. Qed.

(** * The counter [k] of the disconnected rows *)

(** C1 at [dmax = 4], [nmax = 2]: the rows 6 and 7 of the catalog, for the
    formulae [(0,2)] and [(1,1)], both have [(n,d,k) = (4,4,0)]: [kcount]
    starts again from [ks[(n,d)]] for every spec. *)
Lemma duplicate_k_at_dmax4_nmax2 :
  run_get (Generator search_collaborators (params 4 (Some 2) None None))
    (λ _ cat, Some (specs cat !! 6%nat, specs cat !! 7%nat,
                    disc_formulae cat !! 2%nat, disc_formulae cat !! 3%nat)) =
  let row := {| col_n := 4; col_e := 1; col_d := 4; col_k := 0;
                col_g := -1; col_w := -1; col_c := 2; col_p := 2 |} in
  Some (Some row, Some row, Some [0; 2], Some [1; 1]).
Proof. vm_compute. reflexivity. Qed.
